(** * haptic-persist backend: path resolver, tree builder, document store
      and change notifier

    A shallow embedding of [apps/backend] (the express server with the
    WebSocket fan-out) and the properties its specification states.

    Modelling conventions.
    - A JavaScript string is a [str], a list of code units; the model keeps
      the code units below 256 ([ascii]), which covers every character the
      code inspects (slash, backslash, dot, colon, letters, white space).
    - Node's [path] module is the POSIX one ([path.sep] is a slash).  It is
      a library of the platform, not of this repository; its functions
      follow [lib/path.js], and [normalizeString] is its loop over the
      characters.  [process.cwd()] is the field [cwd] of the configuration.
    - The disk is reached through an interface of the seven [fs.promises]
      calls the server makes; a call returns or throws.  The statements
      about the routes hold for every implementation of it.  One
      implementation, an in-memory table, runs the examples.
    - A route is a function from the request and the state of the world
      (disk, connected clients, clock) to a response and the next state,
      in a monad of state and exceptions; [await] does not interleave
      requests.  [client.send] on an open socket does not throw.
    - [localeCompare] with [sensitivity: 'base'] is the collation of the
      host and a parameter of the tree builder and of the names route.

    The file has the definitions first (strings, paths, resolver, routes,
    tree builder, the vocabulary of the statements, concrete inputs) and
    the proofs after them. *)

From Stdlib Require Import List Ascii String Bool Arith Lia ZArith Sorted.
Import ListNotations.

Set Implicit Arguments.
Set Warnings "-register-all".

(** ** JavaScript strings *)

Module Js.

Definition str := list ascii.

Definition lit (s : string) : str := list_ascii_of_string s.

Definition slash : ascii := "/"%char.
Definition backslash : ascii := "\"%char.
Definition dot : ascii := "."%char.
Definition colon : ascii := ":"%char.

Definition str_eqb (a b : str) : bool :=
  if list_eq_dec ascii_dec a b then true else false.

(** [!s] of a string: the empty string is the only falsy one. *)
Definition isEmpty (s : str) : bool :=
  match s with [] => true | _ => false end.

(** White space and line terminators stripped by [String.prototype.trim]
    (those below 256): TAB, LF, VT, FF, CR, SP, NBSP. *)
Definition isWhiteSpace (c : ascii) : bool :=
  let n := nat_of_ascii c in
  ((9 <=? n) && (n <=? 13)) || (n =? 32) || (n =? 160).

Fixpoint trimStart (s : str) : str :=
  match s with
  | c :: t => if isWhiteSpace c then trimStart t else s
  | [] => []
  end.

Definition trimEnd (s : str) : str := rev (trimStart (rev s)).

Definition trim (s : str) : str := trimEnd (trimStart s).

(** [s.replace(/\\/g, '/')] *)
Definition replaceBackslashes (s : str) : str :=
  map (fun c => if Ascii.eqb c backslash then slash else c) s.

(** [s.replace(/\/+/g, '/')]: every maximal run of slashes becomes one. *)
Fixpoint collapseSlashes (s : str) : str :=
  match s with
  | [] => []
  | c :: t =>
      if Ascii.eqb c slash then
        match t with
        | d :: _ => if Ascii.eqb d slash then collapseSlashes t
                    else c :: collapseSlashes t
        | [] => [c]
        end
      else c :: collapseSlashes t
  end.

Fixpoint startsWith (p s : str) : bool :=
  match p, s with
  | [], _ => true
  | a :: p', b :: s' => Ascii.eqb a b && startsWith p' s'
  | _ :: _, [] => false
  end.

Definition endsWith (p s : str) : bool := startsWith (rev p) (rev s).

(** [s.slice(0, -1)] *)
Definition dropLast (s : str) : str := removelast s.

(** [s.slice(n)] *)
Definition sliceFrom (n : nat) (s : str) : str := skipn n s.

(** [s.lastIndexOf(c)]; [None] stands for -1. *)
Fixpoint lastIndexOf (c : ascii) (s : str) : option nat :=
  match s with
  | [] => None
  | x :: t =>
      match lastIndexOf c t with
      | Some k => Some (S k)
      | None => if Ascii.eqb x c then Some 0 else None
      end
  end.

(** [s.split(c)] for a one-character separator. *)
Fixpoint split (c : ascii) (s : str) : list str :=
  match s with
  | [] => [[]]
  | x :: t =>
      if Ascii.eqb x c then [] :: split c t
      else match split c t with
           | w :: ws => (x :: w) :: ws
           | [] => [[x]]
           end
  end.

(** [l.join(sep)] *)
Fixpoint join (sep : str) (l : list str) : str :=
  match l with
  | [] => []
  | [w] => w
  | w :: ws => w ++ sep ++ join sep ws
  end.

(** [s.split('/').filter((segment) => segment.length > 0)], which is also
    [s.split('/').filter(Boolean)]. *)
Definition segmentsOf (s : str) : list str :=
  filter (fun w => negb (isEmpty w)) (split slash s).

Definition isLetter (c : ascii) : bool :=
  let n := nat_of_ascii c in
  ((65 <=? n) && (n <=? 90)) || ((97 <=? n) && (n <=? 122)).

(** [/^[a-zA-Z]:/.test(s)] *)
Definition hasWindowsDrive (s : str) : bool :=
  match s with
  | a :: b :: _ => isLetter a && Ascii.eqb b colon
  | _ => false
  end.

(** [s.toLowerCase()], on the code units below 256: the letters A to Z
    and the capital letters of Latin-1. *)
Definition toLower (c : ascii) : ascii :=
  let n := nat_of_ascii c in
  if ((65 <=? n) && (n <=? 90))
     || ((192 <=? n) && (n <=? 222) && negb (n =? 215))
  then ascii_of_nat (n + 32) else c.

Definition toLowerCase (s : str) : str := map toLower s.

End Js.

Import Js.

(** ** Node's [path] module (POSIX) *)

Module Path.

Definition sep : str := [slash].

Definition dotSeg : str := [dot].
Definition dotdotSeg : str := [dot; dot].

(** [path.isAbsolute] *)
Definition isAbsolute (path : str) : bool :=
  match path with
  | c :: _ => Ascii.eqb c slash
  | [] => false
  end.

(** The last character of [path] is a separator. *)
Definition trailingSeparator (path : str) : bool :=
  match rev path with
  | c :: _ => Ascii.eqb c slash
  | [] => false
  end.

(** *** [normalizeString]

    The loop of [lib/path.js] reads the path one character at a time.
    Its state is [res], [lastSegmentLength], [dots] and the position of
    the last separator; the model keeps, in place of that position, the
    characters read since: [segment] is [path.slice(lastSlash + 1, i)],
    so [lastSlash === i - 1] reads "[segment] is empty" and
    [i - lastSlash - 1] is its length. *)
Record Scan := mkScan {
  res : str;
  lastSegmentLength : nat;
  segment : str;
  dots : Z
}.

(** The branch of the loop for a separator.  Every way out of it sets
    [lastSlash = i] and [dots = 0]. *)
Definition endOfSegment (allowAboveRoot : bool) (st : Scan) : Scan :=
  let next (r : str) (n : nat) := mkScan r n [] 0 in
  let pushAbove :=
    if allowAboveRoot
    then next (if negb (isEmpty (res st)) then res st ++ sep ++ dotdotSeg
               else dotdotSeg) 2
    else next (res st) (lastSegmentLength st) in
  if isEmpty (segment st) || (dots st =? 1)%Z then
    next (res st) (lastSegmentLength st)
  else if (dots st =? 2)%Z then
    if (List.length (res st) <? 2) || negb (lastSegmentLength st =? 2)
       || negb (endsWith dotdotSeg (res st))
    then
      if 2 <? List.length (res st) then
        match lastIndexOf slash (res st) with
        | None => next [] 0
        | Some lastSlashIndex =>
            let res' := firstn lastSlashIndex (res st) in
            next res' (match lastIndexOf slash res' with
                       | None => List.length res'
                       | Some k => List.length res' - 1 - k
                       end)
        end
      else if negb (List.length (res st) =? 0) then next [] 0
      else pushAbove
    else pushAbove
  else
    next (if negb (isEmpty (res st)) then res st ++ sep ++ segment st
          else segment st)
         (List.length (segment st)).

(** One turn of the loop, for the character [code]. *)
Definition scanChar (allowAboveRoot : bool) (st : Scan) (code : ascii) : Scan :=
  if Ascii.eqb code slash then endOfSegment allowAboveRoot st
  else if Ascii.eqb code dot && negb (dots st =? -1)%Z then
    mkScan (res st) (lastSegmentLength st) (segment st ++ [code]) (dots st + 1)
  else
    mkScan (res st) (lastSegmentLength st) (segment st ++ [code]) (-1).

(** [normalizeString(path, allowAboveRoot, '/', isPosixPathSeparator)].
    At [i === path.length] the loop stops when the last character was a
    separator, and ends the last segment otherwise. *)
Definition normalizeString (path : str) (allowAboveRoot : bool) : str :=
  let st := fold_left (scanChar allowAboveRoot) path (mkScan [] 0 [] 0) in
  if trailingSeparator path then res st
  else res (endOfSegment allowAboveRoot st).

(** [path.normalize] *)
Definition normalize (path : str) : str :=
  if isEmpty path then dotSeg
  else
    let abs := isAbsolute path in
    let trailing := trailingSeparator path in
    let p := normalizeString path (negb abs) in
    if isEmpty p then
      if abs then sep else if trailing then dotSeg ++ sep else dotSeg
    else
      let p' := if trailing then p ++ sep else p in
      if abs then sep ++ p' else p'.

(** [path.join(...args)] *)
Definition pjoin (args : list str) : str :=
  match filter (fun a => negb (isEmpty a)) args with
  | [] => dotSeg
  | parts => normalize (join sep parts)
  end.

(** The loop of [path.resolve], over the arguments from the last one to
    the first one and then [process.cwd()]; it stops at the first absolute
    one. *)
Fixpoint resolveLoop (revArgs : list str) (resolvedPath : str) : str * bool :=
  match revArgs with
  | [] => (resolvedPath, false)
  | p :: rest =>
      if isEmpty p then resolveLoop rest resolvedPath
      else
        let resolvedPath' := p ++ sep ++ resolvedPath in
        if isAbsolute p then (resolvedPath', true)
        else resolveLoop rest resolvedPath'
  end.

(** [path.resolve(...args)] with [process.cwd()] given. *)
Definition resolve (cwd : str) (args : list str) : str :=
  let '(resolvedPath, resolvedAbsolute) := resolveLoop (rev args ++ [cwd]) [] in
  let n := normalizeString resolvedPath (negb resolvedAbsolute) in
  if resolvedAbsolute then sep ++ n
  else if isEmpty n then dotSeg else n.

(** Helpers of [dirname] and [basename], which scan from the end. *)
Fixpoint dropSeps (r : str) : str :=
  match r with
  | c :: t => if Ascii.eqb c slash then dropSeps t else r
  | [] => []
  end.

Fixpoint dropToSep (r : str) : str :=
  match r with
  | c :: t => if Ascii.eqb c slash then r else dropToSep t
  | [] => []
  end.

Fixpoint takeToSep (r : str) : str :=
  match r with
  | c :: t => if Ascii.eqb c slash then [] else c :: takeToSep t
  | [] => []
  end.

(** [path.dirname]: the scan runs from the last index down to index 1 and
    stops at the first separator after a non-separator. *)
Definition dirname (path : str) : str :=
  match path with
  | [] => dotSeg
  | c0 :: tl =>
      let hasRoot := Ascii.eqb c0 slash in
      match dropToSep (dropSeps (rev tl)) with
      | [] => if hasRoot then sep else dotSeg
      | _ :: before =>
          match before with
          | [] => if hasRoot then sep ++ sep else [c0]
          | _ => c0 :: rev before
          end
      end
  end.

(** [path.basename] without a suffix. *)
Definition basename (path : str) : str :=
  rev (takeToSep (dropSeps (rev path))).

End Path.

Import Path.

(** ** Values of request bodies and query strings *)

Inductive JsVal :=
| JUndefined
| JNull
| JBool (b : bool)
| JNumber (z : Z)
| JString (s : str)
| JArray (elems : list JsVal)
| JObject.

(** [!v] is [negb (truthy v)]. *)
Definition truthy (v : JsVal) : bool :=
  match v with
  | JUndefined | JNull => false
  | JBool b => b
  | JNumber z => negb (Z.eqb z 0)
  | JString s => negb (isEmpty s)
  | JArray _ | JObject => true
  end.

(** A thrown [Error]: the [code] of a filesystem error, and the message. *)
Record JsError := mkError { code : option string; message : string }.

Inductive Completion (A : Type) :=
| Normal (a : A)
| Throws (e : JsError).
Arguments Normal {A} a.
Arguments Throws {A} e.

(** ** Path resolver *)

(** [VOLUME_PATH], [ROOT_NAME] and the working directory of the process. *)
Record Config := mkConfig {
  VOLUME_PATH : str;
  ROOT_NAME : str;
  cwd : str
}.

Record Prepared := mkPrepared {
  targetPath : str;
  normalizedPath : str;
  original : str
}.

Record Resolved := mkResolved {
  prepared : Prepared;
  fsPath : str
}.

Definition escapesVolume : JsError :=
  mkError None "Resolved path escapes the volume".

Module Resolver.

(** The part of [prepareOperationPath] after the [typeof] test. *)
Definition prepareString (rawPath : str) : option Prepared :=
  let trimmed := trim rawPath in
  if isEmpty trimmed then None
  else
    let normalizedSlashes := collapseSlashes (replaceBackslashes trimmed) in
    let cleaned :=
      if negb (str_eqb normalizedSlashes sep) && endsWith sep normalizedSlashes
      then dropLast normalizedSlashes
      else normalizedSlashes in
    if isEmpty cleaned then None
    else if str_eqb cleaned sep then
      let fsPath := normalize sep in
      Some (mkPrepared fsPath fsPath trimmed)
    else
      let segments := segmentsOf cleaned in
      match segments with
      | [] => None
      | seg0 :: _ =>
          let startsWithRoot := startsWith sep cleaned in
          let hasDrive := hasWindowsDrive seg0 in
          let fsPath :=
            if startsWithRoot && negb hasDrive
            then pjoin (sep :: segments)
            else pjoin segments in
          let targetPath := normalize fsPath in
          Some (mkPrepared targetPath targetPath trimmed)
      end.

(** [prepareOperationPath(rawPath = '')] *)
Definition prepareOperationPath (rawPath : JsVal) : option Prepared :=
  match rawPath with
  | JUndefined => prepareString []
  | JString s => prepareString s
  | _ => None
  end.

Section WithConfig.

Variable cfg : Config.

(** [toApiPath(relativePath = '')] *)
Definition toApiPath (relativePath : str) : str :=
  let normalized := join (lit "/") (segmentsOf relativePath) in
  if isEmpty normalized then sep ++ ROOT_NAME cfg
  else sep ++ ROOT_NAME cfg ++ sep ++ normalized.

Definition volResolved : str := resolve (cwd cfg) [VOLUME_PATH cfg].

(** The containment test, as both of its occurrences write it. *)
Definition insideVolume (p : str) : bool :=
  startsWith (volResolved ++ sep) p || str_eqb p volResolved.

(** [s.replace(/^\//, '')] *)
Definition dropLeadingSlash (s : str) : str :=
  match s with
  | c :: t => if Ascii.eqb c slash then t else s
  | [] => []
  end.

(** The end of [resolveFsPathFromApiPath], from [path.resolve(VOLUME_PATH,
    relativeInsideVolume)] on. *)
Definition placeUnderVolume (prepared : Prepared) (relativeInsideVolume : str)
  : Completion (option Resolved) :=
  let fsPath := resolve (cwd cfg) [VOLUME_PATH cfg; relativeInsideVolume] in
  if negb (insideVolume fsPath) then Throws escapesVolume
  else Normal (Some (mkResolved prepared fsPath)).

Definition resolveFsPathFromApiPath (rawPath : JsVal)
  : Completion (option Resolved) :=
  match prepareOperationPath rawPath with
  | None => Normal None
  | Some prepared =>
      let normalized := replaceBackslashes (normalizedPath prepared) in
      let apiPrefix := sep ++ ROOT_NAME cfg in
      if str_eqb normalized apiPrefix then placeUnderVolume prepared []
      else if startsWith (apiPrefix ++ sep) normalized then
        placeUnderVolume prepared (sliceFrom (List.length apiPrefix + 1) normalized)
      else if isAbsolute normalized then
        let resolved := resolve (cwd cfg) [normalized] in
        if insideVolume resolved then Normal (Some (mkResolved prepared resolved))
        else placeUnderVolume prepared (dropLeadingSlash normalized)
      else placeUnderVolume prepared normalized
  end.

End WithConfig.

End Resolver.

Import Resolver.

(** The defaults of the server, started in [/srv/app]. *)
Definition cfg0 : Config := mkConfig (lit "./Haptic") (lit "Haptic") (lit "/srv/app").

(** The scenario of the specification: root [/vault], named [Vault]. *)
Definition cfgVault : Config := mkConfig (lit "/vault") (lit "Vault") (lit "/srv/app").


(** ** The filesystem, as [fs.promises] presents it

    The server reaches the disk only through seven calls.  A call either
    returns or throws an error with a [code]; a mutating call also gives
    the next state of the disk, whether it throws or not.  Everything below
    is stated over this interface, so it holds for every behaviour of the
    disk, permission and I/O errors included. *)

Record Stats := mkStats { isDirectory : bool; size : Z; mtime : str; ctime : str }.

(** A [Dirent] of [readdir(dir, { withFileTypes: true })]; the plain
    [readdir(dir)] gives the names of the same entries. *)
Record Dirent := mkDirent { name : str; direntIsDirectory : bool }.

Class FileSystem (FS : Type) := {
  fs_stat : FS -> str -> Completion Stats;
  fs_mkdir_recursive : FS -> str -> Completion unit * FS;
  fs_writeFile : FS -> str -> JsVal -> Completion unit * FS;
  fs_readFile : FS -> str -> Completion str;
  fs_readdir : FS -> str -> Completion (list Dirent);
  fs_rmdir : FS -> str -> bool -> Completion unit * FS;
  fs_unlink : FS -> str -> Completion unit * FS
}.

Inductive FsCall :=
| CallStat (p : str)
| CallMkdir (p : str)
| CallWriteFile (p : str) (data : JsVal)
| CallReadFile (p : str)
| CallReaddir (p : str)
| CallRmdir (p : str) (recursive : bool)
| CallUnlink (p : str).

(** ** Change notifier *)

Inductive ChangeType := created | updated | deleted.

(** The object that [broadcastChange] serialises. *)
Record ChangeMessage := mkMessage {
  msgType : string;
  msgCollection : str;
  msgChangeType : ChangeType;
  msgPath : str;
  msgTimestamp : str
}.

Inductive ReadyState := CONNECTING | OPEN | CLOSING | CLOSED.

Definition isOpen (s : ReadyState) : bool :=
  match s with OPEN => true | _ => false end.

(** A WebSocket of the set [clients]: its identity, its state, the
    property [ws.collection] that a subscribe message sets, and what has
    been sent to it. *)
Record Client := mkClient {
  clientId : nat;
  readyState : ReadyState;
  collection : JsVal;
  inbox : list ChangeMessage
}.

Definition send (message : ChangeMessage) (client : Client) : Client :=
  mkClient (clientId client) (readyState client) (collection client)
           (inbox client ++ [message]).

(** [clients.forEach((client) => { if (client.readyState === WebSocket.OPEN)
    client.send(message) })] *)
Definition forEachSend (message : ChangeMessage) (clients : list Client)
  : list Client :=
  map (fun client => if isOpen (readyState client) then send message client
                     else client) clients.

(** The handlers of [wss.on('connection')]. *)
Definition onConnection (id : nat) (clients : list Client) : list Client :=
  clients ++ [mkClient id OPEN JUndefined []].

(** [ws.on('message')]: [parsed] is the result of [JSON.parse], [None] when
    it throws; a parsed message gives its [type] and [collection]. *)
Definition onMessage (id : nat) (parsed : option (JsVal * JsVal))
  (clients : list Client) : list Client :=
  match parsed with
  | Some (JString ty, coll) =>
      if str_eqb ty (lit "subscribe") && truthy coll then
        map (fun c => if Nat.eqb (clientId c) id
                      then mkClient (clientId c) (readyState c) coll (inbox c)
                      else c) clients
      else clients
  | _ => clients
  end.

(** [ws.on('close')] and [ws.on('error')]: [clients.delete(ws)]. *)
Definition onClose (id : nat) (clients : list Client) : list Client :=
  filter (fun c => negb (Nat.eqb (clientId c) id)) clients.

(** ** Responses *)

Inductive TreeItem :=
| FileItem (path name : str)
| FolderItem (path name : str) (children : list TreeItem).

Inductive Body :=
| BObject (fields : list (string * JsVal))
| BNames (names : list str)
| BTree (items : list TreeItem).

Record Response := mkResponse { status : nat; body : Body }.

Record Request := mkRequest {
  isJson : bool;            (* req.is('application/json') *)
  bodyPath : JsVal;         (* req.body.path *)
  bodyMarkdown : JsVal;     (* req.body.markdown *)
  queryPath : JsVal;        (* req.query.path *)
  queryRecursive : JsVal    (* req.query.recursive *)
}.

Definition ENOENT : string := "ENOENT".

(** The two messages that quote the name of the field. *)
Definition quoted (s : string) : string :=
  (String (ascii_of_nat 34) s ++ String (ascii_of_nat 34) EmptyString)%string.

Definition pathRequired : string :=
  ("path is required. Include " ++ quoted "path" ++ " field in JSON body")%string.

Definition invalidPathProvided : string :=
  ("Invalid path provided. Ensure the " ++ quoted "path"
   ++ " field contains a valid value")%string.

Definition hasCode (e : JsError) (c : string) : bool :=
  match code e with
  | Some c' => String.eqb c' c
  | None => false
  end.

(** [Array.prototype.sort] with a comparator: a stable sort, here by
    insertion from the right end. *)
Section Sort.
Variable A : Type.
Variable cmp : A -> A -> Z.

Fixpoint insertBy (x : A) (l : list A) : list A :=
  match l with
  | [] => [x]
  | y :: t => if (cmp x y <=? 0)%Z then x :: l else y :: insertBy x t
  end.

Definition sortBy (l : list A) : list A := fold_right insertBy [] l.

(** The order of the comparator: [a] is not after [b]. *)
Definition leBy (a b : A) : Prop := (cmp a b <= 0)%Z.
End Sort.

(** ** Document store *)

Section Server.

Context {FS : Type} {fsops : FileSystem FS}.

Variable cfg : Config.

(** [a.localeCompare(b, undefined, { sensitivity: 'base' })], the collation
    of the host. *)
Variable localeCompare : str -> str -> Z.

(** The state a request runs against: the disk, the set [clients], the
    clock of [new Date()], and two records kept for the statements: the
    filesystem calls made and the messages handed to [broadcastChange].
    A handler runs to its response without interleaving. *)
Record World := mkWorld {
  disk : FS;
  clients : list Client;
  clock : str;
  calls : list FsCall;
  published : list ChangeMessage
}.

Definition M (A : Type) : Type := World -> Completion A * World.

Definition ret {A} (a : A) : M A := fun w => (Normal a, w).

Definition throw {A} (e : JsError) : M A := fun w => (Throws e, w).

Definition bind {A B} (m : M A) (k : A -> M B) : M B :=
  fun w => match m w with
           | (Normal a, w') => k a w'
           | (Throws e, w') => (Throws e, w')
           end.

(** [try { m } catch (error) { h error }] *)
Definition tryCatch {A} (m : M A) (h : JsError -> M A) : M A :=
  fun w => match m w with
           | (Normal a, w') => (Normal a, w')
           | (Throws e, w') => h e w'
           end.

Notation "x <- m ;; k" := (bind m (fun x => k))
  (at level 61, m at next level, right associativity).
Notation "m ;;; k" := (bind m (fun _ => k))
  (at level 61, right associativity).

Definition logCall (c : FsCall) (w : World) : World :=
  mkWorld (disk w) (clients w) (clock w) (calls w ++ [c]) (published w).

Definition reading {A} (c : FsCall) (f : FS -> Completion A) : M A :=
  fun w => (f (disk w), logCall c w).

Definition writing (c : FsCall) (f : FS -> Completion unit * FS) : M unit :=
  fun w => let '(r, d) := f (disk w) in
           (r, mkWorld d (clients w) (clock w) (calls w ++ [c]) (published w)).

Definition stat (p : str) : M Stats := reading (CallStat p) (fun d => fs_stat d p).
Definition mkdirRecursive (p : str) : M unit :=
  writing (CallMkdir p) (fun d => fs_mkdir_recursive d p).
Definition writeFile (p : str) (data : JsVal) : M unit :=
  writing (CallWriteFile p data) (fun d => fs_writeFile d p data).
Definition readdir (p : str) : M (list Dirent) :=
  reading (CallReaddir p) (fun d => fs_readdir d p).
Definition rmdir (p : str) (recursive : bool) : M unit :=
  writing (CallRmdir p recursive) (fun d => fs_rmdir d p recursive).
Definition unlink (p : str) : M unit :=
  writing (CallUnlink p) (fun d => fs_unlink d p).

(** [broadcastChange(collection, changeType, path)] *)
Definition broadcastChange (coll : str) (changeType : ChangeType) (path : str)
  : M unit :=
  fun w =>
    let message := mkMessage "file_change" coll changeType path (clock w) in
    (Normal tt,
     mkWorld (disk w) (forEachSend message (clients w)) (clock w) (calls w)
             (published w ++ [message])).

Definition resolveM (rawPath : JsVal) : M (option Resolved) :=
  fun w => (resolveFsPathFromApiPath cfg rawPath, w).

Definition json (st : nat) (fields : list (string * JsVal)) : Response :=
  mkResponse st (BObject fields).

Definition errorBody (err : string) : list (string * JsVal) :=
  [("error"%string, JString (lit err))].

Definition failure (err : string) (e : JsError) : Response :=
  json 500 [("error"%string, JString (lit err));
            ("details"%string, JString (lit (message e)))].

Definition changeWord (isUpdate : bool) : string :=
  if isUpdate then "updated" else "created".

(** [app.post('/markdown')] *)
Definition postMarkdown (req : Request) : M Response :=
  tryCatch
    (if negb (isJson req) then
       ret (json 400 (errorBody "Invalid content type. Expected application/json"))
     else
       let filePath := bodyPath req in
       let markdown := bodyMarkdown req in
       if negb (truthy filePath) then
         ret (json 400 (errorBody pathRequired))
       else
         resolved <- resolveM filePath ;;
         match resolved with
         | None =>
             ret (json 400 (errorBody invalidPathProvided))
         | Some (mkResolved prepared fsPath) =>
             isUpdate <- tryCatch (stat fsPath ;;; ret true)
                           (fun error => if negb (hasCode error ENOENT)
                                         then throw error else ret false) ;;
             mkdirRecursive (dirname fsPath) ;;;
             writeFile fsPath markdown ;;;
             broadcastChange (ROOT_NAME cfg)
               (if isUpdate then updated else created)
               (normalizedPath prepared) ;;;
             ret (json (if isUpdate then 200 else 201)
                    [("message"%string,
                      JString (lit ("Markdown file " ++ changeWord isUpdate
                                    ++ " successfully")));
                     ("filename"%string, JString (normalizedPath prepared));
                     ("fullPath"%string, JString fsPath)])
         end)
    (fun error => ret (failure "Failed to save markdown file" error)).

(** [app.put('/markdown')] *)
Definition putMarkdown (req : Request) : M Response :=
  tryCatch
    (if negb (isJson req) then
       ret (json 400 (errorBody "Invalid content type. Expected application/json"))
     else
       let filePath := bodyPath req in
       let markdown := bodyMarkdown req in
       if negb (truthy filePath) then
         ret (json 400 (errorBody pathRequired))
       else
         resolved <- resolveM filePath ;;
         match resolved with
         | None =>
             ret (json 400 (errorBody invalidPathProvided))
         | Some (mkResolved prepared fsPath) =>
             found <- tryCatch (stat fsPath ;;; ret true)
                        (fun error => if hasCode error ENOENT
                                      then ret false else throw error) ;;
             if negb found then ret (json 404 (errorBody "File not found"))
             else
               writeFile fsPath markdown ;;;
               broadcastChange (ROOT_NAME cfg) updated (normalizedPath prepared) ;;;
               ret (json 200
                      [("message"%string,
                        JString (lit "Markdown file updated successfully"));
                       ("filename"%string, JString (normalizedPath prepared));
                       ("fullPath"%string, JString fsPath)])
         end)
    (fun error => ret (failure "Failed to update markdown file" error)).

(** [Array.isArray(req.query.path) ? req.query.path[0] : req.query.path] *)
Definition firstOfQuery (v : JsVal) : JsVal :=
  match v with
  | JArray (x :: _) => x
  | JArray [] => JUndefined
  | _ => v
  end.

Definition isHidden (n : str) : bool := startsWith (lit ".") n.

Definition compareNames (a b : Dirent) : Z := localeCompare (name a) (name b).

Definition notFound (details : string) : Response :=
  json 404 [("error"%string, JString (lit "Path not found"));
            ("details"%string, JString (lit details))].

(** [app.get('/markdown/names')] *)
Definition getNames (req : Request) : M Response :=
  tryCatch
    (let rawPath := firstOfQuery (queryPath req) in
     target <-
       (if truthy rawPath then
          resolved <- resolveM rawPath ;;
          match resolved with
          | None => ret None
          | Some r => ret (Some (fsPath r))
          end
        else ret (Some (volResolved cfg))) ;;
     match target with
     | None => ret (json 400 (errorBody "Invalid path"))
     | Some targetPath =>
         stats <- tryCatch (st <- stat targetPath ;; ret (Some st))
                    (fun error => if hasCode error ENOENT
                                  then ret None else throw error) ;;
         match stats with
         | None => ret (notFound "The requested directory does not exist")
         | Some stats =>
             if negb (isDirectory stats) then
               ret (json 400 (errorBody "Path must point to a directory"))
             else
               dirEntries <- readdir targetPath ;;
               let sortedEntries :=
                 sortBy compareNames
                   (filter (fun entry => negb (isHidden (name entry))) dirEntries) in
               ret (mkResponse 200 (BNames (map name sortedEntries)))
         end
     end)
    (fun error => ret (failure "Failed to fetch names" error)).

(** [app.post('/markdown/folder')] *)
Definition postFolder (req : Request) : M Response :=
  tryCatch
    (if negb (isJson req) then
       ret (json 400 (errorBody "Invalid content type. Expected application/json"))
     else
       let folderPath := bodyPath req in
       if negb (truthy folderPath) then
         ret (json 400 (errorBody pathRequired))
       else
         resolved <- resolveM folderPath ;;
         match resolved with
         | None =>
             ret (json 400 (errorBody invalidPathProvided))
         | Some (mkResolved prepared fsPath) =>
             existing <- tryCatch (stats <- stat fsPath ;; ret (Some stats))
                           (fun error => if negb (hasCode error ENOENT)
                                         then throw error else ret None) ;;
             match existing with
             | Some stats =>
                 if isDirectory stats then
                   ret (json 409 [("error"%string,
                                   JString (lit "Directory already exists"));
                                  ("path"%string, JString (normalizedPath prepared))])
                 else
                   ret (json 409 [("error"%string,
                                   JString (lit "A file with the same name already exists"));
                                  ("path"%string, JString (normalizedPath prepared))])
             | None =>
                 mkdirRecursive fsPath ;;;
                 broadcastChange (ROOT_NAME cfg) created (normalizedPath prepared) ;;;
                 ret (json 201
                        [("message"%string,
                          JString (lit "Directory created successfully"));
                         ("path"%string, JString (normalizedPath prepared));
                         ("fullPath"%string, JString fsPath)])
             end
         end)
    (fun error => ret (failure "Failed to create directory" error)).

(** [app.delete('/markdown')] *)
Definition deleteMarkdown (req : Request) : M Response :=
  tryCatch
    (let rawPath := firstOfQuery (queryPath req) in
     let recursive :=
       match queryRecursive req with
       | JString s => str_eqb s (lit "true")
       | _ => false
       end in
     if negb (truthy rawPath) then
       ret (json 400 (errorBody "Path parameter is required"))
     else
       resolved <- resolveM rawPath ;;
       match resolved with
       | None => ret (json 400 (errorBody "Invalid path"))
       | Some (mkResolved preparedPath targetPath) =>
           stats <- tryCatch (st <- stat targetPath ;; ret (Some st))
                      (fun error => if hasCode error ENOENT
                                    then ret None else throw error) ;;
           match stats with
           | None => ret (notFound "The requested file or directory does not exist")
           | Some stats =>
               if str_eqb targetPath (volResolved cfg) then
                 ret (json 403
                        [("error"%string, JString (lit "Cannot delete root directory"));
                         ("details"%string,
                          JString (lit "Deletion of the root volume directory is not allowed"))])
               else if isDirectory stats then
                 nonEmpty <-
                   (if negb recursive then
                      dirEntries <- readdir targetPath ;;
                      ret (Nat.ltb 0 (List.length dirEntries))
                    else ret false) ;;
                 if nonEmpty then
                   ret (json 400
                          [("error"%string, JString (lit "Directory not empty"));
                           ("details"%string,
                            JString (lit "Use recursive=true to delete non-empty directories"))])
                 else
                   rmdir targetPath recursive ;;;
                   broadcastChange (ROOT_NAME cfg) deleted (normalizedPath preparedPath) ;;;
                   ret (json 200
                          [("message"%string,
                            JString (lit "Directory deleted successfully"));
                           ("path"%string, JString (normalizedPath preparedPath));
                           ("type"%string, JString (lit "directory"));
                           ("recursive"%string, JBool recursive)])
               else
                 unlink targetPath ;;;
                 broadcastChange (ROOT_NAME cfg) deleted (normalizedPath preparedPath) ;;;
                 ret (json 200
                        [("message"%string, JString (lit "File deleted successfully"));
                         ("path"%string, JString (normalizedPath preparedPath));
                         ("name"%string, JString (basename targetPath));
                         ("type"%string, JString (lit "file"))])
           end
       end)
    (fun error => ret (failure "Failed to delete item" error)).

(** ** Tree builder *)

(** The [for ... of] loop of [buildFileTree] over [sortedEntries];
    [recur] is the recursive call for a directory. *)
Fixpoint visitEntries
  (recur : str -> str -> option (Completion (list TreeItem)))
  (currentDir relativeDir : str) (entries : list Dirent)
  : option (Completion (list TreeItem)) :=
  match entries with
  | [] => Some (Normal [])
  | entry :: rest =>
      if isHidden (name entry) then visitEntries recur currentDir relativeDir rest
      else
        let absolutePath := pjoin [currentDir; name entry] in
        let relativePath :=
          if negb (isEmpty relativeDir)
          then pjoin [relativeDir; name entry] else name entry in
        let apiPath := toApiPath cfg relativePath in
        if direntIsDirectory entry then
          match recur absolutePath relativePath with
          | None => None
          | Some (Throws e) => Some (Throws e)
          | Some (Normal children) =>
              match visitEntries recur currentDir relativeDir rest with
              | Some (Normal items) =>
                  Some (Normal (FolderItem apiPath (name entry) children :: items))
              | other => other
              end
          end
        else
          match visitEntries recur currentDir relativeDir rest with
          | Some (Normal items) =>
              Some (Normal (FileItem apiPath (name entry) :: items))
          | other => other
          end
  end.

(** [buildFileTree(currentDir, relativeDir = '')].  The recursion follows
    the directories of the disk, so the function takes fuel: [None] is
    "out of fuel", never a result of the code. *)
Fixpoint buildFileTree (fuel : nat) (d : FS) (currentDir relativeDir : str)
  : option (Completion (list TreeItem)) :=
  match fuel with
  | O => None
  | S fuel' =>
      match fs_readdir d currentDir with
      | Throws e => Some (Throws e)
      | Normal dirEntries =>
          let sortedEntries := sortBy compareNames dirEntries in
          visitEntries (buildFileTree fuel' d) currentDir relativeDir sortedEntries
      end
  end.

(** A directory under which the walk of [buildFileTree] ends: no chain of
    directories without end below it. *)
Inductive Walkable (d : FS) : str -> Prop :=
| WalkFails dir e :
    fs_readdir d dir = Throws e -> Walkable d dir
| WalkDown dir entries :
    fs_readdir d dir = Normal entries ->
    (forall entry,
        In entry entries -> isHidden (name entry) = false ->
        direntIsDirectory entry = true ->
        Walkable d (pjoin [dir; name entry])) ->
    Walkable d dir.

End Server.

Arguments World FS : clear implicits.
Arguments M FS A : clear implicits.

(** The response of a handler and the state it leaves.  Every handler
    wraps its body in [try]/[catch]; the second case is express's own
    error handler and is never reached. *)
Definition run {FS : Type} (handler : M FS Response) (w : World FS)
  : Response * World FS :=
  match handler w with
  | (Normal r, w') => (r, w')
  | (Throws e, w') => (failure "Internal Server Error" e, w')
  end.

(** A response in the 2xx range: the operation succeeded. *)
Definition succeeded (r : Response) : bool :=
  (200 <=? status r) && (status r <? 300).

(** What a request adds to the messages handed to [broadcastChange]. *)
Definition publishedBy {FS : Type} (w w' : World FS) : list ChangeMessage :=
  skipn (List.length (published w)) (published w').

(** ** An in-memory disk

    One instance of the interface, for running the handlers: a table from
    absolute paths to entries, in the order in which [readdir] lists them.
    The root directory [/] exists always. *)

Module MemFs.

Inductive Entry := EFile (content : str) | EDir.

Definition t := list (str * Entry).

Fixpoint lookup (p : str) (d : t) : option Entry :=
  match d with
  | [] => None
  | (q, e) :: rest => if str_eqb q p then Some e else lookup p rest
  end.

Definition find (p : str) (d : t) : option Entry :=
  if str_eqb p sep then Some EDir else lookup p d.

Definition remove (p : str) (d : t) : t :=
  filter (fun qe => negb (str_eqb (fst qe) p)) d.

Definition fsError (c : string) : JsError := mkError (Some c) c.

Definition typeError : JsError :=
  mkError (Some "ERR_INVALID_ARG_TYPE"%string) "The data argument must be of type string".

Definition statOf (e : Entry) : Stats :=
  match e with
  | EFile content => mkStats false (Z.of_nat (List.length content)) [] []
  | EDir => mkStats true 0 [] []
  end.

Definition stat (d : t) (p : str) : Completion Stats :=
  match find p d with
  | Some e => Normal (statOf e)
  | None =>
      match find (dirname p) d with
      | Some (EFile _) => Throws (fsError "ENOTDIR")
      | _ => Throws (fsError "ENOENT")
      end
  end.

(** The directories from the root down to [p]. *)
Definition ancestors (p : str) : list str :=
  let fix go (prefix : str) (segs : list str) : list str :=
    match segs with
    | [] => []
    | s :: rest => let q := prefix ++ sep ++ s in q :: go q rest
    end in
  go [] (segmentsOf p).

Fixpoint mkdirs (d : t) (dirs : list str) : Completion unit * t :=
  match dirs with
  | [] => (Normal tt, d)
  | q :: rest =>
      match find q d with
      | Some EDir => mkdirs d rest
      | Some (EFile _) =>
          (Throws (fsError (match rest with [] => "EEXIST" | _ => "ENOTDIR" end)), d)
      | None => mkdirs (d ++ [(q, EDir)]) rest
      end
  end.

Definition mkdir_recursive (d : t) (p : str) : Completion unit * t :=
  mkdirs d (ancestors p).

Definition writeFile (d : t) (p : str) (data : JsVal) : Completion unit * t :=
  match data with
  | JString content =>
      match find p d with
      | Some EDir => (Throws (fsError "EISDIR"), d)
      | Some (EFile _) =>
          (Normal tt,
           map (fun qe => if str_eqb (fst qe) p then (p, EFile content) else qe) d)
      | None =>
          match find (dirname p) d with
          | Some EDir => (Normal tt, d ++ [(p, EFile content)])
          | Some (EFile _) => (Throws (fsError "ENOTDIR"), d)
          | None => (Throws (fsError "ENOENT"), d)
          end
      end
  | _ => (Throws typeError, d)
  end.

Definition readFile (d : t) (p : str) : Completion str :=
  match find p d with
  | Some (EFile content) => Normal content
  | Some EDir => Throws (fsError "EISDIR")
  | None => Throws (fsError "ENOENT")
  end.

Definition childrenOf (d : t) (p : str) : t :=
  filter (fun qe => str_eqb (dirname (fst qe)) p && negb (str_eqb (fst qe) p)) d.

Definition readdir (d : t) (p : str) : Completion (list Dirent) :=
  match find p d with
  | Some EDir =>
      Normal (map (fun qe => mkDirent (basename (fst qe))
                               (match snd qe with EDir => true | _ => false end))
                  (childrenOf d p))
  | Some (EFile _) => Throws (fsError "ENOTDIR")
  | None => Throws (fsError "ENOENT")
  end.

Definition rmdir (d : t) (p : str) (recursive : bool) : Completion unit * t :=
  match find p d with
  | Some EDir =>
      if recursive then
        (Normal tt,
         filter (fun qe => negb (str_eqb (fst qe) p
                                 || startsWith (p ++ sep) (fst qe))) d)
      else
        match childrenOf d p with
        | [] => (Normal tt, remove p d)
        | _ => (Throws (fsError "ENOTEMPTY"), d)
        end
  | Some (EFile _) => (Throws (fsError "ENOTDIR"), d)
  | None => (Throws (fsError "ENOENT"), d)
  end.

Definition unlink (d : t) (p : str) : Completion unit * t :=
  match find p d with
  | Some (EFile _) => (Normal tt, remove p d)
  | Some EDir => (Throws (fsError "EISDIR"), d)
  | None => (Throws (fsError "ENOENT"), d)
  end.

#[global] Instance ops : FileSystem t := {
  fs_stat := stat;
  fs_mkdir_recursive := mkdir_recursive;
  fs_writeFile := writeFile;
  fs_readFile := readFile;
  fs_readdir := readdir;
  fs_rmdir := rmdir;
  fs_unlink := unlink
}.

End MemFs.

(** A collation for running the tree builder: the code units with the
    letters folded to lower case, compared from the left. *)
Module Collation.

Definition fold (c : ascii) : nat := nat_of_ascii (toLower c).

Fixpoint compareFolded (a b : str) : Z :=
  match a, b with
  | [], [] => 0%Z
  | [], _ :: _ => (-1)%Z
  | _ :: _, [] => 1%Z
  | x :: a', y :: b' =>
      if fold x <? fold y then (-1)%Z
      else if fold y <? fold x then 1%Z
      else compareFolded a' b'
  end.

End Collation.

(** ** Vocabulary of the statements *)

Section Vocabulary.

Context {FS : Type} {fsops : FileSystem FS}.
Variable cfg : Config.

(** The message of [broadcastChange(ROOT_NAME, kind, prepared.normalizedPath)]. *)
Definition changeEvent (w : World FS) (kind : ChangeType) (rs : Resolved)
  : ChangeMessage :=
  mkMessage "file_change" (ROOT_NAME cfg) kind (normalizedPath (prepared rs)) (clock w).

(** The probe of the write route: [fs.stat] returns. *)
Definition existsOnDisk (w : World FS) (p : str) : bool :=
  match fs_stat (disk w) p with
  | Normal _ => true
  | Throws _ => false
  end.

(** On success one event, of the kind [kind], goes through
    [broadcastChange] and reaches the clients; on failure none does. *)
Definition publishesOnSuccess (w : World FS) (rawPath : JsVal)
  (kind : Resolved -> ChangeType) (out : Response * World FS) : Prop :=
  if succeeded (fst out) then
    exists rs,
      resolveFsPathFromApiPath cfg rawPath = Normal (Some rs) /\
      published (snd out) = published w ++ [changeEvent w (kind rs) rs] /\
      clients (snd out) = forEachSend (changeEvent w (kind rs) rs) (clients w)
  else
    published (snd out) = published w /\ clients (snd out) = clients w.

End Vocabulary.

(** What [broadcastChange] does to one client: the message is appended to
    what an open socket has received, and nothing else changes. *)
Definition deliveredTo (m : ChangeMessage) (before after : Client) : Prop :=
  clientId after = clientId before /\
  readyState after = readyState before /\
  collection after = collection before /\
  inbox after = if isOpen (readyState before) then inbox before ++ [m]
                else inbox before.

(** ** Shapes of paths *)

Definition noSlash (s : str) : Prop := ~ In slash s.

(** A segment: not empty, no separator inside. *)
Definition goodSeg (s : str) : Prop := s <> [] /\ noSlash s.

(** [normalizeString] seen on the segments of its argument.  One step at
    the end of a segment; [res] is the stack of the segments kept so far,
    the last one first. *)
Definition pushSegment (allowAboveRoot : bool) (res : list str) (seg : str)
  : list str :=
  if isEmpty seg || str_eqb seg dotSeg then res
  else if str_eqb seg dotdotSeg then
    match res with
    | top :: rest =>
        if str_eqb top dotdotSeg
        then (if allowAboveRoot then dotdotSeg :: res else res)
        else rest
    | [] => if allowAboveRoot then [dotdotSeg] else []
    end
  else seg :: res.

Definition normalizeSegments (allowAboveRoot : bool) (segs : list str)
  : list str :=
  rev (fold_left (pushSegment allowAboveRoot) segs []).

(** The loop seen on a stack of segments and the characters of the
    segment being read. *)
Definition feed (allowAboveRoot : bool) (sc : list str * str) (c : ascii)
  : list str * str :=
  if Ascii.eqb c slash then (pushSegment allowAboveRoot (fst sc) (snd sc), [])
  else (fst sc, snd sc ++ [c]).

(** The counter [dots] for the characters of a segment. *)
Definition dotsOf (s : str) : Z :=
  if forallb (Ascii.eqb dot) s then Z.of_nat (List.length s) else (-1)%Z.

(** A segment that [normalizeString] keeps as it is. *)
Definition plainSeg (s : str) : Prop := s <> [] /\ s <> dotSeg /\ s <> dotdotSeg.

(** What [normalizeString] leaves: parent steps in front, when they are
    allowed, and then plain segments. *)
Definition NormalForm (allowAboveRoot : bool) (l : list str) : Prop :=
  exists k T,
    l = repeat dotdotSeg k ++ T /\ Forall plainSeg T /\
    (allowAboveRoot = false -> k = 0).

(** The paths that [path.join] and [path.normalize] give for segments
    without separators. *)
Inductive NormalPath : str -> Prop :=
| NormalAbsolute l :
    NormalForm false l -> Forall goodSeg l -> NormalPath (sep ++ join sep l)
| NormalRelative l :
    NormalForm true l -> Forall goodSeg l -> l <> [] -> NormalPath (join sep l)
| NormalDot : NormalPath dotSeg.

(** The stack of [normalizeString]: plain segments above parent steps. *)
Definition StackOk (b : bool) (res : list str) : Prop :=
  exists k T,
    res = T ++ repeat dotdotSeg k /\ Forall plainSeg T /\ (b = false -> k = 0).


(** The relative path of a list of segments: [.] when there is none. *)
Definition relativeOf (l : list str) : str :=
  match l with
  | [] => dotSeg
  | _ => join sep l
  end.

(** [cleaned], as [prepareOperationPath] computes it from its argument. *)
Definition cleanedOf (s : str) : str :=
  let normalizedSlashes := collapseSlashes (replaceBackslashes (trim s)) in
  if negb (str_eqb normalizedSlashes sep) && endsWith sep normalizedSlashes
  then dropLast normalizedSlashes
  else normalizedSlashes.

(** The test [startsWithRoot && hasWindowsDrive], on a path. *)
Definition rootedDrive (n : str) : bool :=
  startsWith sep n &&
  match segmentsOf n with
  | seg0 :: _ => hasWindowsDrive seg0
  | [] => false
  end.

(** Resolving the normalized path of a resolution gives the same
    normalized path and the same filesystem path. *)
Definition ReresolvesToSame (cfg : Config) (raw : JsVal) : Prop :=
  forall rs,
    resolveFsPathFromApiPath cfg raw = Normal (Some rs) ->
    exists rs',
      resolveFsPathFromApiPath cfg (JString (normalizedPath (prepared rs)))
      = Normal (Some rs') /\
      normalizedPath (prepared rs') = normalizedPath (prepared rs) /\
      fsPath rs' = fsPath rs.

(** No two separators in a row. *)
Fixpoint noDoubleSlash (s : str) : Prop :=
  match s with
  | a :: t =>
      match t with
      | b :: _ => ~ (a = slash /\ b = slash)
      | [] => True
      end /\ noDoubleSlash t
  | [] => True
  end.

(** ** Shapes of trees *)

Definition itemName (t : TreeItem) : str :=
  match t with
  | FileItem _ n => n
  | FolderItem _ n _ => n
  end.

Section TreeShape.

Variable localeCompare : str -> str -> Z.

(** The order of the listing: [a] stands before [b] when
    [a.localeCompare(b)] is not positive. *)
Definition nameLe : str -> str -> Prop := leBy localeCompare.

(** One level of a tree: no hidden name, and the names in order. *)
Definition LevelOk (items : list TreeItem) : Prop :=
  Forall (fun t => isHidden (itemName t) = false) items /\
  StronglySorted nameLe (map itemName items).

(** Every level below an item is one. *)
Fixpoint ItemOk (t : TreeItem) : Prop :=
  match t with
  | FileItem _ _ => True
  | FolderItem _ _ children =>
      LevelOk children /\
      (fix all (l : list TreeItem) : Prop :=
         match l with
         | [] => True
         | x :: r => ItemOk x /\ all r
         end) children
  end.

Definition TreeOk (items : list TreeItem) : Prop :=
  LevelOk items /\ Forall ItemOk items.

End TreeShape.

(** The state of the loop of [normalizeString] against the stack of
    segments and the segment being read. *)
Definition ScanOk (st : Scan) (stack : list str) (cur : str) : Prop :=
  res st = join sep (rev stack) /\
  lastSegmentLength st = List.length (hd [] stack) /\
  segment st = cur /\
  dots st = dotsOf cur /\
  Forall goodSeg stack.

(** The pieces of a string that continues the segment [cur]. *)
Definition prependTo (cur : str) (l : list str) : list str :=
  match l with
  | w :: ws => (cur ++ w) :: ws
  | [] => [cur]
  end.

(** ** Concrete inputs *)

(** The normalized path and the filesystem path of a resolution. *)
Definition showResolved (r : Completion (option Resolved)) : Completion (option (str * str)) :=
  match r with
  | Normal (Some r) => Normal (Some (normalizedPath (prepared r), fsPath r))
  | Normal None => Normal None
  | Throws e => Throws e
  end.

(** The scenario of the specification, on the in-memory disk. *)
Definition worldVault : World MemFs.t :=
  mkWorld [(lit "/vault", MemFs.EDir)]
          [mkClient 1 OPEN (JString (lit "Vault")) []; mkClient 2 CLOSED JUndefined []]
          (lit "2024-01-01T00:00:00.000Z") [] [].

Definition writeReq (p content : string) : Request :=
  mkRequest true (JString (lit p)) (JString (lit content)) JUndefined JUndefined.

Definition deleteReq (p : string) (recursive : string) : Request :=
  mkRequest false JUndefined JUndefined (JString (lit p)) (JString (lit recursive)).

(** The root [/data] of the sibling example. *)
Definition cfgData : Config := mkConfig (lit "/data") (lit "Data") (lit "/srv/app").

(** The storage root with one file in it. *)
Definition worldWithFile : World MemFs.t :=
  mkWorld [(lit "/vault", MemFs.EDir); (lit "/vault/a.md", MemFs.EFile (lit "hello"))]
          [mkClient 1 OPEN (JString (lit "Vault")) []]
          (lit "2024-01-01T00:00:00.000Z") [] [].

(** A directory that holds one hidden file, and a visible tree next to it. *)
Definition worldWithHidden : World MemFs.t :=
  mkWorld [(lit "/vault", MemFs.EDir);
           (lit "/vault/notes", MemFs.EDir);
           (lit "/vault/notes/.keep", MemFs.EFile (lit ""));
           (lit "/vault/b.md", MemFs.EFile (lit "b"));
           (lit "/vault/Archive", MemFs.EDir);
           (lit "/vault/Archive/z.md", MemFs.EFile (lit "z"));
           (lit "/vault/Archive/A.md", MemFs.EFile (lit "a"));
           (lit "/vault/.git", MemFs.EDir)]
          [] (lit "2024-01-01T00:00:00.000Z") [] [].

Definition folderReq (p : string) : Request :=
  mkRequest true (JString (lit p)) JUndefined JUndefined JUndefined.

Definition resolvedAt (n fs : string) : Resolved :=
  mkResolved (mkPrepared (lit n) (lit n) (lit n)) (lit fs).

(** The default server with one client that subscribed to another
    collection. *)
Definition worldOtherSubscriber : World MemFs.t :=
  mkWorld [(lit "/srv/app/Haptic", MemFs.EDir)]
          (onMessage 1 (Some (JString (lit "subscribe"), JString (lit "Other")))
                     (onConnection 1 []))
          (lit "2024-01-01T00:00:00.000Z") [] [].

(** ** Tactics for the routes *)

(** Unfolds a handler down to the results of the filesystem calls. *)
Ltac unfold_handler :=
  unfold run, postMarkdown, putMarkdown, postFolder, deleteMarkdown, getNames,
    tryCatch, bind, ret, throw, resolveM, stat, mkdirRecursive, writeFile,
    readdir, rmdir, unlink, reading, writing, broadcastChange, logCall in *;
  simpl in *.

Ltac innermost x :=
  lazymatch x with
  | context [match _ with _ => _ end] => fail
  | _ => idtac
  end.

(** Splits on the scrutinees of the goal, the innermost first, using the
    equations at hand. *)
Ltac split_handler :=
  repeat match goal with
         | H : ?x = _ |- context [match ?x with _ => _ end] => rewrite H; simpl
         | |- context [match ?x with _ => _ end] =>
             innermost x; destruct x eqn:?; simpl
         end.


From Stdlib Require Import Permutation.

(** ** Vocabulary of the properties of the paths *)

(** A name that [path.join] and the resolver leave as it is: one segment,
    not a step ([.] or [..]), without a backslash. *)
Definition cleanSeg (s : str) : Prop :=
  goodSeg s /\ plainSeg s /\ Forall (fun c => c <> backslash) s.

(** The walk of [normalizeString] over the segments [segs], started in the
    directory whose components are [start]. *)
Definition walkFrom (start segs : list str) : list str :=
  rev (fold_left (pushSegment false) segs (rev start)).

(** [relativeInsideVolume] of [resolveFsPathFromApiPath], for the
    normalized path [normalized]: what the resolver hands to
    [path.resolve(VOLUME_PATH, relativeInsideVolume)] when it gets there. *)
Definition relativeInsideVolume (cfg : Config) (normalized : str) : str :=
  let apiPrefix := sep ++ ROOT_NAME cfg in
  if str_eqb normalized apiPrefix then []
  else if startsWith (apiPrefix ++ sep) normalized then
    sliceFrom (List.length apiPrefix + 1) normalized
  else if isAbsolute normalized then dropLeadingSlash normalized
  else normalized.

(** The storage root of the scenario placed at the root of the filesystem. *)
Definition cfgSlash : Config := mkConfig (lit "/") (lit "Vault") (lit "/srv/app").

(** ** Vocabulary of the properties of the listings *)

(** By its path an item lies directly under [parent], and every item below
    a folder lies under the path of that folder. *)
Fixpoint PathsUnder (parent : str) (t : TreeItem) : Prop :=
  match t with
  | FileItem p n => p = parent ++ sep ++ n
  | FolderItem p n children =>
      p = parent ++ sep ++ n /\
      (fix all (l : list TreeItem) : Prop :=
         match l with
         | [] => True
         | x :: r => PathsUnder p x /\ all r
         end) children
  end.

(** A name that [readdir] gives: one segment, and neither [.] nor [..]. *)
Definition entryName (s : str) : Prop := goodSeg s /\ plainSeg s.

(** Every listing of the disk holds such names only. *)
Definition NamesOk {FS : Type} {fsops : FileSystem FS} (d : FS) : Prop :=
  forall dir entries,
    fs_readdir d dir = Normal entries ->
    Forall (fun e => entryName (name e)) entries.

(** The entries that the listings show. *)
Definition visible (entries : list Dirent) : list Dirent :=
  filter (fun entry => negb (isHidden (name entry))) entries.

(** ** Read routes *)

(** The characters with a meaning of their own in the source of a regular
    expression. *)
Definition isRegExpSyntax (c : ascii) : bool :=
  existsb (Ascii.eqb c) (lit "\^$.|?*+()[]{}").

(** A name that [new RegExp] reads as its own characters. *)
Definition literalName (s : str) : Prop :=
  Forall (fun c => isRegExpSyntax c = false) s.

Section ReadRoutes.

Context {FS : Type} {fsops : FileSystem FS}.

Variable cfg : Config.
Variable localeCompare : str -> str -> Z.

Notation "x <- m ;; k" := (bind m (fun x => k))
  (at level 61, m at next level, right associativity).

Definition readFile (p : str) : M FS str :=
  reading (CallReadFile p) (fun d => fs_readFile d p).

(** [s.replace(new RegExp(`^/${ROOT_NAME}/?`), '')], for a [ROOT_NAME]
    that is a [literalName]: the pattern is then the characters of
    [/ROOT_NAME] at the start of [s], with the slash after them when there
    is one.  (In another name the characters of the syntax keep their
    meaning, and [new RegExp] throws when the pattern is not one.) *)
Definition stripRootPrefix (s : str) : str :=
  let apiPrefix := sep ++ ROOT_NAME cfg in
  if startsWith apiPrefix s
  then dropLeadingSlash (sliceFrom (List.length apiPrefix) s)
  else s.

(** [preparedPath ? toApiPath(preparedPath.normalizedPath.replace(...)) :
    toApiPath('')] *)
Definition apiPathOf (preparedPath : option Prepared) : str :=
  match preparedPath with
  | Some p => toApiPath cfg (stripRootPrefix (normalizedPath p))
  | None => toApiPath cfg []
  end.

(** [buildFileTree] as a route runs it: the same loop and the same
    recursion, in the monad of the routes, so that every [fs.readdir] of
    the walk is entered in the record [calls].  [recur] is the recursive
    call for a directory; [None] is "out of fuel", never a result of the
    code. *)
Fixpoint walkEntries
  (recur : str -> str -> M FS (option (list TreeItem)))
  (currentDir relativeDir : str) (entries : list Dirent)
  : M FS (option (list TreeItem)) :=
  match entries with
  | [] => ret (Some [])
  | entry :: rest =>
      if isHidden (name entry) then walkEntries recur currentDir relativeDir rest
      else
        let absolutePath := pjoin [currentDir; name entry] in
        let relativePath :=
          if negb (isEmpty relativeDir)
          then pjoin [relativeDir; name entry] else name entry in
        let apiPath := toApiPath cfg relativePath in
        if direntIsDirectory entry then
          children <- recur absolutePath relativePath ;;
          match children with
          | None => ret None
          | Some children =>
              items <- walkEntries recur currentDir relativeDir rest ;;
              ret (option_map (cons (FolderItem apiPath (name entry) children))
                              items)
          end
        else
          items <- walkEntries recur currentDir relativeDir rest ;;
          ret (option_map (cons (FileItem apiPath (name entry))) items)
  end.

(** [await buildFileTree(currentDir, relativeDir)] inside a route. *)
Fixpoint walk (fuel : nat) (currentDir relativeDir : str)
  : M FS (option (list TreeItem)) :=
  match fuel with
  | O => ret None
  | S fuel' =>
      dirEntries <- readdir currentDir ;;
      let sortedEntries := sortBy (compareNames localeCompare) dirEntries in
      walkEntries (walk fuel') currentDir relativeDir sortedEntries
  end.

(** [app.get('/markdown')]; [None] when the fuel of the walk runs out. *)
Definition getMarkdown (fuel : nat) (req : Request) : M FS (option Response) :=
  tryCatch
    (let rawPath := firstOfQuery (queryPath req) in
     target <-
       (if truthy rawPath then
          resolved <- resolveM cfg rawPath ;;
          match resolved with
          | None => ret None
          | Some (mkResolved preparedPath targetPath) =>
              ret (Some (Some preparedPath, targetPath))
          end
        else ret (Some (None, volResolved cfg))) ;;
     match target with
     | None => ret (Some (json 400 (errorBody "Invalid path")))
     | Some (preparedPath, targetPath) =>
         stats <- tryCatch (st <- stat targetPath ;; ret (Some st))
                    (fun error => if hasCode error ENOENT
                                  then ret None else throw error) ;;
         match stats with
         | None =>
             ret (Some (notFound "The requested file or directory does not exist"))
         | Some stats =>
             if isDirectory stats then
               tree <- walk fuel targetPath [] ;;
               ret (option_map (fun items => mkResponse 200 (BTree items)) tree)
             else
               markdown <- readFile targetPath ;;
               ret (Some (json 200
                            [("path"%string, JString (apiPathOf preparedPath));
                             ("name"%string, JString (basename targetPath));
                             ("markdown"%string, JString markdown)]))
         end
     end)
    (fun error => ret (Some (failure "Failed to fetch markdown content" error))).

(** [app.get('/markdown/content')] *)
Definition getContent (req : Request) : M FS Response :=
  tryCatch
    (let rawPath := firstOfQuery (queryPath req) in
     if negb (truthy rawPath) then
       ret (json 400 (errorBody "Path parameter is required"))
     else
       resolved <- resolveM cfg rawPath ;;
       match resolved with
       | None => ret (json 400 (errorBody "Invalid path"))
       | Some (mkResolved preparedPath targetPath) =>
           stats <- tryCatch (st <- stat targetPath ;; ret (Some st))
                      (fun error => if hasCode error ENOENT
                                    then ret None else throw error) ;;
           match stats with
           | None =>
               ret (json 404
                      [("error"%string, JString (lit "File not found"));
                       ("details"%string,
                        JString (lit "The requested file does not exist"))])
           | Some stats =>
               if isDirectory stats then
                 ret (json 400 (errorBody "Path points to a directory, not a file"))
               else
                 content <- readFile targetPath ;;
                 ret (json 200
                        [("path"%string, JString (apiPathOf (Some preparedPath)));
                         ("name"%string, JString (basename targetPath));
                         ("content"%string, JString content);
                         ("size"%string, JNumber (size stats));
                         ("modifiedAt"%string, JString (mtime stats));
                         ("createdAt"%string, JString (ctime stats))])
           end
       end)
    (fun error => ret (failure "Failed to fetch markdown content" error)).

End ReadRoutes.

(** The request of a read route for a path. *)
Definition readReq (p : str) : Request :=
  mkRequest false JUndefined JUndefined (JString p) JUndefined.

(** The fields of a JSON answer. *)
Definition fieldsOf (r : Response) : list (string * JsVal) :=
  match body r with
  | BObject fields => fields
  | _ => []
  end.

(** What a route leaves of the world when it has only read. *)
Definition sameButCalls {FS : Type} (w w' : World FS) : Prop :=
  disk w' = disk w /\ clients w' = clients w /\ published w' = published w /\
  clock w' = clock w.

(** [req.query.recursive === 'true'] *)
Definition wantsRecursive (req : Request) : bool :=
  match queryRecursive req with
  | JString s => str_eqb s (lit "true")
  | _ => false
  end.

(** The world after filesystem calls that left the disk [d]. *)
Definition afterCalls {FS : Type} (w : World FS) (d : FS) (cs : list FsCall)
  : World FS :=
  mkWorld d (clients w) (clock w) (calls w ++ cs) (published w).

(** What [buildFileTree] gives, as the result of the walk of a route. *)
Definition walkResult (r : option (Completion (list TreeItem)))
  : Completion (option (list TreeItem)) :=
  match r with
  | None => Normal None
  | Some (Normal items) => Normal (Some items)
  | Some (Throws e) => Throws e
  end.

(** The [fs.readdir] calls below the directory [dir] of a walk that gave
    [item]: one for each folder, in the order of the tree. *)
Fixpoint readdirsOf (dir : str) (item : TreeItem) : list FsCall :=
  match item with
  | FileItem _ _ => []
  | FolderItem _ n children =>
      CallReaddir (pjoin [dir; n])
      :: (fix all (l : list TreeItem) : list FsCall :=
            match l with
            | [] => []
            | x :: r => readdirsOf (pjoin [dir; n]) x ++ all r
            end) children
  end.

Definition readdirsBelow (dir : str) (items : list TreeItem) : list FsCall :=
  flat_map (readdirsOf dir) items.

(** A disk that keeps what is written: after a [writeFile] that returns,
    [stat] finds a file there and [readFile] gives the text written. *)
Definition KeepsWrites (FS : Type) {fsops : FileSystem FS} : Prop :=
  forall (d d' : FS) (p content : str),
    fs_writeFile d p (JString content) = (Normal tt, d') ->
    fs_readFile d' p = Normal content /\
    exists st, fs_stat d' p = Normal st /\ isDirectory st = false.
Arguments KeepsWrites FS {fsops}.

(** Unfolds a read route down to the results of the filesystem calls. *)
Ltac unfold_reader :=
  unfold run, getContent, getMarkdown, readFile, tryCatch, bind, ret,
    throw, resolveM, stat, reading, logCall in *;
  simpl in *.

(** ** The first server

    The server before the path resolver: [POST /markdown] cleans the name
    with three patterns and joins it to [VOLUME_PATH]. *)

Module FirstServer.

Definition isSeparator (c : ascii) : bool :=
  Ascii.eqb c slash || Ascii.eqb c backslash.

(** The seven characters of the third pattern, "invalid filename
    characters": the angle brackets, the colon, the double quote, the bar,
    the question mark and the star. *)
Definition isInvalid (c : ascii) : bool :=
  existsb (Ascii.eqb c)
    ["<"%char; ">"%char; ":"%char; ascii_of_nat 34; "|"%char; "?"%char; "*"%char].

Definition mdSuffix : str := lit ".md".

(** [filePath.endsWith('.md') ? filePath : filePath + '.md'] *)
Definition withExtension (filePath : str) : str :=
  if endsWith mdSuffix filePath then filePath else filePath ++ mdSuffix.

(** [s.replace(/^[/\\]+/, '')] *)
Fixpoint dropLeadingSeparators (s : str) : str :=
  match s with
  | c :: t => if isSeparator c then dropLeadingSeparators t else s
  | [] => []
  end.

(** [s.replace(/\.\.[/\\]/g, '')]: the matches are taken from the left,
    and the search goes on behind each of them. *)
Fixpoint dropParentSteps (s : str) : str :=
  match s with
  | [] => []
  | a :: rest =>
      match rest with
      | b :: c :: t =>
          if Ascii.eqb a dot && Ascii.eqb b dot && isSeparator c
          then dropParentSteps t
          else a :: dropParentSteps rest
      | _ => a :: dropParentSteps rest
      end
  end.

(** The third [replace]: each of them becomes an underscore. *)
Definition replaceInvalid (s : str) : str :=
  map (fun c => if isInvalid c then "_"%char else c) s.

Definition sanitize (finalpath : str) : str :=
  replaceInvalid (dropParentSteps (dropLeadingSeparators finalpath)).

Definition noMarkdown : string :=
  ("No markdown content provided. Include " ++ quoted "markdown"
   ++ " field in JSON body")%string.

(** The [TypeError] of calling [endsWith] on a value that has none. *)
Definition notAFunction : JsError :=
  mkError None "filePath.endsWith is not a function".

Section Route.

Context {FS : Type} {fsops : FileSystem FS}.

Variable cfg : Config.

Notation "x <- m ;; k" := (bind m (fun x => k))
  (at level 61, m at next level, right associativity).
Notation "m ;;; k" := (bind m (fun _ => k))
  (at level 61, right associativity).

(** [app.post('/markdown')] of the first server. *)
Definition postMarkdown (req : Request) : M FS Response :=
  tryCatch
    (if negb (isJson req) then
       ret (json 400 (errorBody "Invalid content type. Expected application/json"))
     else
       let filePath := bodyPath req in
       let markdown := bodyMarkdown req in
       if negb (truthy markdown) then ret (json 400 (errorBody noMarkdown))
       else if negb (truthy filePath) then ret (json 400 (errorBody pathRequired))
       else
         finalpath <- match filePath with
                      | JString s => ret (withExtension s)
                      | _ => throw notAFunction
                      end ;;
         let sanitizedpath := sanitize finalpath in
         let filepath := pjoin [VOLUME_PATH cfg; sanitizedpath] in
         let dir := dirname filepath in
         mkdirRecursive dir ;;;
         writeFile filepath markdown ;;;
         ret (json 201
                [("message"%string,
                  JString (lit "Markdown file created successfully"));
                 ("filename"%string, JString sanitizedpath);
                 ("fullPath"%string, JString filepath)]))
    (fun error => ret (failure "Failed to save markdown file" error)).

End Route.

End FirstServer.

(** The first server with its volume at [/srv/data], and that directory
    on the in-memory disk. *)
Definition cfgFirst : Config := mkConfig (lit "/srv/data") [] (lit "/srv/app").

Definition worldFirst : World MemFs.t :=
  mkWorld [(lit "/srv", MemFs.EDir); (lit "/srv/data", MemFs.EDir)]
          [] (lit "2024-01-01T00:00:00.000Z") [] [].

(** ** The life of the sockets *)

(** What happens to the set [clients]: a connection, a message of a
    socket, its [close] or [error], a change of its [readyState] (made by
    the [ws] library), and a call of [broadcastChange]. *)
Inductive SocketEvent :=
| Connects (id : nat)
| Sends (id : nat) (parsed : option (JsVal * JsVal))
| Closes (id : nat)
| Becomes (id : nat) (state : ReadyState)
| Publishes (message : ChangeMessage).

Definition setReadyState (id : nat) (state : ReadyState) (clients : list Client)
  : list Client :=
  map (fun c => if Nat.eqb (clientId c) id
                then mkClient (clientId c) state (collection c) (inbox c)
                else c) clients.

Definition socketStep (clients : list Client) (ev : SocketEvent) : list Client :=
  match ev with
  | Connects id => onConnection id clients
  | Sends id parsed => onMessage id parsed clients
  | Closes id => onClose id clients
  | Becomes id state => setReadyState id state clients
  | Publishes message => forEachSend message clients
  end.

Definition socketRun (clients : list Client) (trace : list SocketEvent)
  : list Client :=
  fold_left socketStep trace clients.

(** The sockets of the set with the identity [id]. *)
Definition socketsOf (id : nat) (clients : list Client) : list Client :=
  filter (fun c => Nat.eqb (clientId c) id) clients.

(** The messages published along [trace] while the socket [id] is open;
    [isOpenNow] tells whether it is open at the start. *)
Fixpoint heardBy (id : nat) (isOpenNow : bool) (trace : list SocketEvent)
  : list ChangeMessage :=
  match trace with
  | [] => []
  | Publishes m :: rest =>
      if isOpenNow then m :: heardBy id isOpenNow rest
      else heardBy id isOpenNow rest
  | Becomes id' state :: rest =>
      heardBy id (if Nat.eqb id' id then isOpen state else isOpenNow) rest
  | _ :: rest => heardBy id isOpenNow rest
  end.

(** Along [trace] the socket [id] neither connects nor closes. *)
Definition staysConnected (id : nat) (trace : list SocketEvent) : Prop :=
  Forall (fun ev => match ev with
                    | Connects id' | Closes id' => id' <> id
                    | _ => True
                    end) trace.

(** ** The client of the change notifier

    [WebSocketService] of the web application, as far as it reconnects:
    the counter of the attempts and the timers it has set, by their delays
    in milliseconds. *)

Module WebSocketService.

Record Service := mkService {
  reconnectAttempts : nat;
  timers : list nat
}.

Definition maxReconnectAttempts : nat := 5.
Definition reconnectDelay : nat := 1000.

(** [ws.onopen] *)
Definition onopen (s : Service) : Service := mkService 0 (timers s).

(** [handleReconnect()], which is all that [ws.onclose] runs. *)
Definition handleReconnect (s : Service) : Service :=
  if reconnectAttempts s <? maxReconnectAttempts then
    let attempts := reconnectAttempts s + 1 in
    mkService attempts (timers s ++ [reconnectDelay * attempts])
  else s.

Definition onclose (s : Service) : Service := handleReconnect s.

(** [n] closes in a row. *)
Definition closes (n : nat) (s : Service) : Service := Nat.iter n onclose s.

End WebSocketService.

(** A change of the file [p], as the server of the scenario publishes it. *)
Definition changeOf (p : string) : ChangeMessage :=
  mkMessage "file_change" (lit "Vault") updated (lit p) [].

(** Settles that concrete names are clean segments. *)
Ltac clean_names :=
  cbn [lit list_ascii_of_string];
  repeat match goal with
         | |- Forall _ [] => apply Forall_nil
         | |- Forall _ (_ :: _) => apply Forall_cons
         | |- cleanSeg _ => split; [|split]
         | |- goodSeg _ => split
         | |- plainSeg _ => split; [|split]
         | |- noSlash _ => let H := fresh in intros H; cbn in H; intuition discriminate
         | |- _ <> _ => discriminate
         end.
(** * Properties *)

Unset Implicit Arguments.

(** ** Equality of strings *)

Lemma str_eqb_eq a b : str_eqb a b = true <-> a = b.
Proof. unfold str_eqb; destruct (list_eq_dec ascii_dec a b); intuition congruence. Qed.

Lemma str_eqb_refl a : str_eqb a a = true.
Proof. now apply str_eqb_eq. Qed.

Lemma str_eqb_neq a b : str_eqb a b = false <-> a <> b.
Proof. unfold str_eqb; destruct (list_eq_dec ascii_dec a b); intuition congruence. Qed.

(** ** The embedding on concrete inputs *)

Example normalize_ex1 : normalize (lit "/a/./b/../c//d/") = lit "/a/c/d/".
Proof. reflexivity. Qed.
Example normalize_ex2 : normalize (lit "../a/../../b") = lit "../../b".
Proof. reflexivity. Qed.
Example join_ex1 : pjoin [lit "/"; lit "Haptic"; lit "a"; lit ".."; lit "b"] = lit "/Haptic/b".
Proof. reflexivity. Qed.
Example join_ex2 : pjoin [lit "a"; lit ".."] = lit ".".
Proof. reflexivity. Qed.
Example resolve_ex1 : resolve (lit "/srv/app") [lit "./Haptic"; lit "../../etc/passwd"] = lit "/srv/etc/passwd".
Proof. reflexivity. Qed.
Example resolve_ex2 : resolve (lit "/srv/app") [lit "./Haptic"; lit ""] = lit "/srv/app/Haptic".
Proof. reflexivity. Qed.
Example dirname_ex1 : dirname (lit "/srv/app/Haptic/a.md") = lit "/srv/app/Haptic".
Proof. reflexivity. Qed.
Example dirname_ex2 : dirname (lit "/a") = lit "/".
Proof. reflexivity. Qed.
Example dirname_ex3 : dirname (lit "a//b") = lit "a/".
Proof. reflexivity. Qed.
Example dirname_ex4 : dirname (lit "//a") = lit "//".
Proof. reflexivity. Qed.
Example basename_ex : basename (lit "/srv/app/a.md") = lit "a.md".
Proof. reflexivity. Qed.
Example split_ex : split slash (lit "/a//b/") = [lit ""; lit "a"; lit ""; lit "b"; lit ""].
Proof. reflexivity. Qed.
Example trim_ex : trim (lit "  /a b/ ") = lit "/a b/".
Proof. reflexivity. Qed.
Example collapse_ex : collapseSlashes (lit "//a///b/") = lit "/a/b/".
Proof. reflexivity. Qed.

Example resolve_api : showResolved (resolveFsPathFromApiPath cfgVault (JString (lit "/Vault/notes/a.md")))
  = Normal (Some (lit "/Vault/notes/a.md", lit "/vault/notes/a.md")).
Proof. reflexivity. Qed.
Example resolve_root : showResolved (resolveFsPathFromApiPath cfg0 (JString (lit "/Haptic/")))
  = Normal (Some (lit "/Haptic", lit "/srv/app/Haptic")).
Proof. reflexivity. Qed.
Example resolve_dotdot : showResolved (resolveFsPathFromApiPath cfg0 (JString (lit "/Haptic/a/../b")))
  = Normal (Some (lit "/Haptic/b", lit "/srv/app/Haptic/b")).
Proof. reflexivity. Qed.
Example resolve_escape : resolveFsPathFromApiPath cfg0 (JString (lit "../../etc/passwd"))
  = Throws escapesVolume.
Proof. reflexivity. Qed.
Example resolve_abs_escape : showResolved (resolveFsPathFromApiPath cfg0 (JString (lit "/../../etc/passwd")))
  = Normal (Some (lit "/etc/passwd", lit "/srv/app/Haptic/etc/passwd")).
Proof. reflexivity. Qed.
Example resolve_sibling : showResolved (resolveFsPathFromApiPath cfgVault (JString (lit "/vault-evil/x")))
  = Normal (Some (lit "/vault-evil/x", lit "/vault/vault-evil/x")).
Proof. reflexivity. Qed.
Example resolve_inside : showResolved (resolveFsPathFromApiPath cfgVault (JString (lit "/vault/x")))
  = Normal (Some (lit "/vault/x", lit "/vault/x")).
Proof. reflexivity. Qed.
Example resolve_blank : resolveFsPathFromApiPath cfg0 (JString (lit "   ")) = Normal None.
Proof. reflexivity. Qed.
Example resolve_ws : showResolved (resolveFsPathFromApiPath cfg0 (JString (lit "/a/b /")))
  = Normal (Some (lit "/a/b ", lit "/srv/app/Haptic/a/b ")).
Proof. reflexivity. Qed.
Example resolve_ws2 : showResolved (resolveFsPathFromApiPath cfg0 (JString (lit "/a/b ")))
  = Normal (Some (lit "/a/b", lit "/srv/app/Haptic/a/b")).
Proof. reflexivity. Qed.
Example resolve_drive : showResolved (resolveFsPathFromApiPath cfg0 (JString (lit "/a/../C:/x")))
  = Normal (Some (lit "/C:/x", lit "/srv/app/Haptic/C:/x")).
Proof. reflexivity. Qed.
Example resolve_drive2 : showResolved (resolveFsPathFromApiPath cfg0 (JString (lit "/C:/x")))
  = Normal (Some (lit "C:/x", lit "/srv/app/Haptic/C:/x")).
Proof. reflexivity. Qed.

Example scenario_create :
  let '(r, w) := run (postMarkdown cfgVault (writeReq "/Vault/notes/a.md" "hello")) worldVault in
  status r = 201 /\
  disk w = [(lit "/vault", MemFs.EDir); (lit "/vault/notes", MemFs.EDir);
            (lit "/vault/notes/a.md", MemFs.EFile (lit "hello"))] /\
  published w = [mkMessage "file_change" (lit "Vault") created (lit "/Vault/notes/a.md")
                           (lit "2024-01-01T00:00:00.000Z")].
Proof. vm_compute. auto. Qed.

Example scenario_update :
  let '(_, w1) := run (postMarkdown cfgVault (writeReq "/Vault/notes/a.md" "hello")) worldVault in
  let '(r, w) := run (postMarkdown cfgVault (writeReq "/Vault/notes/a.md" "world")) w1 in
  status r = 200 /\
  MemFs.readFile (disk w) (lit "/vault/notes/a.md") = Normal (lit "world") /\
  map msgChangeType (published w) = [created; updated].
Proof. vm_compute. auto. Qed.

Example scenario_names :
  let '(_, w1) := run (postMarkdown cfgVault (writeReq "/Vault/notes/a.md" "hello")) worldVault in
  fst (run (getNames cfgVault Collation.compareFolded
              (mkRequest false JUndefined JUndefined (JString (lit "/Vault/notes")) JUndefined)) w1)
  = mkResponse 200 (BNames [lit "a.md"]).
Proof. vm_compute. auto. Qed.

Example scenario_tree :
  let '(_, w1) := run (postMarkdown cfgVault (writeReq "/Vault/notes/a.md" "hello")) worldVault in
  buildFileTree cfgVault Collation.compareFolded 5 (disk w1) (lit "/vault") []
  = Some (Normal [FolderItem (lit "/Vault/notes") (lit "notes")
                    [FileItem (lit "/Vault/notes/a.md") (lit "a.md")]]).
Proof. vm_compute. auto. Qed.

Example scenario_delete_nonempty :
  let '(_, w1) := run (postMarkdown cfgVault (writeReq "/Vault/notes/a.md" "hello")) worldVault in
  let '(r, w) := run (deleteMarkdown cfgVault (deleteReq "/Vault/notes" "false")) w1 in
  status r = 400 /\ disk w = disk w1 /\ publishedBy w1 w = [].
Proof. vm_compute. auto. Qed.

Example scenario_delete_recursive :
  let '(_, w1) := run (postMarkdown cfgVault (writeReq "/Vault/notes/a.md" "hello")) worldVault in
  let '(r, w) := run (deleteMarkdown cfgVault (deleteReq "/Vault/notes" "true")) w1 in
  status r = 200 /\ disk w = [(lit "/vault", MemFs.EDir)] /\
  map msgChangeType (publishedBy w1 w) = [deleted].
Proof. vm_compute. auto. Qed.

(** ** Running a handler *)

Lemma prepareString_nil : prepareString [] = None.
Proof. reflexivity. Qed.

Lemma resolved_is_truthy cfg rawPath rs :
  resolveFsPathFromApiPath cfg rawPath = Normal (Some rs) -> truthy rawPath = true.
Proof.
  unfold resolveFsPathFromApiPath, prepareOperationPath.
  destruct rawPath as [| | | |s| |]; try discriminate.
  destruct s; [discriminate | reflexivity].
Qed.


Section HandlerFacts.

Context {FS : Type} {fsops : FileSystem FS}.
Variable cfg : Config.

(** The [try]/[catch] of a route turns every error into a response. *)
Lemma routes_always_respond (localeCompare : str -> str -> Z)
  (req : Request) (w : World FS) :
  (exists r w', postMarkdown cfg req w = (Normal r, w')) /\
  (exists r w', putMarkdown cfg req w = (Normal r, w')) /\
  (exists r w', postFolder cfg req w = (Normal r, w')) /\
  (exists r w', deleteMarkdown cfg req w = (Normal r, w')) /\
  (exists r w', getNames cfg localeCompare req w = (Normal r, w')).
Proof.
  repeat split; unfold_handler; split_handler; eauto.
Qed.

Lemma post_publishes (req : Request) (w : World FS) :
  publishesOnSuccess cfg w (bodyPath req)
    (fun rs => if existsOnDisk w (fsPath rs) then updated else created)
    (run (postMarkdown cfg req) w).
Proof.
  unfold publishesOnSuccess, changeEvent, existsOnDisk.
  unfold_handler. split_handler; auto;
    eexists; (split; [reflexivity|]); simpl;
    repeat match goal with H : fs_stat _ _ = _ |- _ => rewrite H end;
    repeat split; reflexivity.
Qed.

Lemma put_publishes (req : Request) (w : World FS) :
  publishesOnSuccess cfg w (bodyPath req) (fun _ => updated)
    (run (putMarkdown cfg req) w).
Proof.
  unfold publishesOnSuccess, changeEvent.
  unfold_handler. split_handler; auto;
    eexists; (split; [reflexivity|]); simpl; repeat split; reflexivity.
Qed.

Lemma folder_publishes (req : Request) (w : World FS) :
  publishesOnSuccess cfg w (bodyPath req) (fun _ => created)
    (run (postFolder cfg req) w).
Proof.
  unfold publishesOnSuccess, changeEvent.
  unfold_handler. split_handler; auto;
    eexists; (split; [reflexivity|]); simpl; repeat split; reflexivity.
Qed.

Lemma delete_publishes (req : Request) (w : World FS) :
  publishesOnSuccess cfg w (firstOfQuery (queryPath req)) (fun _ => deleted)
    (run (deleteMarkdown cfg req) w).
Proof.
  unfold publishesOnSuccess, changeEvent.
  unfold_handler. split_handler; auto;
    eexists; (split; [reflexivity|]); simpl; repeat split; reflexivity.
Qed.

(** The status of a write tells a create from an update. *)
Lemma post_status (req : Request) (w : World FS) rs :
  succeeded (fst (run (postMarkdown cfg req) w)) = true ->
  resolveFsPathFromApiPath cfg (bodyPath req) = Normal (Some rs) ->
  status (fst (run (postMarkdown cfg req) w))
  = if existsOnDisk w (fsPath rs) then 200 else 201.
Proof.
  unfold existsOnDisk. intros Hs Hr. revert Hs.
  unfold_handler. rewrite Hr. destruct rs as [p f]. simpl.
  split_handler; auto; discriminate.
Qed.

End HandlerFacts.

(** C2.  Each mutating route (write by POST, update by PUT, folder
    creation, deletion) publishes exactly one change event when it
    answers in the 2xx range, and none when it fails at any stage.  The
    event is [created] for a write to a path that [fs.stat] did not find
    and for a new folder, [updated] for a write over an existing path and
    for PUT, [deleted] for a deletion; it carries [ROOT_NAME] and the
    normalized path, and is sent once to the clients. *)
Theorem mutation_publishes_one_event
  (FS : Type) (fsops : FileSystem FS) (cfg : Config) (req : Request) (w : World FS) :
  publishesOnSuccess cfg w (bodyPath req)
    (fun rs => if existsOnDisk w (fsPath rs) then updated else created)
    (run (postMarkdown cfg req) w) /\
  publishesOnSuccess cfg w (bodyPath req) (fun _ => updated)
    (run (putMarkdown cfg req) w) /\
  publishesOnSuccess cfg w (bodyPath req) (fun _ => created)
    (run (postFolder cfg req) w) /\
  publishesOnSuccess cfg w (firstOfQuery (queryPath req)) (fun _ => deleted)
    (run (deleteMarkdown cfg req) w).
Proof.
  repeat split.
  - apply post_publishes.
  - apply put_publishes.
  - apply folder_publishes.
  - apply delete_publishes.
Qed.

(** ** Folder creation, deletion of the root, hidden entries *)

Section SortFacts.
Variable A : Type.
Variable cmp : A -> A -> Z.

Lemma insertBy_Forall (P : A -> Prop) x l :
  P x -> Forall P l -> Forall P (insertBy cmp x l).
Proof.
  intros Hx Hl. induction Hl as [|y t Hy Ht IH]; simpl.
  - auto.
  - destruct (cmp x y <=? 0)%Z; auto.
Qed.

Lemma sortBy_Forall (P : A -> Prop) l : Forall P l -> Forall P (sortBy cmp l).
Proof.
  induction 1 as [|x t Hx Ht IH]; simpl; [constructor|].
  now apply insertBy_Forall.
Qed.

Lemma insertBy_In x y l : In y (insertBy cmp x l) <-> y = x \/ In y l.
Proof.
  induction l as [|z t IH]; simpl.
  - intuition.
  - destruct (cmp x z <=? 0)%Z; simpl; [|rewrite IH]; intuition.
Qed.

Lemma sortBy_In y l : In y (sortBy cmp l) <-> In y l.
Proof.
  induction l as [|x t IH]; simpl; [tauto|].
  rewrite insertBy_In, IH. intuition.
Qed.
End SortFacts.

Lemma filter_none {A} (f : A -> bool) l :
  Forall (fun x => f x = false) l -> filter f l = [].
Proof.
  induction 1 as [|x t Hx Ht IH]; simpl; [reflexivity|]. now rewrite Hx.
Qed.

Section StoreFacts.

Context {FS : Type} {fsops : FileSystem FS}.
Variable cfg : Config.
Variable localeCompare : str -> str -> Z.

(** A directory whose entries are all hidden lists as empty. *)
Lemma names_of_hidden (w : World FS) req rs st entries :
  resolveFsPathFromApiPath cfg (firstOfQuery (queryPath req)) = Normal (Some rs) ->
  fs_stat (disk w) (fsPath rs) = Normal st ->
  isDirectory st = true ->
  fs_readdir (disk w) (fsPath rs) = Normal entries ->
  Forall (fun e => isHidden (name e) = true) entries ->
  fst (run (getNames cfg localeCompare req) w) = mkResponse 200 (BNames []).
Proof.
  intros Hr Hs Hd Hrd Hh.
  pose proof (resolved_is_truthy _ _ _ Hr) as Ht.
  unfold_handler. rewrite Ht, Hr. simpl. rewrite Hs. simpl. rewrite Hd. simpl.
  rewrite Hrd. simpl.
  rewrite filter_none; [reflexivity|].
  eapply Forall_impl; [|exact Hh]. simpl. intros e He. now rewrite He.
Qed.

Lemma tree_of_hidden (d : FS) dir rel entries fuel :
  fs_readdir d dir = Normal entries ->
  Forall (fun e => isHidden (name e) = true) entries ->
  buildFileTree cfg localeCompare (S fuel) d dir rel = Some (Normal []).
Proof.
  intros Hrd Hh. simpl. rewrite Hrd.
  apply (sortBy_Forall _ (compareNames localeCompare)) in Hh.
  induction Hh as [|e t He Ht IH]; [reflexivity|].
  simpl. now rewrite He.
Qed.

End StoreFacts.

(** C7.  A folder creation at a path that [fs.stat] finds answers 409 and
    does nothing but that one [stat]: the disk, the clients and the
    published events are as before.  The answer names the case: an
    existing directory or an existing file.  When [stat] reports ENOENT,
    and only then, the route calls [mkdir] with [recursive: true] on the
    resolved path, and answers 201 when that call returns. *)
Theorem folder_conflict_leaves_disk
  (FS : Type) (fsops : FileSystem FS) (cfg : Config) (req : Request)
  (w : World FS) (rs : Resolved) :
  isJson req = true ->
  resolveFsPathFromApiPath cfg (bodyPath req) = Normal (Some rs) ->
  let out := run (postFolder cfg req) w in
  match fs_stat (disk w) (fsPath rs) with
  | Normal st =>
      out = (json 409
               [("error"%string,
                 JString (lit (if isDirectory st then "Directory already exists"
                               else "A file with the same name already exists")));
                ("path"%string, JString (normalizedPath (prepared rs)))],
             logCall (CallStat (fsPath rs)) w)
  | Throws e =>
      if hasCode e ENOENT then
        calls (snd out) = calls w ++ [CallStat (fsPath rs); CallMkdir (fsPath rs)] /\
        disk (snd out) = snd (fs_mkdir_recursive (disk w) (fsPath rs)) /\
        status (fst out) = match fst (fs_mkdir_recursive (disk w) (fsPath rs)) with
                           | Normal _ => 201
                           | Throws _ => 500
                           end
      else
        out = (failure "Failed to create directory" e, logCall (CallStat (fsPath rs)) w)
  end.
Proof.
  intros Hj Hr out. subst out.
  pose proof (resolved_is_truthy _ _ _ Hr) as Ht.
  destruct rs as [p f]. unfold_handler. rewrite Hj, Ht, Hr. simpl.
  destruct (fs_stat (disk w) f) as [st|e]; simpl.
  - destruct (isDirectory st); reflexivity.
  - destruct (hasCode e ENOENT); simpl; [|reflexivity].
    destruct (fs_mkdir_recursive (disk w) f) as [[u|e'] d']; simpl;
      rewrite <- app_assoc; auto.
Qed.

(** C8.  A deletion whose path resolves to the storage root fails,
    whatever the [recursive] parameter is, and does nothing but one
    [stat]: nothing is removed and nothing is published.  With the root
    on the disk ([stat] returns) the answer is 403, "Cannot delete root
    directory". *)
Theorem delete_root_forbidden
  (FS : Type) (fsops : FileSystem FS) (cfg : Config) (req : Request)
  (w : World FS) (rs : Resolved) :
  resolveFsPathFromApiPath cfg (firstOfQuery (queryPath req)) = Normal (Some rs) ->
  fsPath rs = volResolved cfg ->
  let out := run (deleteMarkdown cfg req) w in
  succeeded (fst out) = false /\
  snd out = logCall (CallStat (volResolved cfg)) w /\
  (forall st,
      fs_stat (disk w) (volResolved cfg) = Normal st ->
      fst out
      = json 403
          [("error"%string, JString (lit "Cannot delete root directory"));
           ("details"%string,
            JString (lit "Deletion of the root volume directory is not allowed"))]).
Proof.
  intros Hr Hroot.
  pose proof (resolved_is_truthy _ _ _ Hr) as Ht.
  destruct rs as [p f]. simpl in Hroot. subst f.
  unfold_handler. rewrite Ht, Hr. simpl.
  destruct (fs_stat (disk w) (volResolved cfg)) as [st|e]; simpl.
  - rewrite str_eqb_refl. auto.
  - destruct (hasCode e ENOENT); repeat split; auto; discriminate.
Qed.

(** C10.  The emptiness test of a deletion without [recursive] counts
    hidden entries.  For a directory, other than the root, that holds
    entries and only hidden ones: the names route lists nothing and the
    tree builder gives the empty tree, yet the deletion answers 400
    "Directory not empty" and removes nothing. *)
Theorem delete_counts_hidden_entries
  (FS : Type) (fsops : FileSystem FS) (cfg : Config)
  (localeCompare : str -> str -> Z) (req : Request) (w : World FS)
  (rs : Resolved) (st : Stats) (entries : list Dirent) :
  resolveFsPathFromApiPath cfg (firstOfQuery (queryPath req)) = Normal (Some rs) ->
  fsPath rs <> volResolved cfg ->
  fs_stat (disk w) (fsPath rs) = Normal st ->
  isDirectory st = true ->
  fs_readdir (disk w) (fsPath rs) = Normal entries ->
  entries <> [] ->
  Forall (fun e => isHidden (name e) = true) entries ->
  queryRecursive req <> JString (lit "true") ->
  run (deleteMarkdown cfg req) w
  = (json 400
       [("error"%string, JString (lit "Directory not empty"));
        ("details"%string,
         JString (lit "Use recursive=true to delete non-empty directories"))],
     logCall (CallReaddir (fsPath rs)) (logCall (CallStat (fsPath rs)) w)) /\
  fst (run (getNames cfg localeCompare req) w) = mkResponse 200 (BNames []) /\
  (forall fuel rel,
      buildFileTree cfg localeCompare (S fuel) (disk w) (fsPath rs) rel
      = Some (Normal [])).
Proof.
  intros Hr Hroot Hs Hd Hrd Hne Hh Hrec. split; [|split].
  - pose proof (resolved_is_truthy _ _ _ Hr) as Ht.
    destruct rs as [p f]. simpl in *.
    apply str_eqb_neq in Hroot.
    assert (Hflag : match queryRecursive req with
                    | JString s => str_eqb s (lit "true")
                    | _ => false
                    end = false).
    { destruct (queryRecursive req); try reflexivity.
      apply str_eqb_neq. intro; subst. now apply Hrec. }
    unfold_handler. rewrite Ht, Hr. simpl. rewrite Hs. simpl.
    rewrite Hroot, Hd, Hflag. simpl. rewrite Hrd. simpl.
    destruct entries; [congruence|]. simpl. now rewrite <- app_assoc.
  - eapply names_of_hidden; eauto.
  - intros fuel rel. eapply tree_of_hidden; eauto.
Qed.

(** ** Change notifier *)

Lemma forEachSend_delivers (m : ChangeMessage) (cs : list Client) :
  Forall2 (deliveredTo m) cs (forEachSend m cs).
Proof.
  induction cs as [|c t IH]; simpl; constructor; auto.
  unfold deliveredTo. destruct (isOpen (readyState c)); simpl; auto.
Qed.

(** A subscribe message changes [ws.collection] and nothing that the
    fan-out looks at. *)
Lemma onMessage_keeps_delivery (m : ChangeMessage) id parsed (cs : list Client) :
  map inbox (forEachSend m (onMessage id parsed cs)) = map inbox (forEachSend m cs) /\
  map readyState (onMessage id parsed cs) = map readyState cs /\
  map clientId (onMessage id parsed cs) = map clientId cs.
Proof.
  unfold onMessage.
  destruct parsed as [[ty coll]|]; [|auto].
  destruct ty; auto.
  destruct (str_eqb s (lit "subscribe") && truthy coll); [|auto].
  unfold forEachSend.
  induction cs as [|c t (IH1 & IH2 & IH3)]; [auto|].
  cbn [map]. rewrite IH1, IH2, IH3.
  destruct (Nat.eqb (clientId c) id); cbn [readyState clientId inbox]; [|auto].
  destruct (isOpen (readyState c)); auto.
Qed.

(** C3, as the code has it.  [broadcastChange] hands the message to every
    client of the set whose socket is open, once, whatever collection the
    client subscribed to: a subscribe message before the broadcast, from
    any client and for any collection, changes no delivery.  A client
    whose socket is not open is passed over and the clients after it are
    still served.  Nothing else of a client changes. *)
Theorem broadcast_reaches_open_clients
  (FS : Type) (w : World FS) (coll : str) (kind : ChangeType) (path : str) :
  let m := mkMessage "file_change" coll kind path (clock w) in
  let w' := snd (broadcastChange coll kind path w) in
  Forall2 (deliveredTo m) (clients w) (clients w') /\
  (forall id parsed,
      map inbox (forEachSend m (onMessage id parsed (clients w)))
      = map inbox (clients w')) /\
  published w' = published w ++ [m] /\
  disk w' = disk w.
Proof.
  cbv zeta. cbn [broadcastChange snd clients published disk].
  split; [apply forEachSend_delivers|].
  split; [|split; reflexivity].
  intros id parsed. apply onMessage_keeps_delivery.
Qed.

(** ** A thrown resolution in the routes *)

Section ThrownResolution.

Context {FS : Type} {fsops : FileSystem FS}.
Variable cfg : Config.
Variable localeCompare : str -> str -> Z.


End ThrownResolution.

(** ** Splitting and joining *)

Lemma ascii_eqb_slash c : Ascii.eqb c slash = false <-> c <> slash.
Proof. apply Ascii.eqb_neq. Qed.

Lemma noSlash_cons c s : noSlash (c :: s) <-> c <> slash /\ noSlash s.
Proof. unfold noSlash; simpl; intuition congruence. Qed.

Lemma noSlash_nil : noSlash [].
Proof. intros []. Qed.

Lemma split_not_nil c s : split c s <> [].
Proof.
  destruct s as [|x t]; simpl; [discriminate|].
  destruct (Ascii.eqb x c); [discriminate|].
  destruct (split c t); discriminate.
Qed.

Lemma split_app c a b : split c (a ++ c :: b) = split c a ++ split c b.
Proof.
  induction a as [|x a IH]; simpl.
  - now rewrite Ascii.eqb_refl.
  - destruct (Ascii.eqb x c); [now rewrite IH|].
    rewrite IH. pose proof (split_not_nil c a) as Hn.
    destruct (split c a); [contradiction|reflexivity].
Qed.

Lemma split_app_sep a b : split slash (a ++ sep ++ b) = split slash a ++ split slash b.
Proof. apply split_app. Qed.

Lemma split_noSlash s : noSlash s -> split slash s = [s].
Proof.
  induction s as [|x t IH]; intros H; simpl; [reflexivity|].
  apply noSlash_cons in H as [Hx Ht].
  apply ascii_eqb_slash in Hx. rewrite Hx, (IH Ht). reflexivity.
Qed.

Lemma split_pieces_noSlash s : Forall noSlash (split slash s).
Proof.
  induction s as [|x t IH]; simpl.
  - repeat constructor. apply noSlash_nil.
  - destruct (Ascii.eqb x slash) eqn:E.
    + constructor; [apply noSlash_nil | exact IH].
    + destruct (split slash t) as [|w ws]; [repeat constructor|].
      * apply noSlash_cons. split; [now apply ascii_eqb_slash | apply noSlash_nil].
      * inversion IH; subst. constructor; [|assumption].
        apply noSlash_cons. split; [now apply ascii_eqb_slash | assumption].
Qed.

(** The characters of the pieces are characters of the string. *)
Lemma split_pieces_chars (P : ascii -> Prop) c s :
  Forall P s -> Forall (Forall P) (split c s).
Proof.
  induction 1 as [|x t Hx Ht IH]; simpl; [repeat constructor|].
  destruct (Ascii.eqb x c); [constructor; [constructor | exact IH]|].
  destruct (split c t) as [|w ws]; [repeat constructor; assumption|].
  inversion IH; subst. constructor; [constructor|]; assumption.
Qed.

Lemma join_cons w ws : ws <> [] -> join sep (w :: ws) = w ++ sep ++ join sep ws.
Proof. destruct ws; [contradiction | reflexivity]. Qed.

Lemma split_join l :
  Forall noSlash l -> l <> [] -> split slash (join sep l) = l.
Proof.
  induction 1 as [|w ws Hw Hws IH]; intros Hne; [contradiction|].
  destruct ws as [|w' ws'].
  - simpl. now apply split_noSlash.
  - rewrite join_cons by discriminate.
    rewrite split_app_sep, (split_noSlash _ Hw), IH by discriminate.
    reflexivity.
Qed.

Lemma segmentsOf_app a b : segmentsOf (a ++ slash :: b) = segmentsOf a ++ segmentsOf b.
Proof. unfold segmentsOf. now rewrite split_app, filter_app. Qed.

Lemma segmentsOf_nil : segmentsOf [] = [].
Proof. reflexivity. Qed.

Lemma filter_all {A} (f : A -> bool) l :
  Forall (fun x => f x = true) l -> filter f l = l.
Proof.
  induction 1 as [|x t Hx Ht IH]; simpl; [reflexivity|]. now rewrite Hx, IH.
Qed.

Lemma goodSeg_nonempty l :
  Forall goodSeg l -> Forall (fun w => negb (isEmpty w) = true) l.
Proof.
  apply Forall_impl. intros [|c s] [Hne _]; [contradiction | reflexivity].
Qed.

Lemma goodSeg_noSlash l : Forall goodSeg l -> Forall noSlash l.
Proof. apply Forall_impl. now intros s [_ H]. Qed.

Lemma segmentsOf_join l : Forall goodSeg l -> segmentsOf (join sep l) = l.
Proof.
  intros H. destruct l as [|w ws]; [reflexivity|].
  unfold segmentsOf. rewrite split_join; [|now apply goodSeg_noSlash|discriminate].
  apply filter_all. now apply goodSeg_nonempty.
Qed.

Lemma segmentsOf_root_join l :
  Forall goodSeg l -> segmentsOf (sep ++ join sep l) = l.
Proof.
  intros H. change (sep ++ join sep l) with ([] ++ slash :: join sep l).
  rewrite segmentsOf_app. simpl. now apply segmentsOf_join.
Qed.

Lemma segmentsOf_good s : Forall goodSeg (segmentsOf s).
Proof.
  unfold segmentsOf. pose proof (split_pieces_noSlash s) as H.
  induction H as [|w ws Hw Hws IH]; simpl; [constructor|].
  destruct w; simpl; [assumption|].
  constructor; [split; [discriminate | assumption] | assumption].
Qed.

Lemma segmentsOf_chars (P : ascii -> Prop) s :
  Forall P s -> Forall (Forall P) (segmentsOf s).
Proof.
  intros H. unfold segmentsOf.
  apply (split_pieces_chars P slash) in H.
  induction H as [|w ws Hw Hws IH]; simpl; [constructor|].
  destruct (negb (isEmpty w)); [constructor|]; assumption.
Qed.

Lemma join_nonempty l : Forall goodSeg l -> l <> [] -> join sep l <> [].
Proof.
  intros H Hne. destruct H as [|w ws [Hw _] _]; [contradiction|].
  destruct ws; simpl; [assumption|]. destruct w; [contradiction | discriminate].
Qed.

Lemma join_chars (P : ascii -> Prop) l :
  P slash -> Forall (Forall P) l -> Forall P (join sep l).
Proof.
  intros Hs H. induction H as [|w ws Hw Hws IH]; [constructor|].
  destruct ws; [assumption|].
  rewrite join_cons by discriminate.
  apply Forall_app. split; [assumption|]. apply Forall_app. split; [|exact IH].
  repeat constructor. exact Hs.
Qed.

(** The first character of a joined list of segments is not a separator,
    and neither is the last one. *)
Lemma join_isAbsolute l : Forall goodSeg l -> isAbsolute (join sep l) = false.
Proof.
  intros H. destruct H as [|w ws [Hne Hw] _]; [reflexivity|].
  destruct w as [|c w]; [contradiction|].
  apply noSlash_cons in Hw as [Hc _]. apply ascii_eqb_slash in Hc.
  destruct ws; simpl; assumption.
Qed.

Lemma trailingSeparator_app a b :
  b <> [] -> trailingSeparator (a ++ b) = trailingSeparator b.
Proof.
  intros Hb. unfold trailingSeparator. rewrite rev_app_distr.
  destruct (rev b) eqn:E; [|reflexivity].
  apply (f_equal (@rev ascii)) in E. rewrite rev_involutive in E. contradiction.
Qed.

Lemma trailingSeparator_seg w : goodSeg w -> trailingSeparator w = false.
Proof.
  intros [Hne Hw]. unfold trailingSeparator.
  destruct (rev w) as [|c r] eqn:E.
  - reflexivity.
  - apply ascii_eqb_slash. intro; subst c. apply Hw.
    apply in_rev. rewrite E. now left.
Qed.

Lemma join_trailing l : Forall goodSeg l -> trailingSeparator (join sep l) = false.
Proof.
  induction 1 as [|w ws Hw Hws IH]; [reflexivity|].
  destruct ws as [|w' ws']; [now apply trailingSeparator_seg|].
  rewrite join_cons by discriminate. rewrite app_assoc.
  rewrite trailingSeparator_app; [exact IH|].
  apply join_nonempty; [assumption | discriminate].
Qed.

Lemma startsWith_app p s : startsWith p s = true <-> exists t, s = p ++ t.
Proof.
  revert s. induction p as [|a p IH]; intros s; simpl.
  - split; [intros _; now exists s | reflexivity].
  - destruct s as [|b s].
    + split; [discriminate | intros [t H]; discriminate].
    + rewrite andb_true_iff, IH, Ascii.eqb_eq. split.
      * intros [-> [t ->]]. now exists t.
      * intros [t [= -> ->]]. split; [reflexivity | now exists t].
Qed.

Lemma startsWith_exists p s : startsWith p s = true -> exists t, s = p ++ t.
Proof. apply startsWith_app. Qed.

Lemma startsWith_prefix p t : startsWith p (p ++ t) = true.
Proof. apply startsWith_app. now exists t. Qed.

(** ** [normalizeString] on segments *)

Lemma isEmpty_false_of (s : str) : s <> [] -> isEmpty s = false.
Proof. destruct s; [contradiction | reflexivity]. Qed.

Lemma plainSeg_push b res seg :
  plainSeg seg -> pushSegment b res seg = seg :: res.
Proof.
  intros (Hne & Hd & Hdd). unfold pushSegment.
  destruct seg; [contradiction|]. simpl isEmpty. simpl orb.
  apply str_eqb_neq in Hd, Hdd. now rewrite Hd, Hdd.
Qed.

Lemma push_cases b res seg :
  (seg = [] \/ seg = dotSeg) /\ pushSegment b res seg = res \/
  seg = dotdotSeg \/
  plainSeg seg /\ pushSegment b res seg = seg :: res.
Proof.
  destruct seg as [|c s]; [left; split; auto|].
  destruct (str_eqb (c :: s) dotSeg) eqn:E1.
  - left. apply str_eqb_eq in E1. split; [auto|]. rewrite E1. reflexivity.
  - destruct (str_eqb (c :: s) dotdotSeg) eqn:E2.
    + right; left. now apply str_eqb_eq.
    + right; right. apply str_eqb_neq in E1, E2.
      assert (Hp : plainSeg (c :: s)) by (repeat split; [discriminate|assumption..]).
      split; [assumption | now apply plainSeg_push].
Qed.

Lemma fold_push_filter b l res :
  fold_left (pushSegment b) (filter (fun w => negb (isEmpty w)) l) res
  = fold_left (pushSegment b) l res.
Proof.
  revert res. induction l as [|w ws IH]; intros res; [reflexivity|].
  destruct w; simpl; apply IH.
Qed.

Lemma normalizeSegments_filter b l :
  normalizeSegments b (filter (fun w => negb (isEmpty w)) l) = normalizeSegments b l.
Proof. unfold normalizeSegments. now rewrite fold_push_filter. Qed.

Lemma dotdot_not_plain : ~ plainSeg dotdotSeg.
Proof. intros (_ & _ & H). now apply H. Qed.

Lemma push_dotdot_ok b res : StackOk b res -> StackOk b (pushSegment b res dotdotSeg).
Proof.
  intros (k & T & -> & HT & Hk). unfold pushSegment. simpl.
  destruct T as [|top T'].
  - simpl. destruct k as [|k]; simpl.
    + destruct b.
      * exists 1, []. repeat split; [constructor | discriminate].
      * exists 0, []. repeat split; constructor.
    + destruct b.
      * exists (S (S k)), []. repeat split; [constructor | discriminate].
      * exists (S k), []. repeat split; [constructor | assumption].
  - simpl. inversion HT as [|? ? Htop HT']; subst.
    destruct (str_eqb top dotdotSeg) eqn:E.
    + apply str_eqb_eq in E. subst top. now destruct dotdot_not_plain.
    + exists k, T'. repeat split; assumption.
Qed.

Lemma push_ok b res seg : StackOk b res -> StackOk b (pushSegment b res seg).
Proof.
  intros H. destruct (push_cases b res seg) as [[_ ->]|[->|[Hp ->]]].
  - exact H.
  - now apply push_dotdot_ok.
  - destruct H as (k & T & -> & HT & Hk).
    exists k, (seg :: T). repeat split; [constructor|]; assumption.
Qed.

Lemma fold_push_ok b l res :
  StackOk b res -> StackOk b (fold_left (pushSegment b) l res).
Proof.
  revert res. induction l as [|w ws IH]; intros res H; simpl; [exact H|].
  apply IH. now apply push_ok.
Qed.

Lemma rev_repeat_same {A} (x : A) k : rev (repeat x k) = repeat x k.
Proof.
  induction k as [|k IH]; [reflexivity|].
  simpl. rewrite IH. clear IH.
  induction k as [|k IH]; [reflexivity|]. simpl. now rewrite IH.
Qed.

Lemma normalizeSegments_normal b l : NormalForm b (normalizeSegments b l).
Proof.
  unfold normalizeSegments.
  destruct (fold_push_ok b l []) as (k & T & -> & HT & Hk).
  { exists 0, []. repeat split; constructor. }
  exists k, (rev T). rewrite rev_app_distr, rev_repeat_same.
  repeat split; [|assumption]. now apply Forall_rev.
Qed.

(** The segments kept are segments of the argument, or parent steps. *)
Lemma push_keeps (P : str -> Prop) b res seg :
  P dotdotSeg -> Forall P res -> P seg -> Forall P (pushSegment b res seg).
Proof.
  intros Hdd Hres Hseg. unfold pushSegment.
  destruct (isEmpty seg || str_eqb seg dotSeg); [assumption|].
  destruct (str_eqb seg dotdotSeg).
  - destruct res as [|top rest].
    + destruct b; repeat constructor; assumption.
    + destruct (str_eqb top dotdotSeg).
      * destruct b; [constructor|]; assumption.
      * now inversion Hres.
  - now constructor.
Qed.

Lemma normalizeSegments_keeps (P : str -> Prop) b l :
  P dotdotSeg -> Forall P l -> Forall P (normalizeSegments b l).
Proof.
  intros Hdd Hl. unfold normalizeSegments. apply Forall_rev.
  assert (H : forall res, Forall P res -> Forall P (fold_left (pushSegment b) l res)).
  { induction Hl as [|w ws Hw Hws IH]; intros res Hres; simpl; [assumption|].
    apply IH. now apply push_keeps. }
  apply H. constructor.
Qed.

Lemma goodSeg_dotdot : goodSeg dotdotSeg.
Proof.
  split; [discriminate|]. unfold noSlash, dotdotSeg. simpl.
  intros [H|[H|[]]]; discriminate.
Qed.

Lemma normalizeSegments_good b l :
  Forall goodSeg l -> Forall goodSeg (normalizeSegments b l).
Proof. apply normalizeSegments_keeps, goodSeg_dotdot. Qed.

(** Normal forms are fixed points. *)
Lemma fold_push_plain b T res :
  Forall plainSeg T -> fold_left (pushSegment b) T res = rev T ++ res.
Proof.
  intros H. revert res. induction H as [|w ws Hw Hws IH]; intros res; [reflexivity|].
  simpl. rewrite (plainSeg_push _ _ _ Hw), IH, <- app_assoc. reflexivity.
Qed.

Lemma fold_push_dotdots k :
  fold_left (pushSegment true) (repeat dotdotSeg k) [] = repeat dotdotSeg k.
Proof.
  assert (H : forall j, fold_left (pushSegment true) (repeat dotdotSeg k) (repeat dotdotSeg j)
                        = repeat dotdotSeg (k + j)).
  { induction k as [|k IH]; intros j; [reflexivity|].
    simpl repeat at 1. simpl fold_left.
    replace (pushSegment true (repeat dotdotSeg j) dotdotSeg)
      with (repeat dotdotSeg (S j)) by (destruct j; reflexivity).
    rewrite IH. f_equal. lia. }
  specialize (H 0). simpl in H. rewrite H. f_equal. lia.
Qed.

Lemma normalizeSegments_fixed b l : NormalForm b l -> normalizeSegments b l = l.
Proof.
  intros (k & T & -> & HT & Hk). unfold normalizeSegments.
  rewrite fold_left_app.
  assert (Hd : fold_left (pushSegment b) (repeat dotdotSeg k) [] = repeat dotdotSeg k).
  { destruct b; [apply fold_push_dotdots|]. now rewrite (Hk eq_refl). }
  rewrite Hd, (fold_push_plain _ _ _ HT), rev_app_distr, rev_involutive, rev_repeat_same.
  reflexivity.
Qed.

Lemma normalizeSegments_idempotent b l :
  normalizeSegments b (normalizeSegments b l) = normalizeSegments b l.
Proof. apply normalizeSegments_fixed, normalizeSegments_normal. Qed.

(** ** The loop of [normalizeString] and the segments of its argument *)

Example normalizeString_ex1 : normalizeString (lit "a/./b/../../../c//d/") true = lit "../c/d".
Proof. reflexivity. Qed.
Example normalizeString_ex2 : normalizeString (lit "/a/./b/../../../c//d") false = lit "c/d".
Proof. reflexivity. Qed.
Example normalizeString_ex3 : normalizeString (lit "ab/../..c/.../x./..") true = lit "..c/...".
Proof. reflexivity. Qed.
Example normalizeString_ex4 : normalizeString (lit "../../a/..") true = lit "../..".
Proof. reflexivity. Qed.

(** Reading the characters amounts to pushing the pieces of [split]. *)
Lemma feed_split b s stack cur :
  pushSegment b (fst (fold_left (feed b) s (stack, cur)))
                (snd (fold_left (feed b) s (stack, cur)))
  = fold_left (pushSegment b) (prependTo cur (split slash s)) stack.
Proof.
  revert stack cur. induction s as [|x t IH]; intros stack cur.
  - simpl. now rewrite app_nil_r.
  - change (fold_left (feed b) (x :: t) (stack, cur))
      with (fold_left (feed b) t (feed b (stack, cur) x)).
    assert (Hf : feed b (stack, cur) x
                 = if Ascii.eqb x slash then (pushSegment b stack cur, [])
                   else (stack, cur ++ [x])) by reflexivity.
    rewrite Hf. simpl split.
    pose proof (split_not_nil slash t) as Hn.
    destruct (Ascii.eqb x slash); rewrite IH;
      destruct (split slash t) as [|w ws]; try contradiction; simpl.
    + now rewrite app_nil_r.
    + now rewrite <- app_assoc.
Qed.

Lemma feed_after_separator b s stack cur :
  trailingSeparator s = true -> snd (fold_left (feed b) s (stack, cur)) = [].
Proof.
  unfold trailingSeparator. intros H.
  destruct (rev s) as [|c r] eqn:E; [discriminate|].
  apply Ascii.eqb_eq in H. subst c.
  apply (f_equal (@rev ascii)) in E. rewrite rev_involutive in E. simpl in E.
  rewrite E, fold_left_app. cbn [fold_left]. unfold feed.
  now rewrite Ascii.eqb_refl.
Qed.

Lemma join_snoc l w : l <> [] -> join sep (l ++ [w]) = join sep l ++ sep ++ w.
Proof.
  induction l as [|a l IH]; intros Hne; [contradiction|].
  destruct l as [|a' l']; [reflexivity|].
  change ((a :: a' :: l') ++ [w]) with (a :: ((a' :: l') ++ [w])).
  rewrite join_cons by (simpl; discriminate).
  rewrite IH by discriminate. rewrite (join_cons a (a' :: l')) by discriminate.
  now rewrite <- !app_assoc.
Qed.

Lemma lastIndexOf_noSlash s : noSlash s -> lastIndexOf slash s = None.
Proof.
  induction s as [|x t IH]; intros H; [reflexivity|].
  apply noSlash_cons in H as [Hx Ht]. simpl. rewrite (IH Ht).
  apply ascii_eqb_slash in Hx. now rewrite Hx.
Qed.

Lemma lastIndexOf_before a w :
  noSlash w -> lastIndexOf slash (a ++ slash :: w) = Some (List.length a).
Proof.
  intros Hw. induction a as [|x a IH]; simpl.
  - now rewrite (lastIndexOf_noSlash w Hw).
  - now rewrite IH.
Qed.

Lemma firstn_prefix {A} (a b : list A) : firstn (List.length a) (a ++ b) = a.
Proof. induction a as [|x a IH]; simpl; [now destruct b | now rewrite IH]. Qed.

(** [res.length - 1 - res.lastIndexOf(separator)] is the length of the
    last segment of [res]. *)
Lemma last_segment_length l :
  Forall goodSeg l ->
  match lastIndexOf slash (join sep l) with
  | None => List.length (join sep l)
  | Some k => List.length (join sep l) - 1 - k
  end = List.length (last l []).
Proof.
  intros Hg. induction l as [|a l0 _] using rev_ind; [reflexivity|].
  apply Forall_app in Hg as [Hl Ha]. inversion Ha as [|? ? [_ Hns] _]; subst.
  rewrite last_last.
  destruct l0 as [|b l''].
  - simpl. now rewrite (lastIndexOf_noSlash a Hns).
  - rewrite join_snoc by discriminate.
    change (sep ++ a) with (slash :: a).
    rewrite (lastIndexOf_before _ a Hns), !length_app. simpl. lia.
Qed.

Lemma last_rev_hd {A} (l : list A) d : last (rev l) d = hd d l.
Proof. destruct l as [|x t]; [reflexivity|]. simpl. apply last_last. Qed.

Lemma dotsOf_snoc s c :
  dotsOf (s ++ [c])
  = if Ascii.eqb c dot && negb (dotsOf s =? -1)%Z then (dotsOf s + 1)%Z else (-1)%Z.
Proof.
  unfold dotsOf. rewrite forallb_app, length_app. cbn [forallb List.length].
  rewrite (Ascii.eqb_sym dot c), andb_true_r.
  destruct (forallb (Ascii.eqb dot) s); cbn [andb].
  - destruct (Ascii.eqb c dot); cbn [andb]; [|reflexivity].
    replace (Z.of_nat (List.length s) =? -1)%Z with false
      by (symmetry; apply Z.eqb_neq; lia).
    cbn [negb]. lia.
  - now rewrite andb_false_r.
Qed.

Lemma dotsOf_plain s :
  plainSeg s -> (dotsOf s =? 1)%Z = false /\ (dotsOf s =? 2)%Z = false.
Proof.
  intros (Hne & Hd & Hdd). unfold dotsOf.
  destruct (forallb (Ascii.eqb dot) s) eqn:E; [|split; reflexivity].
  destruct s as [|a [|b [|c s']]]; try contradiction.
  - cbn [forallb] in E. rewrite andb_true_r in E. apply Ascii.eqb_eq in E. subst a.
    now destruct Hd.
  - cbn [forallb] in E. rewrite andb_true_r in E. apply andb_true_iff in E as [E1 E2].
    apply Ascii.eqb_eq in E1, E2. subst a b. now destruct Hdd.
  - split; apply Z.eqb_neq; cbn [List.length]; lia.
Qed.

Lemma join_rev_isEmpty stack :
  Forall goodSeg stack ->
  isEmpty (join sep (rev stack)) = match stack with [] => true | _ => false end.
Proof.
  intros Hg. destruct stack as [|top rest]; [reflexivity|].
  apply isEmpty_false_of. apply join_nonempty; [now apply Forall_rev|].
  simpl. now destruct (rev rest).
Qed.

Lemma endsWith_suffix p pre : endsWith p (pre ++ p) = true.
Proof.
  unfold endsWith. rewrite rev_app_distr. apply startsWith_prefix.
Qed.

Lemma app_same_length {A} (a c b d : list A) :
  List.length a = List.length c -> a ++ b = c ++ d -> a = c /\ b = d.
Proof.
  revert c. induction a as [|x a IH]; intros [|y c] Hl H; try discriminate.
  - now split.
  - injection H as -> H. injection Hl as Hl.
    destruct (IH c Hl H) as [-> ->]. now split.
Qed.

Lemma endsWith_same_length p pre top :
  List.length top = List.length p -> endsWith p (pre ++ top) = true -> top = p.
Proof.
  unfold endsWith. rewrite rev_app_distr. intros Hl H.
  apply startsWith_exists in H as [t Ht].
  apply app_same_length in Ht as [Ht _]; [|now rewrite !length_rev].
  apply (f_equal (@rev ascii)) in Ht. now rewrite !rev_involutive in Ht.
Qed.

(** The test of the loop for "the last segment of [res] is not [..]". *)
Lemma last_segment_test pre top :
  (List.length (pre ++ top) <? 2) || negb (List.length top =? 2)
  || negb (endsWith dotdotSeg (pre ++ top))
  = negb (str_eqb top dotdotSeg).
Proof.
  destruct (str_eqb top dotdotSeg) eqn:E.
  - apply str_eqb_eq in E. subst top. rewrite endsWith_suffix.
    replace (List.length (pre ++ dotdotSeg) <? 2) with false; [reflexivity|].
    symmetry. apply Nat.ltb_ge. rewrite length_app. simpl. lia.
  - apply str_eqb_neq in E. cbn [negb].
    destruct (List.length (pre ++ top) <? 2); [reflexivity|].
    destruct (List.length top =? 2) eqn:El; [|reflexivity].
    destruct (endsWith dotdotSeg (pre ++ top)) eqn:Ee; [|reflexivity].
    apply Nat.eqb_eq in El. destruct E.
    now apply (endsWith_same_length dotdotSeg pre top).
Qed.

Lemma scanOk_next r n stack :
  r = join sep (rev stack) -> n = List.length (hd [] stack) ->
  Forall goodSeg stack -> ScanOk (mkScan r n [] 0) stack [].
Proof. intros -> -> Hg. repeat split. exact Hg. Qed.

Lemma push_dotdot_cons b top rest :
  pushSegment b (top :: rest) dotdotSeg
  = if str_eqb top dotdotSeg
    then (if b then dotdotSeg :: top :: rest else top :: rest)
    else rest.
Proof. reflexivity. Qed.

(** The branch for a separator pushes the segment read. *)
Lemma endOfSegment_push b st stack cur :
  ScanOk st stack cur -> noSlash cur ->
  ScanOk (endOfSegment b st) (pushSegment b stack cur) [].
Proof.
  destruct st as [r n sg d]. unfold ScanOk.
  cbn [res lastSegmentLength segment dots].
  intros (-> & -> & -> & -> & Hg) Hns.
  unfold endOfSegment. cbn [res lastSegmentLength segment dots].
  destruct (push_cases b stack cur) as [[Hc Hp] | [Hc | [Hplain Hp]]].
  - rewrite Hp.
    replace (isEmpty cur || (dotsOf cur =? 1)%Z) with true
      by (destruct Hc as [-> | ->]; reflexivity).
    now apply scanOk_next.
  - subst cur.
    change (isEmpty dotdotSeg || (dotsOf dotdotSeg =? 1)%Z) with false.
    change (dotsOf dotdotSeg =? 2)%Z with true. cbv iota.
    destruct stack as [|top rest].
    + cbn [rev join hd List.length isEmpty negb].
      change (0 <? 2) with true. change (2 <? 0) with false.
      change (0 =? 0) with true. cbn [orb negb].
      destruct b; (apply scanOk_next; [reflexivity | reflexivity |]).
      * repeat constructor; apply goodSeg_dotdot.
      * constructor.
    + inversion Hg as [|? ? Htop Hrest]; subst.
      cbn [hd rev]. rewrite push_dotdot_cons.
      pose proof (join_rev_isEmpty (top :: rest) Hg) as Hne. cbn [rev] in Hne.
      destruct (rev rest) as [|r0 rr] eqn:Er.
      * (* [top] is the only segment of [res] *)
        assert (rest = []) as ->.
        { apply (f_equal (@rev str)) in Er. now rewrite rev_involutive in Er. }
        cbn [app join].
        pose proof (last_segment_test [] top) as Htest. cbn [app] in Htest.
        rewrite Htest.
        destruct (str_eqb top dotdotSeg) eqn:E; cbn [negb].
        -- apply str_eqb_eq in E. subst top.
           destruct b; (apply scanOk_next; [reflexivity | reflexivity |]);
             repeat constructor; apply goodSeg_dotdot.
        -- rewrite (lastIndexOf_noSlash top (proj2 Htop)).
           replace (negb (List.length top =? 0)) with true.
           ++ destruct (2 <? List.length top);
                (apply scanOk_next; [reflexivity | reflexivity | constructor]).
           ++ destruct top; [now destruct Htop | reflexivity].
      * (* [res] is [join (rev rest)], a separator and [top] *)
        assert (Hrest' : Forall goodSeg (r0 :: rr))
          by (rewrite <- Er; now apply Forall_rev).
        rewrite join_snoc in * by discriminate.
        rewrite app_assoc. rewrite (last_segment_test _ top).
        rewrite <- app_assoc.
        destruct (str_eqb top dotdotSeg) eqn:E; cbn [negb].
        -- apply str_eqb_eq in E. subst top. rewrite Hne. cbn [negb].
           destruct b; apply scanOk_next; try reflexivity; try assumption.
           ++ cbn [rev]. rewrite Er.
              rewrite (join_snoc ((r0 :: rr) ++ [dotdotSeg])) by (simpl; discriminate).
              now rewrite join_snoc by discriminate.
           ++ constructor; [apply goodSeg_dotdot | assumption].
           ++ cbn [rev]. rewrite Er. now rewrite join_snoc by discriminate.
        -- assert (Hlong : (2 <? List.length (join sep (r0 :: rr) ++ sep ++ top)) = true).
           { apply Nat.ltb_lt. rewrite !length_app.
             assert (join sep (r0 :: rr) <> [])
               by (apply join_nonempty; [assumption | discriminate]).
             destruct (join sep (r0 :: rr)); [contradiction|].
             destruct top; [now destruct Htop|]. simpl. lia. }
           rewrite Hlong. change (sep ++ top) with (slash :: top).
           rewrite (lastIndexOf_before _ top (proj2 Htop)), firstn_prefix.
           apply scanOk_next; [now rewrite Er | | assumption].
           rewrite (last_segment_length _ Hrest'), <- Er. now rewrite last_rev_hd.
  - rewrite Hp. destruct (dotsOf_plain cur Hplain) as [H1 H2]. rewrite H1, H2.
    replace (isEmpty cur) with false by (destruct cur; [now destruct Hplain | reflexivity]).
    cbn [orb]. apply scanOk_next; [| reflexivity |].
    + cbn [rev]. rewrite (join_rev_isEmpty stack Hg).
      destruct stack as [|top rest]; cbn [negb]; [reflexivity|].
      rewrite join_snoc; [reflexivity|]. cbn [rev]. now destruct (rev rest).
    + constructor; [|assumption]. split; [apply Hplain | assumption].
Qed.

Lemma noSlash_snoc s c : noSlash s -> c <> slash -> noSlash (s ++ [c]).
Proof.
  unfold noSlash. intros Hs Hc H. apply in_app_or in H as [H|[H|[]]]; auto.
Qed.

(** One turn of the loop against one step on the stack. *)
Lemma scanChar_feed b st stack cur c :
  ScanOk st stack cur -> noSlash cur ->
  ScanOk (scanChar b st c) (fst (feed b (stack, cur) c)) (snd (feed b (stack, cur) c))
  /\ noSlash (snd (feed b (stack, cur) c)).
Proof.
  intros Hok Hns. unfold scanChar, feed. cbn [fst snd].
  destruct (Ascii.eqb c slash) eqn:Ec; cbn [fst snd].
  - split; [now apply endOfSegment_push | apply noSlash_nil].
  - apply ascii_eqb_slash in Ec. split; [|now apply noSlash_snoc].
    destruct Hok as (Hres & Hlsl & Hseg & Hdots & Hg).
    unfold ScanOk. rewrite dotsOf_snoc, Hdots, Hseg.
    destruct (Ascii.eqb c dot && negb (dotsOf cur =? -1)%Z);
      cbn [res lastSegmentLength segment dots]; auto.
Qed.

Lemma scan_feed b s st stack cur :
  ScanOk st stack cur -> noSlash cur ->
  ScanOk (fold_left (scanChar b) s st)
         (fst (fold_left (feed b) s (stack, cur)))
         (snd (fold_left (feed b) s (stack, cur)))
  /\ noSlash (snd (fold_left (feed b) s (stack, cur))).
Proof.
  revert st stack cur. induction s as [|c t IH]; intros st stack cur Hok Hns.
  - now split.
  - cbn [fold_left].
    destruct (scanChar_feed b st stack cur c Hok Hns) as [Hok' Hns'].
    destruct (feed b (stack, cur) c) as [stack' cur'].
    now apply IH.
Qed.

(** The loop of [normalizeString] leaves the segments that
    [normalizeSegments] leaves of the pieces of the path. *)
Lemma normalizeString_split p b :
  normalizeString p b = join sep (normalizeSegments b (split slash p)).
Proof.
  unfold normalizeString, normalizeSegments. cbv zeta.
  assert (Hinit : ScanOk (mkScan [] 0 [] 0) [] []) by (repeat split; constructor).
  destruct (scan_feed b p _ [] [] Hinit noSlash_nil) as [Hok Hns].
  pose proof (feed_split b p [] []) as Hsplit.
  assert (Hpre : prependTo [] (split slash p) = split slash p).
  { pose proof (split_not_nil slash p). now destruct (split slash p). }
  rewrite Hpre in Hsplit. rewrite <- Hsplit.
  destruct (trailingSeparator p) eqn:Et.
  - rewrite (feed_after_separator b p [] [] Et) in *.
    destruct Hok as (Hres & _). rewrite Hres. reflexivity.
  - destruct (endOfSegment_push b _ _ _ Hok Hns) as (Hres & _).
    exact Hres.
Qed.

Lemma normalizeString_segments p b :
  normalizeString p b = join sep (normalizeSegments b (segmentsOf p)).
Proof.
  rewrite normalizeString_split. unfold segmentsOf.
  now rewrite normalizeSegments_filter.
Qed.

(** ** [path.normalize], [path.join] and [path.resolve] *)

Lemma isEmpty_true s : isEmpty s = true <-> s = [].
Proof. destruct s; simpl; intuition discriminate. Qed.

Lemma isEmpty_false s : isEmpty s = false <-> s <> [].
Proof. destruct s; simpl; intuition (discriminate || congruence). Qed.

Lemma isAbsolute_nonempty p : isAbsolute p = true -> p <> [].
Proof. destruct p; [discriminate | discriminate]. Qed.

Lemma isAbsolute_root p : isAbsolute (sep ++ p) = true.
Proof. reflexivity. Qed.

Lemma normalize_absolute p :
  isAbsolute p = true -> trailingSeparator p = false ->
  normalize p = sep ++ join sep (normalizeSegments false (segmentsOf p)).
Proof.
  intros Ha Ht. unfold normalize.
  pose proof (isAbsolute_nonempty _ Ha) as Hne. apply isEmpty_false in Hne.
  rewrite Hne, Ha, Ht. cbv zeta. simpl negb. rewrite normalizeString_segments.
  destruct (isEmpty (join sep _)) eqn:E; [|reflexivity].
  apply isEmpty_true in E. now rewrite E.
Qed.

Lemma normalize_relative p :
  p <> [] -> isAbsolute p = false -> trailingSeparator p = false ->
  normalize p = relativeOf (normalizeSegments true (segmentsOf p)).
Proof.
  intros Hne Ha Ht. unfold normalize. apply isEmpty_false in Hne.
  rewrite Hne, Ha, Ht. cbv zeta. simpl negb. rewrite normalizeString_segments.
  pose proof (normalizeSegments_good true _ (segmentsOf_good p)) as Hg.
  destruct (normalizeSegments true (segmentsOf p)) as [|w ws] eqn:E; [reflexivity|].
  assert (Hj : join sep (w :: ws) <> []) by (apply join_nonempty; [assumption|discriminate]).
  apply isEmpty_false in Hj. now rewrite Hj.
Qed.

Lemma normalize_sep : normalize sep = sep.
Proof. reflexivity. Qed.

Lemma normalize_dot : normalize dotSeg = dotSeg.
Proof. reflexivity. Qed.

Lemma trailing_root_join l :
  Forall goodSeg l -> l <> [] -> trailingSeparator (sep ++ join sep l) = false.
Proof.
  intros Hg Hne. rewrite trailingSeparator_app; [now apply join_trailing|].
  now apply join_nonempty.
Qed.

(** Normal paths are fixed points of [path.normalize]. *)
Lemma normalize_fixed_absolute l :
  Forall goodSeg l -> NormalForm false l ->
  normalize (sep ++ join sep l) = sep ++ join sep l.
Proof.
  intros Hg Hn. destruct l as [|w ws]; [reflexivity|].
  rewrite normalize_absolute.
  - now rewrite segmentsOf_root_join, normalizeSegments_fixed.
  - reflexivity.
  - apply trailing_root_join; [assumption | discriminate].
Qed.

Lemma normalize_fixed_relative l :
  Forall goodSeg l -> NormalForm true l ->
  normalize (relativeOf l) = relativeOf l.
Proof.
  intros Hg Hn. destruct l as [|w ws]; [reflexivity|].
  unfold relativeOf. rewrite normalize_relative.
  - now rewrite segmentsOf_join, normalizeSegments_fixed.
  - apply join_nonempty; [assumption | discriminate].
  - now apply join_isAbsolute.
  - now apply join_trailing.
Qed.

Lemma segmentsOf_sep p : segmentsOf (sep ++ p) = segmentsOf p.
Proof. apply (segmentsOf_app [] p). Qed.

Lemma filter_goodSegs l :
  Forall goodSeg l -> filter (fun a => negb (isEmpty a)) l = l.
Proof. intros H. apply filter_all. now apply goodSeg_nonempty. Qed.

Lemma pjoin_rooted segs :
  Forall goodSeg segs -> segs <> [] ->
  pjoin (sep :: segs) = sep ++ join sep (normalizeSegments false segs).
Proof.
  intros Hg Hne. unfold pjoin. simpl filter. rewrite (filter_goodSegs _ Hg).
  rewrite join_cons by assumption.
  rewrite normalize_absolute.
  - now rewrite segmentsOf_sep, segmentsOf_root_join.
  - reflexivity.
  - rewrite trailingSeparator_app; [now apply trailing_root_join|discriminate].
Qed.

Lemma pjoin_relative segs :
  Forall goodSeg segs -> segs <> [] ->
  pjoin segs = relativeOf (normalizeSegments true segs).
Proof.
  intros Hg Hne. unfold pjoin. rewrite (filter_goodSegs _ Hg).
  destruct segs as [|w ws]; [contradiction|].
  rewrite normalize_relative.
  - now rewrite segmentsOf_join.
  - apply join_nonempty; assumption.
  - now apply join_isAbsolute.
  - now apply join_trailing.
Qed.

(** [path.resolve] gives a normal absolute path when the working
    directory is absolute. *)
Lemma resolveLoop_absolute cwd l acc :
  isAbsolute cwd = true -> snd (resolveLoop (l ++ [cwd]) acc) = true.
Proof.
  intros Ha. revert acc. induction l as [|p rest IH]; intros acc; simpl.
  - pose proof (isAbsolute_nonempty _ Ha) as Hne. apply isEmpty_false in Hne.
    now rewrite Hne, Ha.
  - destruct (isEmpty p); [apply IH|].
    destruct (isAbsolute p); [reflexivity | apply IH].
Qed.

Lemma resolve_normal cwd args :
  isAbsolute cwd = true ->
  exists l, resolve cwd args = sep ++ join sep l /\
            NormalForm false l /\ Forall goodSeg l.
Proof.
  intros Ha. unfold resolve.
  pose proof (resolveLoop_absolute cwd (rev args) [] Ha) as Hs.
  destruct (resolveLoop (rev args ++ [cwd]) []) as [rp abs]. simpl in Hs. subst abs.
  simpl negb. rewrite normalizeString_segments.
  eexists. split; [reflexivity|]. split.
  - apply normalizeSegments_normal.
  - apply normalizeSegments_good, segmentsOf_good.
Qed.

Lemma resolve_isAbsolute cwd args :
  isAbsolute cwd = true -> isAbsolute (resolve cwd args) = true.
Proof. intros Ha. destruct (resolve_normal cwd args Ha) as (l & -> & _). reflexivity. Qed.

(** ** The shape of a prepared path *)

(** The two ways in which [prepareOperationPath] returns a path. *)
Lemma prepareString_inv s p :
  prepareString s = Some p ->
  trim s <> [] /\ original p = trim s /\ targetPath p = normalizedPath p /\
  ((cleanedOf s = sep /\ normalizedPath p = sep) \/
   exists segs,
     segs <> [] /\ segmentsOf (cleanedOf s) = segs /\
     (normalizedPath p = sep ++ join sep (normalizeSegments false segs) \/
      normalizedPath p = relativeOf (normalizeSegments true segs))).
Proof.
  unfold prepareString. fold (cleanedOf s).
  destruct (isEmpty (trim s)) eqn:Et; [discriminate|].
  apply isEmpty_false in Et.
  destruct (isEmpty (cleanedOf s)); [discriminate|].
  destruct (str_eqb (cleanedOf s) sep) eqn:Es.
  - apply str_eqb_eq in Es. intros [= <-]. cbn [normalizedPath targetPath original].
    repeat split; auto.
  - pose proof (segmentsOf_good (cleanedOf s)) as Hg.
    destruct (segmentsOf (cleanedOf s)) as [|seg0 rest] eqn:E; [discriminate|].
    generalize (startsWith sep (cleanedOf s) && negb (hasWindowsDrive seg0)).
    intros rooted [= <-]. cbn [normalizedPath targetPath original].
    repeat split; auto. right. exists (seg0 :: rest).
    split; [discriminate|]. split; [reflexivity|].
    destruct rooted.
    + left. rewrite pjoin_rooted by (assumption || discriminate).
      apply normalize_fixed_absolute;
        [now apply normalizeSegments_good | apply normalizeSegments_normal].
    + right. rewrite pjoin_relative by (assumption || discriminate).
      apply normalize_fixed_relative;
        [now apply normalizeSegments_good | apply normalizeSegments_normal].
Qed.

Lemma prepareString_shape s p :
  prepareString s = Some p ->
  NormalPath (normalizedPath p) /\ targetPath p = normalizedPath p /\
  original p = trim s.
Proof.
  intros H. destruct (prepareString_inv s p H) as (_ & Ho & Ht & Hn).
  split; [|auto].
  destruct Hn as [[_ ->] | (segs & Hne & Hseg & Hn)].
  - change sep with (sep ++ join sep []).
    apply NormalAbsolute; [|constructor].
    exists 0, []. repeat split; constructor.
  - assert (Hg : Forall goodSeg segs) by (rewrite <- Hseg; apply segmentsOf_good).
    destruct Hn as [-> | ->].
    + apply NormalAbsolute;
        [apply normalizeSegments_normal | now apply normalizeSegments_good].
    + pose proof (normalizeSegments_good true _ Hg) as Hg'.
      pose proof (normalizeSegments_normal true segs) as Hn'.
      destruct (normalizeSegments true segs) as [|w ws] eqn:En.
      * apply NormalDot.
      * apply NormalRelative; [assumption..|discriminate].
Qed.

(** ** What a resolution returns *)

Lemma insideVolume_spec cfg p :
  insideVolume cfg p = true <->
  p = volResolved cfg \/ exists t, p = volResolved cfg ++ sep ++ t.
Proof.
  unfold insideVolume. rewrite orb_true_iff, startsWith_app, str_eqb_eq.
  split; intros [H|H]; auto.
  - right. destruct H as [t ->]. exists t. now rewrite app_assoc.
  - left. destruct H as [t ->]. exists t. now rewrite app_assoc.
Qed.

(** Both [return]s of the resolver give a path of [path.resolve] that
    passed the containment test. *)
Lemma resolve_result cfg raw rs :
  resolveFsPathFromApiPath cfg raw = Normal (Some rs) ->
  prepareOperationPath raw = Some (prepared rs) /\
  insideVolume cfg (fsPath rs) = true /\
  exists args, fsPath rs = resolve (cwd cfg) args.
Proof.
  unfold resolveFsPathFromApiPath, placeUnderVolume.
  destruct (prepareOperationPath raw) as [p|]; [|discriminate].
  repeat match goal with
         | |- context [if ?c then _ else _] =>
             lazymatch c with
             | context [if _ then _ else _] => fail
             | _ => destruct c eqn:?
             end
         end; try discriminate; intros [= <-]; cbn [fsPath prepared];
    (split; [reflexivity|]); (split; [| eexists; reflexivity]);
    try assumption;
    match goal with
    | H : negb (insideVolume _ _) = false |- _ =>
        apply negb_false_iff in H; exact H
    end.
Qed.

Lemma prepareOperationPath_shape raw p :
  prepareOperationPath raw = Some p ->
  NormalPath (normalizedPath p) /\ targetPath p = normalizedPath p.
Proof.
  intros H.
  assert (Hs : exists s, prepareString s = Some p).
  { destruct raw; try discriminate; eexists; exact H. }
  destruct Hs as [s Hs]. now destruct (prepareString_shape s p Hs) as (? & ? & _).
Qed.

Lemma plainSeg_not_dots T :
  Forall plainSeg T -> ~ In dotSeg T /\ ~ In dotdotSeg T.
Proof.
  induction 1 as [|w ws (_ & Hd & Hdd) _ [IH1 IH2]]; simpl; [tauto|].
  split; intros [E|E]; subst; auto.
Qed.

Lemma in_repeat_eq {A} (x y : A) k : In y (repeat x k) -> y = x.
Proof. induction k; simpl; [tauto | intuition]. Qed.

Lemma normalForm_no_dot b l : NormalForm b l -> ~ In dotSeg l.
Proof.
  intros (k & T & -> & HT & _) H. apply in_app_or in H as [H|H].
  - apply in_repeat_eq in H. discriminate.
  - now destruct (plainSeg_not_dots T HT) as [H1 _].
Qed.

Lemma normalForm_rooted_no_dotdot l : NormalForm false l -> ~ In dotdotSeg l.
Proof.
  intros (k & T & -> & HT & Hk). rewrite (Hk eq_refl). simpl.
  now destruct (plainSeg_not_dots T HT) as [_ H2].
Qed.

Lemma normalForm_leading_dotdot b l :
  NormalForm b l -> exists k T, l = repeat dotdotSeg k ++ T /\ ~ In dotdotSeg T.
Proof.
  intros (k & T & -> & HT & _). exists k, T. split; [reflexivity|].
  now destruct (plainSeg_not_dots T HT) as [_ H2].
Qed.

(** C1.  When a resolution returns a path, the path is absolute and is
    the storage root or lies below it: as strings, the root followed by a
    separator and a rest; as components, the components of the root
    followed by at least one more.  ([/data-evil] is no such path for the
    root [/data].) *)
Theorem resolved_path_inside_volume (cfg : Config) (raw : JsVal) (rs : Resolved) :
  isAbsolute (cwd cfg) = true ->
  resolveFsPathFromApiPath cfg raw = Normal (Some rs) ->
  isAbsolute (fsPath rs) = true /\
  (fsPath rs = volResolved cfg \/
   exists t, fsPath rs = volResolved cfg ++ sep ++ t) /\
  (exists rest,
      segmentsOf (fsPath rs) = segmentsOf (volResolved cfg) ++ rest /\
      (fsPath rs <> volResolved cfg -> rest <> [])).
Proof.
  intros Hcwd Hr.
  destruct (resolve_result cfg raw rs Hr) as (_ & Hin & args & Hargs).
  apply insideVolume_spec in Hin.
  split; [rewrite Hargs; now apply resolve_isAbsolute|].
  split; [exact Hin|].
  destruct Hin as [->|[t Ht]].
  - exists []. rewrite app_nil_r. split; [reflexivity | congruence].
  - exists (segmentsOf t). split.
    + rewrite Ht. apply segmentsOf_app.
    + intros _ Hnil.
      destruct (resolve_normal (cwd cfg) args Hcwd) as (S & HS & _ & HgS).
      destruct (resolve_normal (cwd cfg) [VOLUME_PATH cfg] Hcwd) as (V & HV & _ & HgV).
      fold (volResolved cfg) in HV. rewrite <- Hargs in HS.
      assert (Hseg : segmentsOf (fsPath rs) = segmentsOf (volResolved cfg)).
      { rewrite Ht at 1. change (sep ++ t) with (slash :: t).
        rewrite segmentsOf_app, Hnil. apply app_nil_r. }
      rewrite HS, HV, !segmentsOf_root_join in Hseg by assumption. subst S.
      rewrite <- HV in HS. rewrite HS in Ht.
      apply (f_equal (@List.length ascii)) in Ht.
      rewrite !length_app in Ht. simpl in Ht. lia.
Qed.

(** C5, as the code has it.  [path.join] and [path.normalize] read [.]
    and [..] as steps, they are not kept as names.  In the normalized
    path no component is [.], unless the whole path is [.]; a [..] stands
    only in front of the other components, and never in a path that
    starts with a separator.  The resolved filesystem path has neither. *)
Theorem dot_segments_are_steps (cfg : Config) (raw : JsVal) (rs : Resolved) :
  isAbsolute (cwd cfg) = true ->
  resolveFsPathFromApiPath cfg raw = Normal (Some rs) ->
  let n := normalizedPath (prepared rs) in
  (n = dotSeg \/ ~ In dotSeg (segmentsOf n)) /\
  (isAbsolute n = true -> ~ In dotdotSeg (segmentsOf n)) /\
  (exists k T, segmentsOf n = repeat dotdotSeg k ++ T /\ ~ In dotdotSeg T) /\
  ~ In dotSeg (segmentsOf (fsPath rs)) /\
  ~ In dotdotSeg (segmentsOf (fsPath rs)).
Proof.
  intros Hcwd Hr n.
  destruct (resolve_result cfg raw rs Hr) as (Hp & _ & args & Hargs).
  destruct (prepareOperationPath_shape raw _ Hp) as [Hshape _].
  fold n in Hshape.
  assert (Hfs : ~ In dotSeg (segmentsOf (fsPath rs)) /\
                ~ In dotdotSeg (segmentsOf (fsPath rs))).
  { destruct (resolve_normal (cwd cfg) args Hcwd) as (S & HS & Hn & Hg).
    rewrite Hargs, HS, segmentsOf_root_join by assumption.
    split; [now apply (normalForm_no_dot false) | now apply normalForm_rooted_no_dotdot]. }
  destruct Hfs as [Hfs1 Hfs2].
  destruct Hshape as [l Hn Hg | l Hn Hg Hne |].
  - rewrite segmentsOf_root_join by assumption. repeat split; try assumption.
    + right. now apply (normalForm_no_dot false).
    + intros _. now apply normalForm_rooted_no_dotdot.
    + now apply (normalForm_leading_dotdot false).
  - rewrite segmentsOf_join by assumption. repeat split; try assumption.
    + right. now apply (normalForm_no_dot true).
    + rewrite join_isAbsolute by assumption. discriminate.
    + now apply (normalForm_leading_dotdot true).
  - repeat split; try assumption.
    + now left.
    + discriminate.
    + exists 0, [dotSeg]. split; [reflexivity|].
      simpl. intros [H|[]]. discriminate.
Qed.

(** ** Preparing a path that is already prepared *)

Lemma prepareString_unfold s :
  trim s <> [] -> cleanedOf s <> [] -> cleanedOf s <> sep ->
  forall seg0 rest, segmentsOf (cleanedOf s) = seg0 :: rest ->
  prepareString s
  = Some (let fsPath :=
            if startsWith sep (cleanedOf s) && negb (hasWindowsDrive seg0)
            then pjoin (sep :: seg0 :: rest) else pjoin (seg0 :: rest) in
          mkPrepared (normalize fsPath) (normalize fsPath) (trim s)).
Proof.
  intros Ht Hc Hs seg0 rest Hseg. unfold prepareString. fold (cleanedOf s).
  apply isEmpty_false in Ht, Hc. apply str_eqb_neq in Hs.
  rewrite Ht, Hc, Hs, Hseg. reflexivity.
Qed.

Lemma replaceBackslashes_id s :
  Forall (fun c => c <> backslash) s -> replaceBackslashes s = s.
Proof.
  induction 1 as [|c t Hc Ht IH]; simpl; [reflexivity|].
  apply Ascii.eqb_neq in Hc. now rewrite Hc, IH.
Qed.

Lemma collapse_seg w r :
  noSlash w -> collapseSlashes (w ++ r) = w ++ collapseSlashes r.
Proof.
  induction w as [|c w IH]; intros H; [reflexivity|].
  apply noSlash_cons in H as [Hc Hw]. apply ascii_eqb_slash in Hc.
  simpl. now rewrite Hc, IH.
Qed.

Lemma collapse_sep_before r :
  isAbsolute r = false -> r <> [] ->
  collapseSlashes (sep ++ r) = sep ++ collapseSlashes r.
Proof.
  destruct r as [|d r']; intros Ha Hne; [contradiction|].
  simpl in Ha. simpl. now rewrite Ha.
Qed.

Lemma collapse_join l : Forall goodSeg l -> collapseSlashes (join sep l) = join sep l.
Proof.
  induction 1 as [|w ws Hw Hws IH]; [reflexivity|].
  destruct ws as [|w' ws'].
  - simpl. rewrite <- (app_nil_r w) at 1. rewrite collapse_seg by apply Hw.
    apply app_nil_r.
  - rewrite join_cons by discriminate.
    rewrite collapse_seg by apply Hw.
    rewrite collapse_sep_before, IH; [reflexivity | now apply join_isAbsolute |].
    apply join_nonempty; [assumption | discriminate].
Qed.

Lemma collapse_normal n : NormalPath n -> collapseSlashes n = n.
Proof.
  intros [l Hn Hg | l Hn Hg Hne |]; [| now apply collapse_join | reflexivity].
  destruct l as [|w ws]; [reflexivity|].
  rewrite collapse_sep_before, collapse_join;
    [reflexivity | assumption | now apply join_isAbsolute |].
  apply join_nonempty; [assumption | discriminate].
Qed.

Lemma endsWith_sep s : endsWith sep s = trailingSeparator s.
Proof.
  unfold endsWith, trailingSeparator. simpl.
  destruct (rev s) as [|c r]; [reflexivity|].
  now rewrite andb_true_r, Ascii.eqb_sym.
Qed.

Lemma startsWith_sep s : startsWith sep s = isAbsolute s.
Proof.
  destruct s as [|c s]; [reflexivity|]. simpl.
  now rewrite andb_true_r, Ascii.eqb_sym.
Qed.

Lemma normal_nonempty n : NormalPath n -> n <> [].
Proof.
  intros [l Hn Hg | l Hn Hg Hne |]; [discriminate | | discriminate].
  now apply join_nonempty.
Qed.

Lemma cleanedOf_fixed n :
  NormalPath n -> trim n = n -> Forall (fun c => c <> backslash) n ->
  cleanedOf n = n.
Proof.
  intros Hshape Ht Hb. unfold cleanedOf.
  rewrite Ht, (replaceBackslashes_id _ Hb), (collapse_normal _ Hshape).
  destruct (str_eqb n sep) eqn:E; [reflexivity|]. simpl.
  rewrite endsWith_sep.
  assert (Htr : trailingSeparator n = false).
  { destruct Hshape as [l Hn Hg | l Hn Hg Hne |].
    - destruct l; [now rewrite str_eqb_refl in E|].
      apply trailing_root_join; [assumption | discriminate].
    - now apply join_trailing.
    - reflexivity. }
  now rewrite Htr.
Qed.

(** A prepared path without white space at its ends and without a drive
    letter behind the first separator prepares to itself. *)
Lemma prepareString_fixed n :
  NormalPath n -> trim n = n -> Forall (fun c => c <> backslash) n ->
  rootedDrive n = false ->
  prepareString n = Some (mkPrepared n n n).
Proof.
  intros Hshape Ht Hb Hd.
  pose proof (cleanedOf_fixed n Hshape Ht Hb) as Hc.
  pose proof (normal_nonempty n Hshape) as Hne.
  destruct Hshape as [l Hn Hg | l Hn Hg Hl |]; [| | reflexivity].
  - destruct l as [|w ws]; [reflexivity|].
    assert (Hs : sep ++ join sep (w :: ws) <> sep).
    { intros E. apply (join_nonempty (w :: ws) Hg); [discriminate|].
      injection E as E. exact E. }
    assert (Hseg : segmentsOf (sep ++ join sep (w :: ws)) = w :: ws)
      by now apply segmentsOf_root_join.
    unfold rootedDrive in Hd. rewrite Hseg, startsWith_sep in Hd.
    change (hasWindowsDrive w = false) in Hd.
    rewrite (prepareString_unfold _) with (seg0 := w) (rest := ws);
      rewrite ?Hc, ?Ht; try assumption.
    cbv zeta. rewrite startsWith_sep, Hd.
    change (isAbsolute (sep ++ join sep (w :: ws)) && negb false) with true.
    cbv iota.
    rewrite pjoin_rooted by (assumption || discriminate).
    rewrite normalizeSegments_fixed by assumption.
    now rewrite normalize_fixed_absolute by assumption.
  - destruct l as [|w ws]; [contradiction|].
    assert (Hs : join sep (w :: ws) <> sep).
    { intros E. pose proof (join_isAbsolute _ Hg) as Ha. now rewrite E in Ha. }
    assert (Hseg : segmentsOf (join sep (w :: ws)) = w :: ws)
      by now apply segmentsOf_join.
    rewrite (prepareString_unfold _) with (seg0 := w) (rest := ws);
      rewrite ?Hc, ?Ht; try assumption.
    cbv zeta. rewrite startsWith_sep, (join_isAbsolute _ Hg), andb_false_l.
    cbv iota.
    rewrite pjoin_relative by (assumption || discriminate).
    rewrite normalizeSegments_fixed by assumption.
    change (relativeOf (w :: ws)) with (join sep (w :: ws)).
    pose proof (normalize_fixed_relative _ Hg Hn) as Hfix.
    change (relativeOf (w :: ws)) with (join sep (w :: ws)) in Hfix.
    now rewrite Hfix.
Qed.

(** The characters of a prepared path: separators, dots, and characters
    of the cleaned argument. *)
Lemma prepareString_chars (P : ascii -> Prop) s p :
  P slash -> P dot -> Forall P (cleanedOf s) ->
  prepareString s = Some p -> Forall P (normalizedPath p).
Proof.
  intros Hs Hd Hc H.
  destruct (prepareString_inv s p H) as (_ & _ & _ & Hn).
  destruct Hn as [[_ ->] | (segs & Hne & Hseg & Hn)]; [repeat constructor; exact Hs|].
  assert (Hsegs : Forall (Forall P) segs) by (rewrite <- Hseg; now apply segmentsOf_chars).
  assert (Hk : forall b, Forall (Forall P) (normalizeSegments b segs)).
  { intros b. apply normalizeSegments_keeps; [|assumption]. repeat constructor; exact Hd. }
  destruct Hn as [-> | ->].
  - apply Forall_app. split; [repeat constructor; exact Hs|]. now apply join_chars.
  - specialize (Hk true). destruct (normalizeSegments true segs) as [|w ws].
    + repeat constructor; exact Hd.
    + change (relativeOf (w :: ws)) with (join sep (w :: ws)). now apply join_chars.
Qed.

Lemma collapse_chars (P : ascii -> Prop) s :
  Forall P s -> Forall P (collapseSlashes s).
Proof.
  induction 1 as [|c t Hc Ht IH]; simpl; [constructor|].
  destruct (Ascii.eqb c slash); [|now constructor].
  destruct t as [|d t']; [repeat constructor; assumption|].
  destruct (Ascii.eqb d slash); [assumption | now constructor].
Qed.

Lemma removelast_chars {A} (P : A -> Prop) (s : list A) :
  Forall P s -> Forall P (removelast s).
Proof.
  induction 1 as [|c t Hc Ht IH]; simpl; [constructor|].
  destruct t; [constructor | now constructor].
Qed.

Lemma replaceBackslashes_clean s :
  Forall (fun c => c <> backslash) (replaceBackslashes s).
Proof.
  induction s as [|c t IH]; simpl; constructor; [|exact IH].
  destruct (Ascii.eqb c backslash) eqn:E; [discriminate|].
  now apply Ascii.eqb_neq.
Qed.

Lemma cleanedOf_clean s : Forall (fun c => c <> backslash) (cleanedOf s).
Proof.
  unfold cleanedOf.
  assert (H : Forall (fun c => c <> backslash)
                (collapseSlashes (replaceBackslashes (trim s))))
    by apply collapse_chars, replaceBackslashes_clean.
  destruct (_ && _); [now apply removelast_chars | assumption].
Qed.

Lemma prepared_no_backslash s p :
  prepareString s = Some p -> Forall (fun c => c <> backslash) (normalizedPath p).
Proof.
  apply prepareString_chars; [discriminate | discriminate | apply cleanedOf_clean].
Qed.

(** The filesystem path of a resolution is a function of the normalized
    path alone. *)
Lemma resolve_by_normalized cfg a b pa pb ra :
  prepareOperationPath a = Some pa ->
  prepareOperationPath b = Some pb ->
  normalizedPath pb = normalizedPath pa ->
  resolveFsPathFromApiPath cfg a = Normal (Some ra) ->
  resolveFsPathFromApiPath cfg b = Normal (Some (mkResolved pb (fsPath ra))).
Proof.
  intros Ha Hb Hn. unfold resolveFsPathFromApiPath, placeUnderVolume.
  rewrite Ha, Hb, Hn.
  repeat match goal with
         | |- context [if ?c then _ else _] =>
             lazymatch c with
             | context [if _ then _ else _] => fail
             | _ => destruct c eqn:?
             end
         end; try discriminate; intros [= <-]; reflexivity.
Qed.

(** C6, as the code has it.  Resolving the normalized path of a
    resolution gives the same normalized path and the same filesystem
    path, when the normalized path has no white space at its ends and is
    not a separator followed by a drive letter and a colon. *)
Theorem resolution_idempotent_when_trimmed (cfg : Config) (raw : JsVal) (rs : Resolved) :
  resolveFsPathFromApiPath cfg raw = Normal (Some rs) ->
  trim (normalizedPath (prepared rs)) = normalizedPath (prepared rs) ->
  rootedDrive (normalizedPath (prepared rs)) = false ->
  exists rs',
    resolveFsPathFromApiPath cfg (JString (normalizedPath (prepared rs)))
    = Normal (Some rs') /\
    normalizedPath (prepared rs') = normalizedPath (prepared rs) /\
    fsPath rs' = fsPath rs.
Proof.
  intros Hr Ht Hd.
  destruct (resolve_result cfg raw rs Hr) as (Hp & _ & _).
  destruct (prepareOperationPath_shape raw _ Hp) as [Hshape _].
  assert (Hb : Forall (fun c => c <> backslash) (normalizedPath (prepared rs))).
  { destruct raw; try discriminate; eapply prepared_no_backslash; exact Hp. }
  pose proof (prepareString_fixed _ Hshape Ht Hb Hd) as Hfix.
  eexists. split; [|split].
  - eapply (resolve_by_normalized cfg raw (JString _)); [exact Hp | exact Hfix | reflexivity | exact Hr].
  - reflexivity.
  - reflexivity.
Qed.

(** ** When the resolver returns [null] *)


Lemma collapse_noDouble s : noDoubleSlash (collapseSlashes s).
Proof.
  induction s as [|c t IH]; [exact I|].
  simpl collapseSlashes.
  destruct (Ascii.eqb c slash) eqn:Ec.
  - destruct t as [|d t']; [simpl; auto|].
    destruct (Ascii.eqb d slash) eqn:Ed; [exact IH|].
    simpl in IH. rewrite Ed in IH.
    simpl collapseSlashes. rewrite Ed.
    split; [|exact IH].
    intros [_ H]. apply Ascii.eqb_neq in Ed. contradiction.
  - split; [|exact IH].
    destruct (collapseSlashes t); [exact I|].
    intros [H _]. apply Ascii.eqb_neq in Ec. contradiction.
Qed.










Section ThrownInReadRoutes.

Context {FS : Type} {fsops : FileSystem FS}.
Variable cfg : Config.
Variable localeCompare : str -> str -> Z.


End ThrownInReadRoutes.


(** ** Tree builder *)

Section SortOrder.
Variable A : Type.
Variable cmp : A -> A -> Z.
Hypothesis cmp_total : forall a b, (cmp a b <= 0 \/ cmp b a <= 0)%Z.
Hypothesis cmp_trans :
  forall a b c, (cmp a b <= 0 -> cmp b c <= 0 -> cmp a c <= 0)%Z.

Lemma insertBy_sorted x l :
  StronglySorted (leBy cmp) l -> StronglySorted (leBy cmp) (insertBy cmp x l).
Proof.
  induction 1 as [|y t Hs IH Hy]; simpl.
  - repeat constructor.
  - destruct (cmp x y <=? 0)%Z eqn:E.
    + apply Z.leb_le in E. constructor; [now constructor|].
      constructor; [exact E|].
      eapply Forall_impl; [|exact Hy]. intros z Hz. now apply (cmp_trans x y z).
    + apply Z.leb_gt in E. constructor; [exact IH|].
      apply Forall_forall. intros z Hz. apply insertBy_In in Hz as [->|Hz].
      * destruct (cmp_total x y) as [H|H]; [lia | exact H].
      * rewrite Forall_forall in Hy. now apply Hy.
Qed.

Lemma sortBy_sorted l : StronglySorted (leBy cmp) (sortBy cmp l).
Proof.
  induction l as [|x t IH]; simpl; [constructor | now apply insertBy_sorted].
Qed.
End SortOrder.

Lemma StronglySorted_map {A B} (f : A -> B) (R : B -> B -> Prop) l :
  StronglySorted (fun a b => R (f a) (f b)) l -> StronglySorted R (map f l).
Proof.
  induction 1 as [|x t Hs IH Hx]; simpl; constructor; [assumption|].
  apply Forall_map. exact Hx.
Qed.

Lemma StronglySorted_filter {A} (R : A -> A -> Prop) (f : A -> bool) l :
  StronglySorted R l -> StronglySorted R (filter f l).
Proof.
  induction 1 as [|x t Hs IH Hx]; simpl; [constructor|].
  destruct (f x); [|assumption].
  constructor; [assumption|]. apply Forall_forall. intros y Hy.
  apply filter_In in Hy as [Hy _]. rewrite Forall_forall in Hx. now apply Hx.
Qed.

Lemma StronglySorted_weaken {A} (R R' : A -> A -> Prop) l :
  (forall a b, R a b -> R' a b) -> StronglySorted R l -> StronglySorted R' l.
Proof.
  intros Himp. induction 1 as [|x t Hs IH Hx]; constructor; [assumption|].
  eapply Forall_impl; [|exact Hx]. apply Himp.
Qed.

Section TreeFacts.

Context {FS : Type} {fsops : FileSystem FS}.
Variable cfg : Config.
Variable localeCompare : str -> str -> Z.

Hypothesis compare_total :
  forall a b, (localeCompare a b <= 0 \/ localeCompare b a <= 0)%Z.
Hypothesis compare_trans :
  forall a b c,
    (localeCompare a b <= 0 -> localeCompare b c <= 0 -> localeCompare a c <= 0)%Z.

(** The order in which the result is read; the order of the sort
    implies it. *)
Variable order : str -> str -> Z.
Hypothesis order_of_compare :
  forall a b, (localeCompare a b <= 0 -> order a b <= 0)%Z.


Lemma ItemOk_all l :
  (fix all (l : list TreeItem) : Prop :=
     match l with
     | [] => True
     | x :: r => ItemOk order x /\ all r
     end) l <-> Forall (ItemOk order) l.
Proof.
  induction l as [|x r IH]; simpl.
  - split; [constructor | auto].
  - rewrite IH. split; [intros [H1 H2]; now constructor | now inversion 1].
Qed.

Lemma ItemOk_folder p n children :
  ItemOk order (FolderItem p n children) <-> TreeOk order children.
Proof. simpl. unfold TreeOk. now rewrite ItemOk_all. Qed.

(** The loop keeps the entries that are not hidden, in their order. *)
Lemma visit_names recur dir rel entries items :
  visitEntries cfg recur dir rel entries = Some (Normal items) ->
  map itemName items
  = map name (filter (fun e => negb (isHidden (name e))) entries).
Proof.
  revert items. induction entries as [|e rest IH]; intros items; simpl.
  - now intros [= <-].
  - destruct (isHidden (name e)) eqn:Eh; simpl; [apply IH|].
    destruct (direntIsDirectory e).
    + destruct (recur _ _) as [[children|]|]; try discriminate.
      destruct (visitEntries cfg recur dir rel rest) as [[items'|]|]; try discriminate.
      intros [= <-]. simpl. now rewrite (IH items').
    + destruct (visitEntries cfg recur dir rel rest) as [[items'|]|]; try discriminate.
      intros [= <-]. simpl. now rewrite (IH items').
Qed.

Lemma visit_items recur dir rel entries items :
  (forall a r children, recur a r = Some (Normal children) ->
                        TreeOk order children) ->
  visitEntries cfg recur dir rel entries = Some (Normal items) ->
  Forall (ItemOk order) items.
Proof.
  intros Hrec. revert items. induction entries as [|e rest IH]; intros items; simpl.
  - intros [= <-]. constructor.
  - destruct (isHidden (name e)); [apply IH|].
    destruct (direntIsDirectory e).
    + destruct (recur _ _) as [[children|]|] eqn:Er; try discriminate.
      destruct (visitEntries cfg recur dir rel rest) as [[items'|]|]; try discriminate.
      intros [= <-]. constructor; [|now apply IH].
      apply ItemOk_folder. eapply Hrec. exact Er.
    + destruct (visitEntries cfg recur dir rel rest) as [[items'|]|]; try discriminate.
      intros [= <-]. constructor; [exact I | now apply IH].
Qed.

Lemma level_of_names items entries :
  map itemName items
  = map name (filter (fun e => negb (isHidden (name e)))
                     (sortBy (compareNames localeCompare) entries)) ->
  LevelOk order items.
Proof.
  intros Hn. split.
  - apply Forall_forall. intros t Ht.
    apply (in_map itemName) in Ht. rewrite Hn in Ht.
    apply in_map_iff in Ht as (e & <- & He).
    apply filter_In in He as [_ He]. now apply negb_true_iff.
  - rewrite Hn. apply StronglySorted_map, StronglySorted_filter.
    eapply StronglySorted_weaken;
      [|apply (sortBy_sorted _ (compareNames localeCompare))].
    + intros a b. apply order_of_compare.
    + intros a b. apply compare_total.
    + intros a b c. apply compare_trans.
Qed.

(** A tree that is built has no hidden name and is in order at every
    level. *)
Lemma build_ok fuel d dir rel items :
  buildFileTree cfg localeCompare fuel d dir rel = Some (Normal items) -> TreeOk order items.
Proof.
  revert dir rel items. induction fuel as [|fuel IH]; intros dir rel items;
    [discriminate|].
  simpl. destruct (fs_readdir d dir) as [entries|e]; [|discriminate].
  intros H. split.
  - eapply level_of_names, visit_names. exact H.
  - eapply visit_items; [|exact H]. intros a r children. apply IH.
Qed.

(** More fuel does not change a result. *)
Lemma visit_mono (recur recur' : str -> str -> option (Completion (list TreeItem)))
  dir rel entries result :
  (forall a r res, recur a r = Some res -> recur' a r = Some res) ->
  visitEntries cfg recur dir rel entries = Some result ->
  visitEntries cfg recur' dir rel entries = Some result.
Proof.
  intros Hrec. revert result. induction entries as [|e rest IH]; intros result; simpl.
  - auto.
  - destruct (isHidden (name e)); [apply IH|].
    destruct (direntIsDirectory e).
    + destruct (recur _ _) as [[children|err]|] eqn:Er; try discriminate.
      * rewrite (Hrec _ _ _ Er).
        destruct (visitEntries cfg recur dir rel rest) as [res|]; [|discriminate].
        rewrite (IH res eq_refl). auto.
      * rewrite (Hrec _ _ _ Er). auto.
    + destruct (visitEntries cfg recur dir rel rest) as [res|]; [|discriminate].
      rewrite (IH res eq_refl). auto.
Qed.

Lemma build_step fuel d dir rel result :
  buildFileTree cfg localeCompare fuel d dir rel = Some result -> buildFileTree cfg localeCompare (S fuel) d dir rel = Some result.
Proof.
  revert dir rel result. induction fuel as [|fuel IH]; intros dir rel result;
    [discriminate|].
  intros H. simpl in H. simpl.
  destruct (fs_readdir d dir) as [entries|e]; [|exact H].
  eapply visit_mono; [|exact H]. intros a r res. apply IH.
Qed.

Lemma build_mono fuel fuel' d dir rel result :
  fuel <= fuel' ->
  buildFileTree cfg localeCompare fuel d dir rel = Some result -> buildFileTree cfg localeCompare fuel' d dir rel = Some result.
Proof.
  induction 1 as [|m Hle IH]; [auto|]. intros H. now apply build_step, IH.
Qed.

(** With enough fuel for the directories of the entries, the loop ends. *)
Lemma visit_ends fuel d dir rel entries :
  (forall e, In e entries -> isHidden (name e) = false ->
             direntIsDirectory e = true ->
             forall r, exists res, buildFileTree cfg localeCompare fuel d (pjoin [dir; name e]) r = Some res) ->
  exists res, visitEntries cfg (buildFileTree cfg localeCompare fuel d) dir rel entries = Some res.
Proof.
  induction entries as [|e rest IH]; intros Hsub; simpl; [eauto|].
  destruct IH as [res Hres]; [intros; apply Hsub; simpl; auto|].
  destruct (isHidden (name e)) eqn:Eh; [eauto|].
  destruct (direntIsDirectory e) eqn:Ed.
  - destruct (Hsub e (or_introl eq_refl) Eh Ed
                (if negb (isEmpty rel) then pjoin [rel; name e] else name e))
      as [[children|err] Hc]; rewrite Hc; [|eauto].
    rewrite Hres. destruct res; eauto.
  - rewrite Hres. destruct res; eauto.
Qed.

Lemma common_fuel d (dirs : list str) :
  (forall q, In q dirs -> exists fuel, forall r, exists res, buildFileTree cfg localeCompare fuel d q r = Some res) ->
  exists fuel, forall q, In q dirs -> forall r, exists res, buildFileTree cfg localeCompare fuel d q r = Some res.
Proof.
  induction dirs as [|q rest IH]; intros H.
  - exists 0. intros q [].
  - destruct IH as [n Hn]; [intros; apply H; simpl; auto|].
    destruct (H q (or_introl eq_refl)) as [m Hm].
    exists (Nat.max n m). intros q' [<-|Hq] r.
    + destruct (Hm r) as [res Hres]. exists res.
      eapply build_mono; [|exact Hres]. lia.
    + destruct (Hn q' Hq r) as [res Hres]. exists res.
      eapply build_mono; [|exact Hres]. lia.
Qed.

Lemma build_ends d dir :
  Walkable d dir -> exists fuel, forall rel, exists res, buildFileTree cfg localeCompare fuel d dir rel = Some res.
Proof.
  induction 1 as [dir e Hrd | dir entries Hrd Hsub IH].
  - exists 1. intros rel. simpl. rewrite Hrd. eauto.
  - set (dirs := map (fun e => pjoin [dir; name e])
                     (filter (fun e => negb (isHidden (name e)) && direntIsDirectory e)
                             entries)).
    destruct (common_fuel d dirs) as [fuel Hfuel].
    { intros q Hq. apply in_map_iff in Hq as (e & <- & He).
      apply filter_In in He as [He Hc]. apply andb_true_iff in Hc as [Hh Hd].
      apply negb_true_iff in Hh. now apply IH. }
    exists (S fuel). intros rel. simpl. rewrite Hrd.
    apply visit_ends. intros e He Hh Hd r. apply Hfuel.
    apply in_map_iff. exists e. split; [reflexivity|].
    apply filter_In. split; [now apply sortBy_In in He|].
    now rewrite Hh, Hd.
Qed.

End TreeFacts.

(** C9.  For a directory of the disk (one below which the walk ends) the
    tree builder returns, with enough fuel and the same with more: either
    the error of a failed [readdir], or a tree in which, at every depth,
    no name starts with a dot and the siblings stand in ascending order of
    [localeCompare] with [sensitivity: 'base'].  That collation takes no
    account of case, so the siblings are in ascending order of their
    lower-cased names as well. *)
Theorem tree_hides_dot_names_and_is_sorted
  (FS : Type) (fsops : FileSystem FS) (cfg : Config)
  (localeCompare : str -> str -> Z) (d : FS) (dir rel : str) :
  (forall a b, (localeCompare a b <= 0 \/ localeCompare b a <= 0)%Z) ->
  (forall a b c,
      (localeCompare a b <= 0 -> localeCompare b c <= 0 -> localeCompare a c <= 0)%Z) ->
  (forall a b, localeCompare (toLowerCase a) (toLowerCase b) = localeCompare a b) ->
  Walkable d dir ->
  exists fuel result,
    (forall fuel', fuel <= fuel' ->
                   buildFileTree cfg localeCompare fuel' d dir rel = Some result) /\
    (forall items,
        result = Normal items ->
        TreeOk localeCompare items /\
        TreeOk (fun a b => localeCompare (toLowerCase a) (toLowerCase b)) items).
Proof.
  intros Htotal Htrans Hcase Hwalk.
  destruct (build_ends cfg localeCompare d dir Hwalk) as [fuel Hfuel].
  destruct (Hfuel rel) as [result Hres].
  exists fuel, result. split.
  - intros fuel' Hle. eapply build_mono; [exact Hle | exact Hres].
  - intros items ->. split.
    + eapply (build_ok cfg localeCompare Htotal Htrans localeCompare); [auto | exact Hres].
    + eapply (build_ok cfg localeCompare Htotal Htrans); [|exact Hres].
      intros a b. simpl. now rewrite Hcase.
Qed.

(** ** The statements at concrete inputs *)

Lemma resolved_path_inside_volume_witness :
  isAbsolute (cwd cfgVault) = true /\
  resolveFsPathFromApiPath cfgVault (JString (lit "/Vault/notes/a.md"))
  = Normal (Some (resolvedAt "/Vault/notes/a.md" "/vault/notes/a.md")) /\
  (isAbsolute (lit "/vault/notes/a.md") = true /\
   (lit "/vault/notes/a.md" = volResolved cfgVault \/
    exists t, lit "/vault/notes/a.md" = volResolved cfgVault ++ sep ++ t) /\
   (exists rest,
       segmentsOf (lit "/vault/notes/a.md") = segmentsOf (volResolved cfgVault) ++ rest /\
       (lit "/vault/notes/a.md" <> volResolved cfgVault -> rest <> []))).
Proof.
  split; [reflexivity|]. split; [reflexivity|].
  apply (resolved_path_inside_volume cfgVault (JString (lit "/Vault/notes/a.md"))
           (resolvedAt "/Vault/notes/a.md" "/vault/notes/a.md")); reflexivity.
Defined.

(** A sibling of the root whose name starts with the name of the root is
    not inside the root; the resolver places it under the root. *)
Example sibling_is_outside :
  insideVolume cfgVault (lit "/vault-evil/x") = false /\
  showResolved (resolveFsPathFromApiPath cfgVault (JString (lit "/vault-evil/x")))
  = Normal (Some (lit "/vault-evil/x", lit "/vault/vault-evil/x")).
Proof. split; reflexivity. Qed.

Example data_evil_is_outside_data :
  volResolved cfgData = lit "/data" /\
  insideVolume cfgData (lit "/data-evil") = false /\
  insideVolume cfgData (lit "/data2") = false /\
  insideVolume cfgData (lit "/data/evil") = true /\
  showResolved (resolveFsPathFromApiPath cfgData (JString (lit "/data-evil")))
  = Normal (Some (lit "/data-evil", lit "/data/data-evil")).
Proof. repeat split; reflexivity. Qed.

(** C3, as the specification states it, fails: a client that subscribed
    to the collection [Other] receives the event of the collection
    [Haptic]. *)
Lemma broadcast_ignores_subscription :
  let w' := snd (broadcastChange (lit "Haptic") created (lit "/Haptic/a.md")
                   worldOtherSubscriber) in
  let m := mkMessage "file_change" (lit "Haptic") created (lit "/Haptic/a.md")
             (clock worldOtherSubscriber) in
  map collection (clients w') = [JString (lit "Other")] /\
  JString (lit "Other") <> JString (msgCollection m) /\
  map inbox (clients w') = [[m]].
Proof. repeat split. discriminate. Qed.


(** C5, as the specification states it, fails: the [..] of the argument
    is not in the normalized path nor in the filesystem path, it has
    removed the component before it. *)
Lemma dotdot_is_not_kept :
  In dotdotSeg (segmentsOf (lit "/Haptic/a/../b")) /\
  showResolved (resolveFsPathFromApiPath cfg0 (JString (lit "/Haptic/a/../b")))
  = Normal (Some (lit "/Haptic/b", lit "/srv/app/Haptic/b")) /\
  ~ In dotdotSeg (segmentsOf (lit "/Haptic/b")) /\
  ~ In dotdotSeg (segmentsOf (lit "/srv/app/Haptic/b")).
Proof.
  split; [vm_compute; tauto|]. split; [reflexivity|].
  split; vm_compute; intuition discriminate.
Qed.

Lemma dot_segments_are_steps_witness :
  isAbsolute (cwd cfg0) = true /\
  resolveFsPathFromApiPath cfg0 (JString (lit "/Haptic/a/../b"))
  = Normal (Some (mkResolved (mkPrepared (lit "/Haptic/b") (lit "/Haptic/b")
                                (lit "/Haptic/a/../b"))
                             (lit "/srv/app/Haptic/b"))) /\
  ~ In dotdotSeg (segmentsOf (lit "/srv/app/Haptic/b")).
Proof.
  split; [reflexivity|]. split; [reflexivity|].
  apply (dot_segments_are_steps cfg0 (JString (lit "/Haptic/a/../b"))
           (mkResolved (mkPrepared (lit "/Haptic/b") (lit "/Haptic/b")
                          (lit "/Haptic/a/../b"))
                       (lit "/srv/app/Haptic/b")));
    reflexivity.
Defined.

(** C6, as the specification states it, fails: white space before a
    trailing separator stays in the normalized path and is trimmed when
    that path is resolved again. *)
Lemma reresolution_trims :
  ~ ReresolvesToSame cfg0 (JString (lit "/a/b /")).
Proof.
  intros H.
  destruct (H (mkResolved (mkPrepared (lit "/a/b ") (lit "/a/b ") (lit "/a/b /"))
                          (lit "/srv/app/Haptic/a/b ")) eq_refl)
    as (rs' & Hr & Hn & _).
  vm_compute in Hr. injection Hr as <-. vm_compute in Hn. discriminate.
Qed.

(** Neither is a drive letter that comes first after a [..]. *)
Example reresolution_unroots_drive :
  ~ ReresolvesToSame cfg0 (JString (lit "/a/../C:/x")).
Proof.
  intros H.
  destruct (H (mkResolved (mkPrepared (lit "/C:/x") (lit "/C:/x") (lit "/a/../C:/x"))
                          (lit "/srv/app/Haptic/C:/x")) eq_refl)
    as (rs' & Hr & Hn & _).
  vm_compute in Hr. injection Hr as <-. vm_compute in Hn. discriminate.
Qed.

Lemma resolution_idempotent_when_trimmed_witness :
  resolveFsPathFromApiPath cfgVault (JString (lit " \Vault\\notes/./a.md/ "))
  = Normal (Some (mkResolved (mkPrepared (lit "/Vault/notes/a.md") (lit "/Vault/notes/a.md")
                                (lit "\Vault\\notes/./a.md/"))
                             (lit "/vault/notes/a.md"))) /\
  trim (lit "/Vault/notes/a.md") = lit "/Vault/notes/a.md" /\
  rootedDrive (lit "/Vault/notes/a.md") = false /\
  exists rs',
    resolveFsPathFromApiPath cfgVault (JString (lit "/Vault/notes/a.md"))
    = Normal (Some rs') /\
    normalizedPath (prepared rs') = lit "/Vault/notes/a.md" /\
    fsPath rs' = lit "/vault/notes/a.md".
Proof.
  split; [reflexivity|]. split; [reflexivity|]. split; [reflexivity|].
  apply (resolution_idempotent_when_trimmed cfgVault
           (JString (lit " \Vault\\notes/./a.md/ "))
           (mkResolved (mkPrepared (lit "/Vault/notes/a.md") (lit "/Vault/notes/a.md")
                          (lit "\Vault\\notes/./a.md/"))
                       (lit "/vault/notes/a.md")));
    reflexivity.
Defined.

Lemma folder_conflict_leaves_disk_witness :
  isJson (folderReq "/Vault/a.md") = true /\
  resolveFsPathFromApiPath cfgVault (bodyPath (folderReq "/Vault/a.md"))
  = Normal (Some (resolvedAt "/Vault/a.md" "/vault/a.md")) /\
  run (postFolder cfgVault (folderReq "/Vault/a.md")) worldWithFile
  = (json 409
       [("error"%string, JString (lit "A file with the same name already exists"));
        ("path"%string, JString (lit "/Vault/a.md"))],
     logCall (CallStat (lit "/vault/a.md")) worldWithFile).
Proof.
  split; [reflexivity|]. split; [reflexivity|].
  exact (folder_conflict_leaves_disk MemFs.t MemFs.ops cfgVault
           (folderReq "/Vault/a.md") worldWithFile
           (resolvedAt "/Vault/a.md" "/vault/a.md") eq_refl eq_refl).
Defined.

(** The two conflicts and the creation, on the in-memory disk. *)
Example folder_on_directory :
  fst (run (postFolder cfgVault (folderReq "/Vault")) worldWithFile)
  = json 409 [("error"%string, JString (lit "Directory already exists"));
              ("path"%string, JString (lit "/Vault"))].
Proof. reflexivity. Qed.

Example folder_created_with_ancestors :
  let '(r, w) := run (postFolder cfgVault (folderReq "/Vault/x/y/z")) worldWithFile in
  status r = 201 /\
  disk w = disk worldWithFile ++
           [(lit "/vault/x", MemFs.EDir); (lit "/vault/x/y", MemFs.EDir);
            (lit "/vault/x/y/z", MemFs.EDir)] /\
  map msgChangeType (publishedBy worldWithFile w) = [created].
Proof. vm_compute. auto. Qed.

Lemma delete_root_forbidden_witness :
  resolveFsPathFromApiPath cfgVault (firstOfQuery (queryPath (deleteReq "/Vault" "true")))
  = Normal (Some (resolvedAt "/Vault" "/vault")) /\
  fsPath (resolvedAt "/Vault" "/vault") = volResolved cfgVault /\
  run (deleteMarkdown cfgVault (deleteReq "/Vault" "true")) worldWithFile
  = (json 403
       [("error"%string, JString (lit "Cannot delete root directory"));
        ("details"%string,
         JString (lit "Deletion of the root volume directory is not allowed"))],
     logCall (CallStat (volResolved cfgVault)) worldWithFile).
Proof.
  split; [reflexivity|]. split; [reflexivity|].
  destruct (delete_root_forbidden MemFs.t MemFs.ops cfgVault (deleteReq "/Vault" "true")
              worldWithFile (resolvedAt "/Vault" "/vault") eq_refl eq_refl)
    as (_ & Hworld & Hanswer).
  specialize (Hanswer (MemFs.statOf MemFs.EDir) eq_refl).
  apply injective_projections; assumption.
Defined.

Example delete_root_not_recursive :
  status (fst (run (deleteMarkdown cfgVault (deleteReq "/Vault/" "false")) worldWithFile))
  = 403.
Proof. reflexivity. Qed.

Lemma delete_counts_hidden_entries_witness :
  let req := deleteReq "/Vault/notes" "false" in
  let rs := resolvedAt "/Vault/notes" "/vault/notes" in
  let entries := [mkDirent (lit ".keep") false] in
  resolveFsPathFromApiPath cfgVault (firstOfQuery (queryPath req)) = Normal (Some rs) /\
  fs_readdir (disk worldWithHidden) (fsPath rs) = Normal entries /\
  Forall (fun e => isHidden (name e) = true) entries /\
  status (fst (run (deleteMarkdown cfgVault req) worldWithHidden)) = 400 /\
  fst (run (getNames cfgVault Collation.compareFolded req) worldWithHidden)
  = mkResponse 200 (BNames []).
Proof.
  intros req rs entries.
  assert (Hh : Forall (fun e => isHidden (name e) = true) entries)
    by (repeat constructor).
  assert (Hrec : queryRecursive req <> JString (lit "true")) by discriminate.
  assert (Hne : entries <> []) by discriminate.
  assert (Hroot : fsPath rs <> volResolved cfgVault) by discriminate.
  destruct (delete_counts_hidden_entries MemFs.t MemFs.ops cfgVault
              Collation.compareFolded req worldWithHidden rs
              (MemFs.statOf MemFs.EDir) entries
              eq_refl Hroot eq_refl eq_refl eq_refl Hne Hh Hrec) as (Hdel & Hnames & _).
  split; [reflexivity|]. split; [reflexivity|]. split; [exact Hh|].
  split; [now rewrite Hdel | exact Hnames].
Defined.

(** ** The collation of the examples *)

Lemma compareFolded_total a b :
  (Collation.compareFolded a b <= 0 \/ Collation.compareFolded b a <= 0)%Z.
Proof.
  revert b. induction a as [|x a IH]; intros [|y b]; simpl; try lia.
  destruct (Nat.ltb_spec (Collation.fold x) (Collation.fold y));
    destruct (Nat.ltb_spec (Collation.fold y) (Collation.fold x)); try lia.
  apply IH.
Qed.

Lemma compareFolded_trans a b c :
  (Collation.compareFolded a b <= 0 -> Collation.compareFolded b c <= 0 ->
   Collation.compareFolded a c <= 0)%Z.
Proof.
  revert b c. induction a as [|x a IH]; intros [|y b] [|z c]; simpl; try lia.
  destruct (Nat.ltb_spec (Collation.fold x) (Collation.fold y));
    destruct (Nat.ltb_spec (Collation.fold y) (Collation.fold x));
    destruct (Nat.ltb_spec (Collation.fold y) (Collation.fold z));
    destruct (Nat.ltb_spec (Collation.fold z) (Collation.fold y));
    destruct (Nat.ltb_spec (Collation.fold x) (Collation.fold z));
    destruct (Nat.ltb_spec (Collation.fold z) (Collation.fold x));
    try lia.
  apply IH.
Qed.

Lemma toLower_idempotent c : toLower (toLower c) = toLower c.
Proof. destruct c as [[] [] [] [] [] [] [] []]; reflexivity. Qed.

Lemma compareFolded_ignores_case a b :
  Collation.compareFolded (toLowerCase a) (toLowerCase b) = Collation.compareFolded a b.
Proof.
  revert b. induction a as [|x a IH]; intros [|y b]; simpl; try reflexivity.
  unfold Collation.fold. now rewrite !toLower_idempotent, IH.
Qed.

Lemma vault_is_walkable : Walkable (disk worldWithHidden) (lit "/vault").
Proof.
  eapply WalkDown; [reflexivity|].
  intros entry Hin Hh Hd. simpl in Hin.
  repeat (destruct Hin as [<-|Hin]; [try discriminate|]); [| |destruct Hin].
  - eapply WalkDown; [reflexivity|].
    intros entry Hin Hh' Hd'. simpl in Hin.
    repeat (destruct Hin as [<-|Hin]; [try discriminate|]). destruct Hin.
  - eapply WalkDown; [reflexivity|].
    intros entry Hin Hh' Hd'. simpl in Hin.
    repeat (destruct Hin as [<-|Hin]; [try discriminate|]). destruct Hin.
Qed.

(** The tree of the example: the hidden directory and the hidden file are
    left out, [Archive] stands before [b.md] and [A.md] before [z.md]. *)
Example tree_of_vault :
  buildFileTree cfgVault Collation.compareFolded 2 (disk worldWithHidden) (lit "/vault") []
  = Some (Normal
      [FolderItem (lit "/Vault/Archive") (lit "Archive")
         [FileItem (lit "/Vault/Archive/A.md") (lit "A.md");
          FileItem (lit "/Vault/Archive/z.md") (lit "z.md")];
       FileItem (lit "/Vault/b.md") (lit "b.md");
       FolderItem (lit "/Vault/notes") (lit "notes") []]).
Proof. reflexivity. Qed.

Lemma tree_hides_dot_names_and_is_sorted_witness :
  (forall a b, (Collation.compareFolded a b <= 0 \/ Collation.compareFolded b a <= 0)%Z) /\
  Walkable (disk worldWithHidden) (lit "/vault") /\
  exists fuel result,
    (forall fuel', fuel <= fuel' ->
       buildFileTree cfgVault Collation.compareFolded fuel' (disk worldWithHidden)
         (lit "/vault") [] = Some result) /\
    (forall items,
        result = Normal items ->
        TreeOk Collation.compareFolded items /\
        TreeOk (fun a b => Collation.compareFolded (toLowerCase a) (toLowerCase b)) items).
Proof.
  split; [exact compareFolded_total|]. split; [exact vault_is_walkable|].
  exact (tree_hides_dot_names_and_is_sorted MemFs.t MemFs.ops cfgVault
           Collation.compareFolded (disk worldWithHidden) (lit "/vault") []
           compareFolded_total compareFolded_trans compareFolded_ignores_case
           vault_is_walkable).
Defined.

(** ** The file a path names *)

Lemma resolveLoop_acc l acc :
  resolveLoop l acc = (fst (resolveLoop l []) ++ acc, snd (resolveLoop l [])).
Proof.
  revert acc. induction l as [|p rest IH]; intros acc; cbn [resolveLoop].
  - reflexivity.
  - destruct (isEmpty p); [apply IH|].
    destruct (isAbsolute p).
    + cbn [fst snd]. now rewrite <- !app_assoc.
    + rewrite IH, (IH (p ++ sep ++ [])). cbn [fst snd].
      now rewrite <- !app_assoc.
Qed.

Lemma resolveLoop_ends l :
  fst (resolveLoop l []) = [] \/ exists q, fst (resolveLoop l []) = q ++ sep.
Proof.
  induction l as [|p rest IH]; cbn [resolveLoop].
  - now left.
  - destruct (isEmpty p); [exact IH|].
    destruct (isAbsolute p).
    + right. exists p. cbn [fst]. now rewrite app_nil_r.
    + right. rewrite resolveLoop_acc. cbn [fst].
      exists (fst (resolveLoop rest []) ++ p).
      now rewrite app_nil_r, app_assoc.
Qed.

Lemma segmentsOf_snoc_sep q : segmentsOf (q ++ sep) = segmentsOf q.
Proof.
  change (q ++ sep) with (q ++ slash :: []).
  now rewrite segmentsOf_app, segmentsOf_nil, app_nil_r.
Qed.

Lemma resolve_segments cwd args :
  isAbsolute cwd = true ->
  resolve cwd args
  = sep ++ join sep (normalizeSegments false
                       (segmentsOf (fst (resolveLoop (rev args ++ [cwd]) [])))).
Proof.
  intros Hcwd. unfold resolve.
  pose proof (resolveLoop_absolute cwd (rev args) [] Hcwd) as Habs.
  destruct (resolveLoop (rev args ++ [cwd]) []) as [p abs]. cbn [fst snd] in *.
  subst abs. cbn [negb]. now rewrite normalizeString_segments.
Qed.

Lemma walkFrom_normalize a r :
  normalizeSegments false (a ++ r) = walkFrom (normalizeSegments false a) r.
Proof.
  unfold walkFrom, normalizeSegments.
  now rewrite fold_left_app, rev_involutive.
Qed.

Lemma walkFrom_plain start r :
  Forall plainSeg r -> walkFrom start r = start ++ r.
Proof.
  intros Hr. unfold walkFrom.
  now rewrite fold_push_plain, rev_app_distr, !rev_involutive.
Qed.

(** [path.resolve(a, b)] for a relative [b]: the components of
    [path.resolve(a)], walked along the segments of [b]. *)
Lemma resolve_under cwd v rel :
  isAbsolute cwd = true -> isAbsolute rel = false ->
  resolve cwd [v; rel]
  = sep ++ join sep (walkFrom (segmentsOf (resolve cwd [v])) (segmentsOf rel)).
Proof.
  intros Hcwd Hrel.
  rewrite (resolve_segments cwd [v] Hcwd), (resolve_segments cwd [v; rel] Hcwd).
  rewrite segmentsOf_root_join
    by (apply normalizeSegments_good, segmentsOf_good).
  change (rev [v; rel] ++ [cwd]) with (rel :: (rev [v] ++ [cwd])).
  cbn [resolveLoop]. rewrite Hrel.
  destruct (isEmpty rel) eqn:He.
  - apply isEmpty_true in He. subst rel.
    rewrite segmentsOf_nil. unfold walkFrom. cbn [fold_left].
    now rewrite rev_involutive.
  - rewrite resolveLoop_acc. cbn [fst]. rewrite app_nil_r.
    destruct (resolveLoop_ends (rev [v] ++ [cwd])) as [E | [q E]]; rewrite E.
    + cbn [app]. rewrite segmentsOf_snoc_sep, segmentsOf_nil.
      now rewrite <- walkFrom_normalize.
    + rewrite <- app_assoc.
      change (q ++ sep ++ rel ++ sep) with (q ++ slash :: (rel ++ sep)).
      rewrite segmentsOf_app, !segmentsOf_snoc_sep.
      apply f_equal, f_equal, walkFrom_normalize.
Qed.

Lemma join_app a r :
  a <> [] -> r <> [] -> join sep (a ++ r) = join sep a ++ sep ++ join sep r.
Proof.
  intros Ha Hr. induction a as [|w ws IH]; [congruence|].
  destruct ws as [|w' ws'].
  - cbn [app]. rewrite (join_cons w r Hr). reflexivity.
  - change ((w :: w' :: ws') ++ r) with (w :: ((w' :: ws') ++ r)).
    rewrite (join_cons w ((w' :: ws') ++ r)) by discriminate.
    rewrite (join_cons w (w' :: ws')) by discriminate.
    rewrite IH by discriminate. now rewrite <- !app_assoc.
Qed.

Lemma volResolved_shape cfg :
  isAbsolute (cwd cfg) = true ->
  volResolved cfg = sep ++ join sep (segmentsOf (volResolved cfg)) /\
  Forall goodSeg (segmentsOf (volResolved cfg)) /\
  Forall plainSeg (segmentsOf (volResolved cfg)).
Proof.
  intros Hcwd. unfold volResolved.
  destruct (resolve_normal (cwd cfg) [VOLUME_PATH cfg] Hcwd) as (l & E & Hn & Hg).
  rewrite E, (segmentsOf_root_join l Hg). repeat split; [exact Hg|].
  destruct Hn as (k & T & El & HT & Hk). rewrite (Hk eq_refl) in El.
  now subst l.
Qed.

Lemma volResolved_segments cfg :
  isAbsolute (cwd cfg) = true -> volResolved cfg <> sep ->
  segmentsOf (volResolved cfg) <> [].
Proof.
  intros Hcwd Hv E. apply Hv.
  destruct (volResolved_shape cfg Hcwd) as (Es & _). rewrite Es, E. reflexivity.
Qed.

Lemma join_under cfg r :
  isAbsolute (cwd cfg) = true ->
  r = [] \/ volResolved cfg <> sep ->
  sep ++ join sep (segmentsOf (volResolved cfg) ++ r)
  = join sep (volResolved cfg :: r).
Proof.
  intros Hcwd Hr.
  destruct (volResolved_shape cfg Hcwd) as (Es & _).
  destruct r as [|w r'].
  - rewrite app_nil_r, <- Es. reflexivity.
  - destruct Hr as [Hr | Hv]; [discriminate|].
    rewrite (join_app _ (w :: r')) by
      (try discriminate; now apply volResolved_segments).
    rewrite (join_cons (volResolved cfg) (w :: r')) by discriminate.
    rewrite Es at 2. now rewrite <- !app_assoc.
Qed.

(** The end of the resolver for a relative path of plain segments: the
    file lies under the volume, at those segments. *)
Lemma placeUnder_plain cfg p rel :
  isAbsolute (cwd cfg) = true -> isAbsolute rel = false ->
  Forall plainSeg (segmentsOf rel) ->
  segmentsOf rel = [] \/ volResolved cfg <> sep ->
  placeUnderVolume cfg p rel
  = Normal (Some (mkResolved p (join sep (volResolved cfg :: segmentsOf rel)))).
Proof.
  intros Hcwd Hrel Hplain Hr. unfold placeUnderVolume.
  rewrite (resolve_under (cwd cfg) (VOLUME_PATH cfg) rel Hcwd Hrel).
  change (resolve (cwd cfg) [VOLUME_PATH cfg]) with (volResolved cfg).
  rewrite (walkFrom_plain _ _ Hplain), (join_under cfg _ Hcwd Hr).
  assert (Hin : insideVolume cfg (join sep (volResolved cfg :: segmentsOf rel)) = true).
  { apply insideVolume_spec. destruct (segmentsOf rel) as [|w r'].
    - now left.
    - right. exists (join sep (w :: r')).
      now rewrite (join_cons (volResolved cfg) (w :: r')). }
  now rewrite Hin.
Qed.

(** With the volume at the root of the filesystem, the containment test
    fails below the root. *)
Lemma placeUnder_slash cfg p rel :
  isAbsolute (cwd cfg) = true -> isAbsolute rel = false ->
  Forall plainSeg (segmentsOf rel) -> segmentsOf rel <> [] ->
  volResolved cfg = sep ->
  placeUnderVolume cfg p rel = Throws escapesVolume.
Proof.
  intros Hcwd Hrel Hplain Hne Hv. unfold placeUnderVolume.
  rewrite (resolve_under (cwd cfg) (VOLUME_PATH cfg) rel Hcwd Hrel).
  change (resolve (cwd cfg) [VOLUME_PATH cfg]) with (volResolved cfg).
  rewrite (walkFrom_plain _ _ Hplain), Hv.
  change (segmentsOf sep) with (@nil str). cbn [app].
  assert (Hout : insideVolume cfg (sep ++ join sep (segmentsOf rel)) = false).
  { destruct (insideVolume cfg (sep ++ join sep (segmentsOf rel))) eqn:Hin;
      [|reflexivity].
    apply insideVolume_spec in Hin. rewrite Hv in Hin.
    destruct Hin as [E | [t E]].
    - change (slash :: join sep (segmentsOf rel) = [slash]) in E.
      injection E as E. now apply join_nonempty in E; [|apply segmentsOf_good|].
    - change (slash :: join sep (segmentsOf rel) = slash :: slash :: t) in E.
      injection E as E.
      pose proof (join_isAbsolute (segmentsOf rel) (segmentsOf_good rel)) as Hj.
      rewrite E in Hj. cbn in Hj. discriminate. }
  now rewrite Hout.
Qed.

Lemma cleanSeg_good l : Forall cleanSeg l -> Forall goodSeg l.
Proof. apply Forall_impl. now intros s (H & _). Qed.

Lemma cleanSeg_plain l : Forall cleanSeg l -> Forall plainSeg l.
Proof. apply Forall_impl. now intros s (_ & H & _). Qed.

Lemma cleanSeg_chars l :
  Forall cleanSeg l -> Forall (fun c => c <> backslash) (join sep l).
Proof.
  intros H. apply join_chars; [discriminate|].
  revert H. apply Forall_impl. now intros s (_ & _ & H).
Qed.

Lemma plain_normalForm b l : Forall plainSeg l -> NormalForm b l.
Proof. intros H. exists 0, l. now repeat split. Qed.

Lemma skipn_prefix {A} (a b : list A) : skipn (List.length a) (a ++ b) = b.
Proof. induction a; [reflexivity | exact IHa]. Qed.

Lemma normal_absolute_inv n :
  NormalPath n -> isAbsolute n = true ->
  exists l, n = sep ++ join sep l /\ Forall plainSeg l /\ Forall goodSeg l.
Proof.
  intros Hn Habs. destruct Hn as [l Hf Hg | l Hf Hg Hne |].
  - exists l. repeat split; [|exact Hg].
    destruct Hf as (k & T & E & HT & Hk). rewrite (Hk eq_refl) in E. now subst l.
  - rewrite (join_isAbsolute l Hg) in Habs. discriminate.
  - discriminate.
Qed.

Lemma normal_relative_inv n :
  NormalPath n -> isAbsolute n = false ->
  n = dotSeg \/
  exists l, n = join sep l /\ NormalForm true l /\ Forall goodSeg l /\ l <> [].
Proof.
  intros Hn Hrel. destruct Hn as [l Hf Hg | l Hf Hg Hne |].
  - now rewrite isAbsolute_root in Hrel.
  - right. now exists l.
  - now left.
Qed.

(** [path.resolve] of a normal absolute path is that path. *)
Lemma resolve_fixed cwd l :
  Forall goodSeg l -> Forall plainSeg l ->
  resolve cwd (@cons str (sep ++ join sep l) []) = sep ++ join sep l.
Proof.
  intros Hg Hp. unfold resolve.
  change (rev [sep ++ join sep l] ++ [cwd]) with [sep ++ join sep l; cwd].
  change (resolveLoop [sep ++ join sep l; cwd] [])
    with ((sep ++ join sep l) ++ sep ++ [], true).
  cbv iota beta. cbn [negb].
  rewrite normalizeString_segments, app_nil_r, segmentsOf_snoc_sep.
  rewrite (segmentsOf_root_join l Hg).
  now rewrite (normalizeSegments_fixed false l (plain_normalForm false l Hp)).
Qed.

(** The resolver on a path that is already normal: the normalized path is
    the input, and the four cases follow. *)
Lemma resolve_of_normal cfg n :
  NormalPath n -> trim n = n -> Forall (fun c => c <> backslash) n ->
  rootedDrive n = false ->
  resolveFsPathFromApiPath cfg (JString n)
  = let prepared := mkPrepared n n n in
    let apiPrefix := sep ++ ROOT_NAME cfg in
    if str_eqb n apiPrefix then placeUnderVolume cfg prepared []
    else if startsWith (apiPrefix ++ sep) n then
      placeUnderVolume cfg prepared (sliceFrom (List.length apiPrefix + 1) n)
    else if isAbsolute n then
      if insideVolume cfg (resolve (cwd cfg) [n])
      then Normal (Some (mkResolved prepared (resolve (cwd cfg) [n])))
      else placeUnderVolume cfg prepared (dropLeadingSlash n)
    else placeUnderVolume cfg prepared n.
Proof.
  intros Hn Ht Hb Hd. unfold resolveFsPathFromApiPath.
  cbn [prepareOperationPath]. rewrite (prepareString_fixed n Hn Ht Hb Hd).
  cbn [normalizedPath]. now rewrite (replaceBackslashes_id n Hb).
Qed.

Lemma toApiPath_join cfg l :
  Forall goodSeg l -> toApiPath cfg (join sep l) = sep ++ join sep (ROOT_NAME cfg :: l).
Proof.
  intros Hg. unfold toApiPath. rewrite (segmentsOf_join l Hg).
  change (lit "/") with sep. destruct l as [|w l'].
  - reflexivity.
  - rewrite (isEmpty_false_of (join sep (w :: l')))
      by (apply join_nonempty; [exact Hg | discriminate]).
    now rewrite (join_cons (ROOT_NAME cfg) (w :: l')).
Qed.

Lemma api_path_normal cfg l :
  cleanSeg (ROOT_NAME cfg) -> hasWindowsDrive (ROOT_NAME cfg) = false ->
  Forall cleanSeg l ->
  NormalPath (sep ++ join sep (ROOT_NAME cfg :: l)) /\
  Forall (fun c => c <> backslash) (sep ++ join sep (ROOT_NAME cfg :: l)) /\
  rootedDrive (sep ++ join sep (ROOT_NAME cfg :: l)) = false.
Proof.
  intros Hroot Hdrive Hl.
  assert (Hall : Forall cleanSeg (ROOT_NAME cfg :: l)) by now constructor.
  split; [|split].
  - apply NormalAbsolute; [apply plain_normalForm, cleanSeg_plain|apply cleanSeg_good];
      exact Hall.
  - apply Forall_app. split; [repeat constructor; discriminate|].
    now apply cleanSeg_chars.
  - unfold rootedDrive.
    rewrite (segmentsOf_root_join _ (cleanSeg_good _ Hall)), Hdrive.
    apply andb_false_r.
Qed.

(** The API path of a relative path of clean names resolves to that path
    under the volume. *)
Lemma api_resolves cfg l :
  isAbsolute (cwd cfg) = true ->
  volResolved cfg <> sep ->
  cleanSeg (ROOT_NAME cfg) -> hasWindowsDrive (ROOT_NAME cfg) = false ->
  Forall cleanSeg l ->
  trim (toApiPath cfg (join sep l)) = toApiPath cfg (join sep l) ->
  resolveFsPathFromApiPath cfg (JString (toApiPath cfg (join sep l)))
  = Normal (Some (mkResolved
                    (mkPrepared (toApiPath cfg (join sep l))
                                (toApiPath cfg (join sep l))
                                (toApiPath cfg (join sep l)))
                    (join sep (volResolved cfg :: l)))).
Proof.
  intros Hcwd Hv Hroot Hdrive Hl.
  rewrite (toApiPath_join cfg l (cleanSeg_good l Hl)). intros Ht.
  destruct (api_path_normal cfg l Hroot Hdrive Hl) as (Hn & Hb & Hd).
  rewrite (resolve_of_normal cfg _ Hn Ht Hb Hd). cbv zeta.
  destruct l as [|w l'].
  - change (sep ++ join sep [ROOT_NAME cfg]) with (sep ++ ROOT_NAME cfg).
    rewrite str_eqb_refl.
    rewrite (placeUnder_plain cfg _ [] Hcwd eq_refl) by (now constructor || now left).
    reflexivity.
  - rewrite (join_cons (ROOT_NAME cfg) (w :: l')) by discriminate.
    rewrite app_assoc.
    replace (str_eqb ((sep ++ ROOT_NAME cfg) ++ sep ++ join sep (w :: l'))
                     (sep ++ ROOT_NAME cfg)) with false.
    2:{ symmetry. apply str_eqb_neq. intros E.
        rewrite <- (app_nil_r (sep ++ ROOT_NAME cfg)) in E at 2.
        apply app_inv_head in E. discriminate. }
    rewrite (app_assoc (sep ++ ROOT_NAME cfg) sep), startsWith_prefix.
    unfold sliceFrom.
    replace (List.length (sep ++ ROOT_NAME cfg) + 1)
      with (List.length ((sep ++ ROOT_NAME cfg) ++ sep))
      by (rewrite (length_app (sep ++ ROOT_NAME cfg) sep); reflexivity).
    rewrite skipn_prefix.
    pose proof (segmentsOf_join (w :: l') (cleanSeg_good _ Hl)) as Es.
    rewrite (placeUnder_plain cfg _ (join sep (w :: l')) Hcwd).
    + now rewrite Es.
    + apply join_isAbsolute, cleanSeg_good, Hl.
    + rewrite Es. apply cleanSeg_plain, Hl.
    + now right.
Qed.

(** X1: the API path that [toApiPath] gives for a relative path of clean
    names resolves to that path under the volume, and is its own
    normalized path. *)
Theorem api_path_resolves_under_volume (cfg : Config) (l : list str) :
  isAbsolute (cwd cfg) = true ->
  volResolved cfg <> sep ->
  cleanSeg (ROOT_NAME cfg) -> hasWindowsDrive (ROOT_NAME cfg) = false ->
  Forall cleanSeg l ->
  trim (toApiPath cfg (join sep l)) = toApiPath cfg (join sep l) ->
  resolveFsPathFromApiPath cfg (JString (toApiPath cfg (join sep l)))
  = Normal (Some (mkResolved
                    (mkPrepared (toApiPath cfg (join sep l))
                                (toApiPath cfg (join sep l))
                                (toApiPath cfg (join sep l)))
                    (join sep (volResolved cfg :: l)))).
Proof. apply api_resolves. Qed.

Lemma relative_not_api cfg n :
  isAbsolute n = false ->
  str_eqb n (sep ++ ROOT_NAME cfg) = false /\
  startsWith ((sep ++ ROOT_NAME cfg) ++ sep) n = false.
Proof.
  intros Hrel. split.
  - apply str_eqb_neq. intros E. now rewrite E, isAbsolute_root in Hrel.
  - destruct (startsWith ((sep ++ ROOT_NAME cfg) ++ sep) n) eqn:Hs; [|reflexivity].
    apply startsWith_exists in Hs. destruct Hs as [t E].
    now rewrite E, <- !app_assoc, isAbsolute_root in Hrel.
Qed.

(** X2: a relative path of clean names, without white space at its ends,
    resolves to the same names under the volume. *)
Theorem relative_path_resolves_under_volume (cfg : Config) (l : list str) :
  isAbsolute (cwd cfg) = true ->
  volResolved cfg <> sep ->
  l <> [] -> Forall cleanSeg l ->
  trim (join sep l) = join sep l ->
  resolveFsPathFromApiPath cfg (JString (join sep l))
  = Normal (Some (mkResolved
                    (mkPrepared (join sep l) (join sep l) (join sep l))
                    (join sep (volResolved cfg :: l)))).
Proof.
  intros Hcwd Hv Hne Hl Ht.
  pose proof (cleanSeg_good l Hl) as Hg.
  pose proof (join_isAbsolute l Hg) as Hrel.
  rewrite (resolve_of_normal cfg (join sep l)); [| | exact Ht | |].
  - cbv zeta. destruct (relative_not_api cfg (join sep l) Hrel) as (E1 & E2).
    rewrite E1, E2, Hrel.
    rewrite (placeUnder_plain cfg _ (join sep l) Hcwd Hrel).
    + now rewrite (segmentsOf_join l Hg).
    + rewrite (segmentsOf_join l Hg). apply cleanSeg_plain, Hl.
    + now right.
  - apply NormalRelative; [apply plain_normalForm, cleanSeg_plain, Hl | exact Hg | exact Hne].
  - apply cleanSeg_chars, Hl.
  - unfold rootedDrive. now rewrite startsWith_sep, Hrel.
Qed.

Lemma segmentsOf_seg w : goodSeg w -> segmentsOf w = [w].
Proof.
  intros Hw. apply (segmentsOf_join [w]). now constructor.
Qed.

Lemma absolute_not_api cfg l :
  goodSeg (ROOT_NAME cfg) -> Forall goodSeg l -> hd [] l <> ROOT_NAME cfg ->
  str_eqb (sep ++ join sep l) (sep ++ ROOT_NAME cfg) = false /\
  startsWith ((sep ++ ROOT_NAME cfg) ++ sep) (sep ++ join sep l) = false.
Proof.
  intros Hroot Hg Hhd. split.
  - apply str_eqb_neq. intros E. apply Hhd.
    apply (f_equal segmentsOf) in E.
    rewrite (segmentsOf_root_join l Hg), segmentsOf_sep, (segmentsOf_seg _ Hroot) in E.
    now subst l.
  - destruct (startsWith ((sep ++ ROOT_NAME cfg) ++ sep) (sep ++ join sep l)) eqn:Hs;
      [|reflexivity].
    apply startsWith_exists in Hs. destruct Hs as [t E]. exfalso. apply Hhd.
    apply (f_equal segmentsOf) in E.
    rewrite (segmentsOf_root_join l Hg), <- !app_assoc, segmentsOf_sep in E.
    change (ROOT_NAME cfg ++ sep ++ t) with (ROOT_NAME cfg ++ slash :: t) in E.
    rewrite segmentsOf_app, (segmentsOf_seg _ Hroot) in E. now subst l.
Qed.

(** X3: an absolute path of clean names whose first name is not
    [ROOT_NAME] is kept when it lies in the volume already, and is placed
    under the volume otherwise. *)
Theorem absolute_path_kept_or_placed (cfg : Config) (l : list str) :
  isAbsolute (cwd cfg) = true ->
  volResolved cfg <> sep ->
  goodSeg (ROOT_NAME cfg) ->
  l <> [] -> Forall cleanSeg l ->
  hd [] l <> ROOT_NAME cfg -> hasWindowsDrive (hd [] l) = false ->
  trim (sep ++ join sep l) = sep ++ join sep l ->
  resolveFsPathFromApiPath cfg (JString (sep ++ join sep l))
  = Normal (Some (mkResolved
                    (mkPrepared (sep ++ join sep l) (sep ++ join sep l)
                                (sep ++ join sep l))
                    (if insideVolume cfg (sep ++ join sep l)
                     then sep ++ join sep l
                     else volResolved cfg ++ sep ++ join sep l))).
Proof.
  intros Hcwd Hv Hroot Hne Hl Hhd Hdrive Ht.
  pose proof (cleanSeg_good l Hl) as Hg.
  pose proof (cleanSeg_plain l Hl) as Hp.
  rewrite (resolve_of_normal cfg (sep ++ join sep l)); [| | exact Ht | |].
  - cbv zeta. destruct (absolute_not_api cfg l Hroot Hg Hhd) as (E1 & E2).
    rewrite E1, E2, isAbsolute_root, (resolve_fixed (cwd cfg) l Hg Hp).
    destruct (insideVolume cfg (sep ++ join sep l)); [reflexivity|].
    change (dropLeadingSlash (sep ++ join sep l)) with (join sep l).
    rewrite (placeUnder_plain cfg _ (join sep l) Hcwd (join_isAbsolute l Hg)).
    + rewrite (segmentsOf_join l Hg), (join_cons (volResolved cfg) l Hne).
      reflexivity.
    + now rewrite (segmentsOf_join l Hg).
    + now right.
  - apply NormalAbsolute; [apply plain_normalForm, Hp | exact Hg].
  - apply Forall_app. split; [repeat constructor; discriminate|].
    apply cleanSeg_chars, Hl.
  - unfold rootedDrive. rewrite (segmentsOf_root_join l Hg).
    destruct l as [|w l']; [congruence|]. cbn [hd] in Hdrive. rewrite Hdrive.
    apply andb_false_r.
Qed.

Lemma noDouble_after_slash a t :
  noDoubleSlash (a ++ slash :: t) -> isAbsolute t = false.
Proof.
  induction a as [|x a' IH]; intros H.
  - destruct t as [|b t']; [reflexivity|]. cbn in H. destruct H as (H & _).
    cbn. apply ascii_eqb_slash. intros E. now apply H.
  - apply IH. change ((x :: a') ++ slash :: t) with (x :: (a' ++ slash :: t)) in H.
    cbn [noDoubleSlash] in H. exact (proj2 H).
Qed.

Lemma placeUnder_dot cfg p :
  isAbsolute (cwd cfg) = true ->
  placeUnderVolume cfg p dotSeg = Normal (Some (mkResolved p (volResolved cfg))).
Proof.
  intros Hcwd. unfold placeUnderVolume.
  rewrite (resolve_under (cwd cfg) (VOLUME_PATH cfg) dotSeg Hcwd eq_refl).
  change (resolve (cwd cfg) [VOLUME_PATH cfg]) with (volResolved cfg).
  change (segmentsOf dotSeg) with [dotSeg]. unfold walkFrom.
  change (fold_left (pushSegment false) [dotSeg] (rev (segmentsOf (volResolved cfg))))
    with (rev (segmentsOf (volResolved cfg))).
  rewrite rev_involutive, <- (proj1 (volResolved_shape cfg Hcwd)).
  unfold insideVolume. now rewrite str_eqb_refl, orb_true_r.
Qed.

Lemma placeUnder_throws cfg p rel e :
  placeUnderVolume cfg p rel = Throws e -> e = escapesVolume.
Proof.
  unfold placeUnderVolume.
  destruct (insideVolume cfg _); cbn; congruence.
Qed.

(** X4: with the volume not at the root of the filesystem, the resolver
    throws only for a relative path whose normalized form begins with a
    parent step; a path that begins with a separator never throws. *)
Theorem resolver_throws_only_above (cfg : Config) (raw : JsVal) (e : JsError) :
  isAbsolute (cwd cfg) = true ->
  volResolved cfg <> sep ->
  resolveFsPathFromApiPath cfg raw = Throws e ->
  e = escapesVolume /\
  exists p rest,
    prepareOperationPath raw = Some p /\
    isAbsolute (normalizedPath p) = false /\
    segmentsOf (normalizedPath p) = dotdotSeg :: rest.
Proof.
  intros Hcwd Hv. unfold resolveFsPathFromApiPath.
  destruct (prepareOperationPath raw) as [p|] eqn:Hp; [|discriminate].
  destruct (prepareOperationPath_shape raw p Hp) as (Hn & _).
  assert (Hb : Forall (fun c => c <> backslash) (normalizedPath p)).
  { destruct raw; try discriminate; cbn in Hp;
      now apply prepared_no_backslash in Hp. }
  rewrite (replaceBackslashes_id _ Hb). cbv zeta.
  destruct (str_eqb (normalizedPath p) (sep ++ ROOT_NAME cfg)) eqn:E1.
  { rewrite (placeUnder_plain cfg p [] Hcwd eq_refl) by (now constructor || now left).
    discriminate. }
  destruct (startsWith ((sep ++ ROOT_NAME cfg) ++ sep) (normalizedPath p)) eqn:E2.
  { apply startsWith_exists in E2. destruct E2 as [t E]. rewrite E. unfold sliceFrom.
    replace (List.length (sep ++ ROOT_NAME cfg) + 1)
      with (List.length ((sep ++ ROOT_NAME cfg) ++ sep))
      by (rewrite (length_app (sep ++ ROOT_NAME cfg) sep); reflexivity).
    rewrite skipn_prefix.
    assert (Habs : isAbsolute (normalizedPath p) = true)
      by now rewrite E, <- !app_assoc, isAbsolute_root.
    destruct (normal_absolute_inv _ Hn Habs) as (l & El & Hpl & Hg).
    assert (Es : l = segmentsOf (sep ++ ROOT_NAME cfg) ++ segmentsOf t).
    { rewrite <- (segmentsOf_root_join l Hg), <- El, E, <- app_assoc.
      apply (segmentsOf_app (sep ++ ROOT_NAME cfg) t). }
    rewrite (placeUnder_plain cfg p t Hcwd); [discriminate| | |now right].
    - apply (noDouble_after_slash (sep ++ ROOT_NAME cfg)).
      pose proof (collapse_noDouble (normalizedPath p)) as Hd.
      rewrite (collapse_normal _ Hn), E, <- app_assoc in Hd. exact Hd.
    - rewrite Es in Hpl. now apply Forall_app in Hpl. }
  destruct (isAbsolute (normalizedPath p)) eqn:Habs.
  { destruct (insideVolume cfg (resolve (cwd cfg) [normalizedPath p]));
      [discriminate|].
    destruct (normal_absolute_inv _ Hn Habs) as (l & El & Hpl & Hg). rewrite El.
    change (dropLeadingSlash (sep ++ join sep l)) with (join sep l).
    rewrite (placeUnder_plain cfg p (join sep l) Hcwd (join_isAbsolute l Hg));
      [discriminate| |now right].
    now rewrite (segmentsOf_join l Hg). }
  destruct (normal_relative_inv _ Hn Habs) as [Ed | (l & El & Hf & Hg & Hne)].
  { rewrite Ed, (placeUnder_dot cfg p Hcwd). discriminate. }
  destruct Hf as (k & T & Ek & HT & _). destruct k as [|k'].
  { cbn [repeat app] in Ek. subst l. rewrite El.
    rewrite (placeUnder_plain cfg p (join sep T) Hcwd (join_isAbsolute T Hg));
      [discriminate| |now right].
    now rewrite (segmentsOf_join T Hg). }
  intros Hthrow. split; [exact (placeUnder_throws cfg p _ e Hthrow)|].
  exists p, (repeat dotdotSeg k' ++ T).
  split; [reflexivity|]. split; [exact Habs|].
  rewrite El, (segmentsOf_join l Hg), Ek. reflexivity.
Qed.

(** X5: with the volume at the root of the filesystem, the only file a
    resolution returns is the root itself, and every relative path of
    clean names is rejected as an escape. *)
Theorem volume_at_filesystem_root (cfg : Config) :
  isAbsolute (cwd cfg) = true ->
  volResolved cfg = sep ->
  (forall raw rs,
      resolveFsPathFromApiPath cfg raw = Normal (Some rs) -> fsPath rs = sep) /\
  (forall l,
      l <> [] -> Forall cleanSeg l -> trim (join sep l) = join sep l ->
      resolveFsPathFromApiPath cfg (JString (join sep l)) = Throws escapesVolume).
Proof.
  intros Hcwd Hv. split.
  - intros raw rs Hr.
    destruct (resolve_result cfg raw rs Hr) as (_ & Hin & args & Eargs).
    apply insideVolume_spec in Hin. rewrite Hv in Hin.
    destruct Hin as [E | [t E]]; [exact E|].
    destruct (resolve_normal (cwd cfg) args Hcwd) as (l & El & _ & Hg).
    rewrite Eargs, El in E.
    change (slash :: join sep l = slash :: slash :: t) in E. injection E as E.
    pose proof (join_isAbsolute l Hg) as Hj. rewrite E in Hj. discriminate.
  - intros l Hne Hl Ht.
    pose proof (cleanSeg_good l Hl) as Hg.
    pose proof (join_isAbsolute l Hg) as Hrel.
    rewrite (resolve_of_normal cfg (join sep l)); [| | exact Ht | |].
    + cbv zeta. destruct (relative_not_api cfg (join sep l) Hrel) as (E1 & E2).
      rewrite E1, E2, Hrel.
      apply (placeUnder_slash cfg _ (join sep l) Hcwd Hrel); [| |exact Hv];
        rewrite (segmentsOf_join l Hg); [apply cleanSeg_plain, Hl | exact Hne].
    + apply NormalRelative;
        [apply plain_normalForm, cleanSeg_plain, Hl | exact Hg | exact Hne].
    + apply cleanSeg_chars, Hl.
    + unfold rootedDrive. now rewrite startsWith_sep, Hrel.
Qed.

(** ** Spellings of the same path *)

Lemma trimStart_map (f : ascii -> ascii) s :
  (forall c, isWhiteSpace (f c) = isWhiteSpace c) ->
  trimStart (map f s) = map f (trimStart s).
Proof.
  intros Hf. induction s as [|c t IH]; [reflexivity|].
  cbn [map trimStart]. rewrite Hf. destruct (isWhiteSpace c); [exact IH | reflexivity].
Qed.

Lemma trim_map (f : ascii -> ascii) s :
  (forall c, isWhiteSpace (f c) = isWhiteSpace c) ->
  trim (map f s) = map f (trim s).
Proof.
  intros Hf. unfold trim, trimEnd.
  now rewrite (trimStart_map f s Hf), <- map_rev, (trimStart_map f _ Hf), map_rev.
Qed.

Lemma trim_replaceBackslashes s :
  trim (replaceBackslashes s) = replaceBackslashes (trim s).
Proof.
  apply trim_map. intros c. destruct (Ascii.eqb c backslash) eqn:E; [|reflexivity].
  apply Ascii.eqb_eq in E. now subst c.
Qed.

Lemma trimStart_splits s : exists ws, s = ws ++ trimStart s.
Proof.
  induction s as [|c t [ws IH]]; [now exists []|].
  cbn [trimStart]. destruct (isWhiteSpace c).
  - exists (c :: ws). cbn [app]. now rewrite <- IH.
  - now exists [].
Qed.

Lemma trimStart_idempotent s : trimStart (trimStart s) = trimStart s.
Proof.
  induction s as [|c t IH]; [reflexivity|].
  cbn [trimStart]. destruct (isWhiteSpace c) eqn:E; [exact IH|].
  cbn [trimStart]. now rewrite E.
Qed.

Lemma trimStart_prefix a b :
  trimStart (a ++ b) = a ++ b -> trimStart a = a.
Proof.
  destruct a as [|c t]; [reflexivity|]. cbn [app trimStart].
  destruct (isWhiteSpace c); [|reflexivity].
  intros E. exfalso.
  destruct (trimStart_splits (t ++ b)) as [ws Ews].
  apply (f_equal (@List.length ascii)) in E. apply (f_equal (@List.length ascii)) in Ews.
  rewrite (length_app ws) in Ews. cbn [List.length] in E. lia.
Qed.

Lemma trim_idempotent s : trim (trim s) = trim s.
Proof.
  unfold trim.
  assert (E : trimStart (trimEnd (trimStart s)) = trimEnd (trimStart s)).
  { destruct (trimStart_splits (rev (trimStart s))) as [ws Ews].
    apply (trimStart_prefix _ (rev ws)). unfold trimEnd.
    rewrite <- rev_app_distr, <- Ews, rev_involutive. apply trimStart_idempotent. }
  rewrite E. unfold trimEnd. now rewrite rev_involutive, trimStart_idempotent.
Qed.

Lemma cleanedOf_replaceBackslashes s :
  cleanedOf (replaceBackslashes s) = cleanedOf s.
Proof.
  unfold cleanedOf. rewrite trim_replaceBackslashes.
  now rewrite (replaceBackslashes_id _ (replaceBackslashes_clean (trim s))).
Qed.

Lemma cleanedOf_trim s : cleanedOf (trim s) = cleanedOf s.
Proof. unfold cleanedOf. now rewrite trim_idempotent. Qed.

(** The normalized path is a function of [cleaned]. *)
Lemma prepareString_by_cleaned s s' :
  isEmpty (trim s) = isEmpty (trim s') -> cleanedOf s = cleanedOf s' ->
  option_map normalizedPath (prepareString s)
  = option_map normalizedPath (prepareString s').
Proof.
  intros Ht Hc. unfold prepareString. rewrite Ht.
  destruct (isEmpty (trim s')); [reflexivity|]. cbv zeta.
  change (if negb (str_eqb (collapseSlashes (replaceBackslashes (trim s))) sep)
             && endsWith sep (collapseSlashes (replaceBackslashes (trim s)))
          then dropLast (collapseSlashes (replaceBackslashes (trim s)))
          else collapseSlashes (replaceBackslashes (trim s)))
    with (cleanedOf s).
  change (if negb (str_eqb (collapseSlashes (replaceBackslashes (trim s'))) sep)
             && endsWith sep (collapseSlashes (replaceBackslashes (trim s')))
          then dropLast (collapseSlashes (replaceBackslashes (trim s')))
          else collapseSlashes (replaceBackslashes (trim s')))
    with (cleanedOf s').
  rewrite Hc.
  destruct (isEmpty (cleanedOf s')); [reflexivity|].
  destruct (str_eqb (cleanedOf s') sep); [reflexivity|].
  destruct (segmentsOf (cleanedOf s')); reflexivity.
Qed.

Lemma placeUnder_shown cfg p p' rel :
  normalizedPath p = normalizedPath p' ->
  showResolved (placeUnderVolume cfg p rel) = showResolved (placeUnderVolume cfg p' rel).
Proof.
  intros E. unfold placeUnderVolume.
  destruct (insideVolume cfg _); cbn; now rewrite ?E.
Qed.

(** What the resolver returns depends on its argument through the
    normalized path only. *)
Lemma resolve_by_prepared cfg a b :
  option_map normalizedPath (prepareOperationPath a)
  = option_map normalizedPath (prepareOperationPath b) ->
  showResolved (resolveFsPathFromApiPath cfg a)
  = showResolved (resolveFsPathFromApiPath cfg b).
Proof.
  intros E. unfold resolveFsPathFromApiPath.
  destruct (prepareOperationPath a) as [p|], (prepareOperationPath b) as [p'|];
    try discriminate; [|reflexivity].
  cbn in E. injection E as E. rewrite E. cbv zeta.
  repeat match goal with
         | |- context [if ?c then _ else _] =>
             lazymatch c with
             | context [if _ then _ else _] => fail
             | _ => destruct c
             end
         end;
    try (now apply placeUnder_shown); cbn; now rewrite E.
Qed.

(** X6: white space around a path and backslashes in place of slashes
    do not change what the path resolves to: the normalized path, the
    file, and whether it is rejected are the same. *)
Theorem spelling_of_separators_is_ignored (cfg : Config) (s : str) :
  showResolved (resolveFsPathFromApiPath cfg (JString (replaceBackslashes s)))
  = showResolved (resolveFsPathFromApiPath cfg (JString s)) /\
  showResolved (resolveFsPathFromApiPath cfg (JString (trim s)))
  = showResolved (resolveFsPathFromApiPath cfg (JString s)).
Proof.
  split; apply resolve_by_prepared; cbn [prepareOperationPath];
    apply prepareString_by_cleaned.
  - rewrite trim_replaceBackslashes. unfold replaceBackslashes.
    now destruct (trim s).
  - apply cleanedOf_replaceBackslashes.
  - now rewrite trim_idempotent.
  - apply cleanedOf_trim.
Qed.

(** ** The names route and the tree *)

Section SortFilter.
Variable A : Type.
Variable cmp : A -> A -> Z.
Hypothesis cmp_trans :
  forall a b c, (cmp a b <= 0 -> cmp b c <= 0 -> cmp a c <= 0)%Z.
Variable f : A -> bool.

Lemma insertBy_perm x l : Permutation (insertBy cmp x l) (x :: l).
Proof.
  induction l as [|y t IH]; cbn [insertBy]; [reflexivity|].
  destruct (cmp x y <=? 0)%Z; [reflexivity|].
  rewrite IH. apply perm_swap.
Qed.

Lemma sortBy_perm l : Permutation (sortBy cmp l) l.
Proof.
  induction l as [|x t IH]; [reflexivity|].
  change (sortBy cmp (x :: t)) with (insertBy cmp x (sortBy cmp t)).
  rewrite insertBy_perm. now apply perm_skip.
Qed.

Lemma filter_insert_dropped x l :
  f x = false -> filter f (insertBy cmp x l) = filter f l.
Proof.
  intros Hx. induction l as [|y t IH]; cbn [insertBy filter].
  - now rewrite Hx.
  - destruct (cmp x y <=? 0)%Z; cbn [filter]; [now rewrite Hx|].
    now rewrite IH.
Qed.

Lemma insertBy_first x l :
  Forall (fun z => (cmp x z <= 0)%Z) l -> insertBy cmp x l = x :: l.
Proof.
  intros H. destruct H as [|y t Hy _]; [reflexivity|].
  cbn [insertBy]. apply Z.leb_le in Hy. now rewrite Hy.
Qed.

Lemma filter_insert_kept x l :
  f x = true -> StronglySorted (leBy cmp) l ->
  filter f (insertBy cmp x l) = insertBy cmp x (filter f l).
Proof.
  intros Hx Hs. induction Hs as [|y t Hs IH Hy]; cbn [insertBy filter].
  - now rewrite Hx.
  - destruct (cmp x y <=? 0)%Z eqn:Hxy.
    + cbn [filter]. rewrite Hx. apply Z.leb_le in Hxy.
      destruct (f y).
      * cbn [insertBy]. apply Z.leb_le in Hxy. now rewrite Hxy.
      * symmetry. apply insertBy_first.
        apply (incl_Forall (incl_filter f t)).
        revert Hy. apply Forall_impl. intros z Hz. exact (cmp_trans x y z Hxy Hz).
    + cbn [filter]. destruct (f y).
      * cbn [insertBy]. now rewrite Hxy, IH.
      * exact IH.
Qed.

End SortFilter.

Section SortFilterOrder.
Variable A : Type.
Variable cmp : A -> A -> Z.
Hypothesis cmp_total : forall a b, (cmp a b <= 0 \/ cmp b a <= 0)%Z.
Hypothesis cmp_trans :
  forall a b c, (cmp a b <= 0 -> cmp b c <= 0 -> cmp a c <= 0)%Z.

(** Filtering before the sort, as the names route does, or after it, as
    the tree builder does, gives the same list. *)
Lemma filter_sortBy (f : A -> bool) l :
  filter f (sortBy cmp l) = sortBy cmp (filter f l).
Proof.
  induction l as [|x t IH]; [reflexivity|].
  change (sortBy cmp (x :: t)) with (insertBy cmp x (sortBy cmp t)).
  cbn [filter]. destruct (f x) eqn:Hx.
  - change (sortBy cmp (x :: filter f t)) with (insertBy cmp x (sortBy cmp (filter f t))).
    rewrite <- IH. apply (filter_insert_kept A cmp cmp_trans f x _ Hx).
    apply (sortBy_sorted A cmp cmp_total cmp_trans).
  - rewrite <- IH. now apply filter_insert_dropped.
Qed.

End SortFilterOrder.

Section NamesAndTree.

Context {FS : Type} {fsops : FileSystem FS}.
Variable cfg : Config.
Variable localeCompare : str -> str -> Z.

Hypothesis compare_total :
  forall a b, (localeCompare a b <= 0 \/ localeCompare b a <= 0)%Z.
Hypothesis compare_trans :
  forall a b c,
    (localeCompare a b <= 0 -> localeCompare b c <= 0 -> localeCompare a c <= 0)%Z.

Lemma compareNames_total a b :
  (compareNames localeCompare a b <= 0 \/ compareNames localeCompare b a <= 0)%Z.
Proof. apply compare_total. Qed.

Lemma compareNames_trans a b c :
  (compareNames localeCompare a b <= 0 -> compareNames localeCompare b c <= 0 ->
   compareNames localeCompare a c <= 0)%Z.
Proof. apply compare_trans. Qed.

(** The answer of the names route for a directory that [readdir] lists. *)
Lemma names_of_directory (w : World FS) req rs st entries :
  resolveFsPathFromApiPath cfg (firstOfQuery (queryPath req)) = Normal (Some rs) ->
  fs_stat (disk w) (fsPath rs) = Normal st ->
  isDirectory st = true ->
  fs_readdir (disk w) (fsPath rs) = Normal entries ->
  run (getNames cfg localeCompare req) w
  = (mkResponse 200
       (BNames (map name (sortBy (compareNames localeCompare) (visible entries)))),
     logCall (CallReaddir (fsPath rs)) (logCall (CallStat (fsPath rs)) w)).
Proof.
  intros Hr Hs Hd He.
  pose proof (resolved_is_truthy cfg _ rs Hr) as Ht.
  unfold_handler. rewrite Ht, Hr. simpl. rewrite Hs. simpl. rewrite Hd. simpl.
  rewrite He. reflexivity.
Qed.

Lemma tree_top_level fuel (d : FS) dir rel items :
  buildFileTree cfg localeCompare fuel d dir rel = Some (Normal items) ->
  exists entries,
    fs_readdir d dir = Normal entries /\
    map itemName items
    = map name (sortBy (compareNames localeCompare) (visible entries)).
Proof.
  destruct fuel as [|fuel']; [discriminate|]. cbn [buildFileTree].
  destruct (fs_readdir d dir) as [entries|e]; [|discriminate].
  intros Hv. exists entries. split; [reflexivity|].
  rewrite (visit_names cfg _ dir rel _ items Hv). unfold visible.
  now rewrite (filter_sortBy Dirent (compareNames localeCompare)
                 compareNames_total compareNames_trans).
Qed.

End NamesAndTree.

(** X7: for a directory, the names route answers the names of the top
    level of the tree of that directory, in the same order. *)
Theorem names_route_lists_top_level_of_tree
  (FS : Type) (fsops : FileSystem FS) (cfg : Config)
  (localeCompare : str -> str -> Z) (req : Request) (w : World FS)
  (rs : Resolved) (st : Stats) (fuel : nat) (rel : str) (items : list TreeItem) :
  (forall a b, (localeCompare a b <= 0 \/ localeCompare b a <= 0)%Z) ->
  (forall a b c,
      (localeCompare a b <= 0 -> localeCompare b c <= 0 -> localeCompare a c <= 0)%Z) ->
  resolveFsPathFromApiPath cfg (firstOfQuery (queryPath req)) = Normal (Some rs) ->
  fs_stat (disk w) (fsPath rs) = Normal st ->
  isDirectory st = true ->
  buildFileTree cfg localeCompare fuel (disk w) (fsPath rs) rel = Some (Normal items) ->
  fst (run (getNames cfg localeCompare req) w)
  = mkResponse 200 (BNames (map itemName items)).
Proof.
  intros Htot Htrans Hr Hs Hd Hb.
  destruct (tree_top_level cfg localeCompare Htot Htrans fuel _ _ rel items Hb)
    as (entries & He & Hnames).
  rewrite (names_of_directory cfg localeCompare w req rs st entries Hr Hs Hd He).
  cbn [fst]. now rewrite Hnames.
Qed.

(** X8: for a directory, the names route answers the names of the
    entries whose name does not begin with a dot: each one as often as
    [readdir] lists it, none of the others, in the order of the collation. *)
Theorem names_route_lists_visible_entries
  (FS : Type) (fsops : FileSystem FS) (cfg : Config)
  (localeCompare : str -> str -> Z) (req : Request) (w : World FS)
  (rs : Resolved) (st : Stats) (entries : list Dirent) :
  (forall a b, (localeCompare a b <= 0 \/ localeCompare b a <= 0)%Z) ->
  (forall a b c,
      (localeCompare a b <= 0 -> localeCompare b c <= 0 -> localeCompare a c <= 0)%Z) ->
  resolveFsPathFromApiPath cfg (firstOfQuery (queryPath req)) = Normal (Some rs) ->
  fs_stat (disk w) (fsPath rs) = Normal st ->
  isDirectory st = true ->
  fs_readdir (disk w) (fsPath rs) = Normal entries ->
  exists names,
    fst (run (getNames cfg localeCompare req) w) = mkResponse 200 (BNames names) /\
    Permutation names (map name (visible entries)) /\
    StronglySorted (leBy localeCompare) names /\
    Forall (fun n => isHidden n = false) names.
Proof.
  intros Htot Htrans Hr Hs Hd He.
  exists (map name (sortBy (compareNames localeCompare) (visible entries))).
  rewrite (names_of_directory cfg localeCompare w req rs st entries Hr Hs Hd He).
  split; [reflexivity|]. split; [|split].
  - apply Permutation_map, sortBy_perm.
  - apply StronglySorted_map.
    apply (sortBy_sorted Dirent (compareNames localeCompare)
             (compareNames_total localeCompare Htot)
             (compareNames_trans localeCompare Htrans)).
  - apply Forall_map. apply sortBy_Forall. unfold visible.
    apply Forall_forall. intros e He'. apply filter_In in He'.
    now apply negb_true_iff.
Qed.

(** ** Paths in the tree *)

Lemma entryName_good l : Forall entryName l -> Forall goodSeg l.
Proof. apply Forall_impl. now intros s (H & _). Qed.

Lemma entryName_plain l : Forall entryName l -> Forall plainSeg l.
Proof. apply Forall_impl. now intros s (_ & H). Qed.

(** [relativePath] in the loop of [buildFileTree]. *)
Lemma relativePath_snoc l w :
  Forall entryName l -> entryName w ->
  (if negb (isEmpty (join sep l)) then pjoin [join sep l; w] else w)
  = join sep (l ++ [w]).
Proof.
  intros Hl Hw. destruct l as [|v l']; [reflexivity|].
  assert (Hall : Forall entryName ((v :: l') ++ [w]))
    by (apply Forall_app; split; [exact Hl | now constructor]).
  pose proof (join_nonempty (v :: l') (entryName_good _ Hl)) as Hne.
  rewrite (isEmpty_false_of (join sep (v :: l'))) by (apply Hne; discriminate).
  cbn [negb]. unfold pjoin. cbn [filter].
  rewrite (isEmpty_false_of (join sep (v :: l'))) by (apply Hne; discriminate).
  rewrite (isEmpty_false_of w) by apply Hw. cbn [negb].
  change (join sep [join sep (v :: l'); w]) with (join sep (v :: l') ++ sep ++ w).
  rewrite <- (join_snoc (v :: l') w) by discriminate.
  pose proof (normalize_fixed_relative ((v :: l') ++ [w])
                (entryName_good _ Hall)
                (plain_normalForm true _ (entryName_plain _ Hall))) as E.
  exact E.
Qed.

Lemma toApiPath_snoc cfg l w :
  Forall entryName l -> entryName w ->
  toApiPath cfg (join sep (l ++ [w])) = toApiPath cfg (join sep l) ++ sep ++ w.
Proof.
  intros Hl Hw.
  assert (Hall : Forall goodSeg (l ++ [w])).
  { apply Forall_app. split; [now apply entryName_good|].
    constructor; [apply Hw | constructor]. }
  rewrite (toApiPath_join cfg _ Hall), (toApiPath_join cfg l (entryName_good l Hl)).
  change (ROOT_NAME cfg :: l ++ [w]) with ((ROOT_NAME cfg :: l) ++ [w]).
  rewrite (join_snoc (ROOT_NAME cfg :: l) w) by discriminate.
  now rewrite <- app_assoc.
Qed.

Lemma PathsUnder_all parent l :
  (fix all (l : list TreeItem) : Prop :=
     match l with
     | [] => True
     | x :: r => PathsUnder parent x /\ all r
     end) l <-> Forall (PathsUnder parent) l.
Proof.
  induction l as [|x r IH]; split; intros H.
  - constructor.
  - exact I.
  - destruct H as (Hx & Hr). constructor; [exact Hx | now apply IH].
  - inversion H; subst. split; [assumption | now apply IH].
Qed.

Section TreePaths.

Context {FS : Type} {fsops : FileSystem FS}.
Variable cfg : Config.
Variable localeCompare : str -> str -> Z.

Lemma visit_paths recur dir l entries items :
  (forall a w children,
      entryName w ->
      recur a (join sep (l ++ [w])) = Some (Normal children) ->
      Forall (PathsUnder (toApiPath cfg (join sep (l ++ [w])))) children) ->
  Forall entryName l ->
  Forall (fun e => entryName (name e)) entries ->
  visitEntries cfg recur dir (join sep l) entries = Some (Normal items) ->
  Forall (PathsUnder (toApiPath cfg (join sep l))) items.
Proof.
  intros Hrec Hl Hes. revert items.
  induction Hes as [|entry rest Hentry Hrest IH]; intros items; cbn [visitEntries].
  - intros [= <-]. constructor.
  - destruct (isHidden (name entry)); [apply IH|].
    rewrite (relativePath_snoc l (name entry) Hl Hentry).
    destruct (direntIsDirectory entry).
    + destruct (recur _ (join sep (l ++ [name entry]))) as [[children|e]|] eqn:Hc;
        try discriminate.
      destruct (visitEntries cfg recur dir (join sep l) rest) as [[items'|e]|];
        try discriminate.
      intros [= <-]. constructor; [|now apply IH].
      cbn [PathsUnder]. split; [now apply toApiPath_snoc|].
      apply PathsUnder_all. exact (Hrec _ _ _ Hentry Hc).
    + destruct (visitEntries cfg recur dir (join sep l) rest) as [[items'|e]|];
        try discriminate.
      intros [= <-]. constructor; [|now apply IH].
      cbn [PathsUnder]. now apply toApiPath_snoc.
Qed.

Lemma build_paths fuel (d : FS) dir l items :
  NamesOk d -> Forall entryName l ->
  buildFileTree cfg localeCompare fuel d dir (join sep l) = Some (Normal items) ->
  Forall (PathsUnder (toApiPath cfg (join sep l))) items.
Proof.
  intros Hd. revert dir l items.
  induction fuel as [|fuel' IH]; intros dir l items Hl; [discriminate|].
  cbn [buildFileTree].
  destruct (fs_readdir d dir) as [entries|e] eqn:He; [|discriminate].
  apply visit_paths; [|exact Hl|].
  - intros a w children Hw Hc. apply (IH a (l ++ [w]) children); [|exact Hc].
    apply Forall_app. split; [exact Hl | now constructor].
  - apply sortBy_Forall. exact (Hd dir entries He).
Qed.

End TreePaths.

(** X9: in a tree every item lies, by its path, directly under the path of
    the folder that holds it: the path of the folder, a separator and the
    name; the items of the top level lie under the API path of the
    relative directory the walk started with. *)
Theorem tree_paths_follow_nesting
  (FS : Type) (fsops : FileSystem FS) (cfg : Config)
  (localeCompare : str -> str -> Z) (d : FS) (fuel : nat) (dir : str)
  (l : list str) (items : list TreeItem) :
  NamesOk d -> Forall entryName l ->
  buildFileTree cfg localeCompare fuel d dir (join sep l) = Some (Normal items) ->
  Forall (PathsUnder (toApiPath cfg (join sep l))) items.
Proof. apply build_paths. Qed.

(** ** The walk of the tree route *)

Lemma afterCalls_nil {FS : Type} (w : World FS) : afterCalls w (disk w) [] = w.
Proof. destruct w. unfold afterCalls. cbn. now rewrite app_nil_r. Qed.

Lemma afterCalls_app {FS : Type} (w : World FS) d cs cs' :
  afterCalls (afterCalls w d cs) d cs' = afterCalls w d (cs ++ cs').
Proof. unfold afterCalls. cbn. now rewrite app_assoc. Qed.

Lemma afterCalls_logCall {FS : Type} (w : World FS) c cs :
  afterCalls (logCall c w) (disk w) cs = afterCalls w (disk w) (c :: cs).
Proof. unfold afterCalls, logCall. cbn. now rewrite <- app_assoc. Qed.

Lemma readdirsOf_folder dir p n children :
  readdirsOf dir (FolderItem p n children)
  = CallReaddir (pjoin [dir; n]) :: readdirsBelow (pjoin [dir; n]) children.
Proof.
  cbn [readdirsOf]. apply f_equal. unfold readdirsBelow.
  induction children as [|x r IH]; [reflexivity|]. cbn [flat_map]. now rewrite IH.
Qed.

Section WalkFacts.

Context {FS : Type} {fsops : FileSystem FS}.
Variable cfg : Config.
Variable localeCompare : str -> str -> Z.
Variable d : FS.

(** The loop of the walk gives what the loop of [buildFileTree] gives,
    and leaves the disk as it is. *)
Lemma walkEntries_result
  (pure : str -> str -> option (Completion (list TreeItem)))
  (recur : str -> str -> M FS (option (list TreeItem))) dir rel entries :
  (forall a r (w : World FS),
      disk w = d ->
      exists cs, recur a r w = (walkResult (pure a r), afterCalls w d cs)) ->
  forall w : World FS,
    disk w = d ->
    exists cs,
      walkEntries cfg recur dir rel entries w
      = (walkResult (visitEntries cfg pure dir rel entries), afterCalls w d cs).
Proof.
  intros Hrec. induction entries as [|entry rest IH]; intros w Hw.
  - exists []. cbn. now rewrite <- Hw, afterCalls_nil.
  - cbn [walkEntries visitEntries].
    destruct (isHidden (name entry)); [now apply IH|].
    cbv zeta. destruct (direntIsDirectory entry).
    + unfold bind at 1.
      destruct (Hrec (pjoin [dir; name entry])
                     (if negb (isEmpty rel) then pjoin [rel; name entry]
                      else name entry) w Hw) as [cs1 E1].
      rewrite E1.
      destruct (pure _ _) as [[children|e]|]; cbn [walkResult].
      * unfold bind.
        destruct (IH (afterCalls w d cs1) eq_refl) as [cs2 E2]. rewrite E2.
        rewrite afterCalls_app. exists (cs1 ++ cs2).
        now destruct (visitEntries cfg pure dir rel rest) as [[items|e]|].
      * now exists cs1.
      * now exists cs1.
    + unfold bind. destruct (IH w Hw) as [cs E]. rewrite E. exists cs.
      now destruct (visitEntries cfg pure dir rel rest) as [[items|e]|].
Qed.

(** When the loop of [buildFileTree] gives items, the loop of the walk
    has called [readdir] once for each folder among them. *)
Lemma walkEntries_calls
  (pure : str -> str -> option (Completion (list TreeItem)))
  (recur : str -> str -> M FS (option (list TreeItem))) dir rel entries :
  (forall a r children (w : World FS),
      disk w = d ->
      pure a r = Some (Normal children) ->
      recur a r w
      = (Normal (Some children),
         afterCalls w d (CallReaddir a :: readdirsBelow a children))) ->
  forall items (w : World FS),
    disk w = d ->
    visitEntries cfg pure dir rel entries = Some (Normal items) ->
    walkEntries cfg recur dir rel entries w
    = (Normal (Some items), afterCalls w d (readdirsBelow dir items)).
Proof.
  intros Hrec. induction entries as [|entry rest IH]; intros items w Hw.
  - cbn. intros [= <-]. now rewrite <- Hw, afterCalls_nil.
  - cbn [walkEntries visitEntries].
    destruct (isHidden (name entry)); [now apply IH|].
    cbv zeta. destruct (direntIsDirectory entry).
    + destruct (pure _ _) as [[children|e]|] eqn:Hp; try discriminate.
      destruct (visitEntries cfg pure dir rel rest) as [[items'|e]|] eqn:Hv;
        try discriminate.
      intros [= <-]. unfold bind at 1.
      rewrite (Hrec _ _ children w Hw Hp). unfold bind.
      rewrite (IH items' (afterCalls w d _) eq_refl eq_refl).
      rewrite afterCalls_app. cbn [option_map ret].
      unfold readdirsBelow at 3. cbn [flat_map]. rewrite readdirsOf_folder.
      reflexivity.
    + destruct (visitEntries cfg pure dir rel rest) as [[items'|e]|] eqn:Hv;
        try discriminate.
      intros [= <-]. unfold bind. now rewrite (IH items' w Hw eq_refl).
Qed.

End WalkFacts.

Section WalkOfTree.

Context {FS : Type} {fsops : FileSystem FS}.
Variable cfg : Config.
Variable localeCompare : str -> str -> Z.

(** The walk of a route gives what [buildFileTree] gives on the disk of
    the route, whether it returns, throws or runs out of fuel; it changes
    the record of the calls only. *)
Lemma walk_result fuel dir rel (w : World FS) :
  exists cs,
    walk cfg localeCompare fuel dir rel w
    = (walkResult (buildFileTree cfg localeCompare fuel (disk w) dir rel),
       afterCalls w (disk w) cs).
Proof.
  revert dir rel w. induction fuel as [|fuel' IH]; intros dir rel w.
  - exists []. cbn. now rewrite afterCalls_nil.
  - cbn [walk buildFileTree]. unfold bind at 1, readdir, reading.
    destruct (fs_readdir (disk w) dir) as [entries|e].
    + destruct (walkEntries_result cfg (disk w)
                  (buildFileTree cfg localeCompare fuel' (disk w))
                  (walk cfg localeCompare fuel') dir rel
                  (sortBy (compareNames localeCompare) entries))
        with (w := logCall (CallReaddir dir) w) as [cs E].
      * intros a r w' Hw'. destruct (IH a r w') as [cs E]. rewrite Hw' in E.
        now exists cs.
      * reflexivity.
      * rewrite E. exists (CallReaddir dir :: cs). now rewrite afterCalls_logCall.
    + exists [CallReaddir dir]. reflexivity.
Qed.

(** The calls of a walk that returns a tree: one [readdir] for the
    directory, and one for each folder of the tree, in its order. *)
Lemma walk_calls fuel dir rel (w : World FS) items :
  buildFileTree cfg localeCompare fuel (disk w) dir rel = Some (Normal items) ->
  walk cfg localeCompare fuel dir rel w
  = (Normal (Some items),
     afterCalls w (disk w) (CallReaddir dir :: readdirsBelow dir items)).
Proof.
  revert dir rel w items. induction fuel as [|fuel' IH]; intros dir rel w items;
    [discriminate|].
  cbn [walk buildFileTree]. unfold bind at 1, readdir, reading.
  destruct (fs_readdir (disk w) dir) as [entries|e]; [|discriminate].
  intros Hv.
  rewrite (walkEntries_calls cfg (disk w)
             (buildFileTree cfg localeCompare fuel' (disk w))
             (walk cfg localeCompare fuel') dir rel
             (sortBy (compareNames localeCompare) entries))
    with (items := items); [now rewrite afterCalls_logCall| |reflexivity|exact Hv].
  intros a r children w' Hw' Hp. rewrite <- Hw' in Hp.
  rewrite (IH a r w' children Hp). now rewrite Hw'.
Qed.

Lemma walk_only_reads fuel dir rel (w : World FS) :
  sameButCalls w (snd (walk cfg localeCompare fuel dir rel w)).
Proof.
  destruct (walk_result fuel dir rel w) as [cs E]. rewrite E.
  repeat split.
Qed.

End WalkOfTree.

(** ** Read routes *)

Section ReadFacts.

Context {FS : Type} {fsops : FileSystem FS}.
Variable cfg : Config.
Variable localeCompare : str -> str -> Z.

Lemma content_only_reads req (w : World FS) :
  sameButCalls w (snd (run (getContent cfg req) w)).
Proof.
  unfold sameButCalls. unfold_reader. split_handler; repeat split.
Qed.

Lemma names_only_reads req (w : World FS) :
  sameButCalls w (snd (run (getNames cfg localeCompare req) w)).
Proof.
  unfold sameButCalls. unfold_handler. split_handler; repeat split.
Qed.

Lemma markdown_only_reads fuel req (w : World FS) :
  sameButCalls w (snd (getMarkdown cfg localeCompare fuel req w)).
Proof.
  unfold sameButCalls. unfold_reader. split_handler.
  all: try (repeat split; reflexivity).
  all: match goal with
       | H : walk _ _ _ ?dir ?rel ?w0 = (_, _) |- _ =>
           pose proof (walk_only_reads cfg localeCompare fuel dir rel w0) as Hw;
           rewrite H in Hw; exact Hw
       end.
Qed.

End ReadFacts.

(** X10: the three read routes (names, tree or document, content) only
    read: whatever the request and the behaviour of the disk, the disk, the
    set of clients and the published events are as before; only
    filesystem calls are added to the record. *)
Theorem read_routes_only_read
  (FS : Type) (fsops : FileSystem FS) (cfg : Config)
  (localeCompare : str -> str -> Z) (fuel : nat) (req : Request) (w : World FS) :
  sameButCalls w (snd (run (getNames cfg localeCompare req) w)) /\
  sameButCalls w (snd (run (getContent cfg req) w)) /\
  sameButCalls w (snd (getMarkdown cfg localeCompare fuel req w)).
Proof.
  split; [apply names_only_reads|]. split; [apply content_only_reads|].
  apply markdown_only_reads.
Qed.

Section ContentFacts.

Context {FS : Type} {fsops : FileSystem FS}.
Variable cfg : Config.

(** The content route on a file that [stat] finds and [readFile] reads. *)
Lemma content_of_file (w : World FS) req rs st content :
  resolveFsPathFromApiPath cfg (firstOfQuery (queryPath req)) = Normal (Some rs) ->
  fs_stat (disk w) (fsPath rs) = Normal st ->
  isDirectory st = false ->
  fs_readFile (disk w) (fsPath rs) = Normal content ->
  run (getContent cfg req) w
  = (json 200
       [("path"%string, JString (apiPathOf cfg (Some (prepared rs))));
        ("name"%string, JString (basename (fsPath rs)));
        ("content"%string, JString content);
        ("size"%string, JNumber (size st));
        ("modifiedAt"%string, JString (mtime st));
        ("createdAt"%string, JString (ctime st))],
     logCall (CallReadFile (fsPath rs)) (logCall (CallStat (fsPath rs)) w)).
Proof.
  intros Hr Hs Hd Hc.
  pose proof (resolved_is_truthy cfg _ rs Hr) as Ht.
  destruct rs as [p f]. unfold_reader. rewrite Ht, Hr. simpl. rewrite Hs. simpl.
  rewrite Hd. simpl. rewrite Hc. reflexivity.
Qed.

Lemma content_success (w : World FS) req :
  status (fst (run (getContent cfg req) w)) = 200 ->
  exists rs st content,
    resolveFsPathFromApiPath cfg (firstOfQuery (queryPath req)) = Normal (Some rs) /\
    fs_stat (disk w) (fsPath rs) = Normal st /\
    isDirectory st = false /\
    fs_readFile (disk w) (fsPath rs) = Normal content.
Proof.
  unfold_reader. split_handler; try discriminate.
  intros _.
  match goal with
  | Hr : resolveFsPathFromApiPath _ _ = Normal (Some ?rs),
    Hs : fs_stat _ _ = Normal ?st, Hc : fs_readFile _ _ = Normal ?c |- _ =>
      exists rs, st, c; repeat split; assumption
  end.
Qed.

End ContentFacts.

(** X11: the content route answers 200 only for a path that resolves,
    that [stat] finds and reports as not a directory, and that [readFile]
    reads; the answer then holds what was read, the size and the times of
    [stat], and the base name of the file, after exactly these two calls. *)
Theorem content_route_answers_files_only
  (FS : Type) (fsops : FileSystem FS) (cfg : Config) (req : Request) (w : World FS) :
  literalName (ROOT_NAME cfg) ->
  status (fst (run (getContent cfg req) w)) = 200 ->
  exists rs st content,
    resolveFsPathFromApiPath cfg (firstOfQuery (queryPath req)) = Normal (Some rs) /\
    fs_stat (disk w) (fsPath rs) = Normal st /\
    isDirectory st = false /\
    fs_readFile (disk w) (fsPath rs) = Normal content /\
    run (getContent cfg req) w
    = (json 200
         [("path"%string, JString (apiPathOf cfg (Some (prepared rs))));
          ("name"%string, JString (basename (fsPath rs)));
          ("content"%string, JString content);
          ("size"%string, JNumber (size st));
          ("modifiedAt"%string, JString (mtime st));
          ("createdAt"%string, JString (ctime st))],
       logCall (CallReadFile (fsPath rs)) (logCall (CallStat (fsPath rs)) w)).
Proof.
  intros _ H200.
  destruct (content_success cfg w req H200) as (rs & st & content & Hr & Hs & Hd & Hc).
  exists rs, st, content. repeat split; try assumption.
  now apply content_of_file.
Qed.

(** ** The path a read route answers *)

Lemma takeToSep_app x y : noSlash x -> takeToSep (x ++ slash :: y) = x.
Proof.
  induction x as [|c t IH]; intros Hx; cbn [app takeToSep].
  - reflexivity.
  - apply noSlash_cons in Hx. destruct Hx as (Hc & Ht).
    apply ascii_eqb_slash in Hc. rewrite Hc. now rewrite IH.
Qed.

Lemma dropSeps_seg x y : x <> [] -> noSlash x -> dropSeps (x ++ y) = x ++ y.
Proof.
  destruct x as [|c t]; [congruence|]. intros _ Hx.
  apply noSlash_cons in Hx. destruct Hx as (Hc & _).
  apply ascii_eqb_slash in Hc. cbn [app dropSeps]. now rewrite Hc.
Qed.

(** [path.basename] of a path that ends with a separator and a name. *)
Lemma basename_seg a w : goodSeg w -> basename (a ++ sep ++ w) = w.
Proof.
  intros (Hne & Hns). unfold basename.
  assert (Hr : noSlash (rev w)) by (intros Hin; now apply in_rev in Hin).
  rewrite !rev_app_distr. change (rev sep) with sep. rewrite <- app_assoc.
  rewrite dropSeps_seg; [| |exact Hr].
  - change (rev w ++ sep ++ rev a) with (rev w ++ slash :: rev a).
    now rewrite (takeToSep_app _ _ Hr), rev_involutive.
  - intros E. apply Hne. now rewrite <- (rev_involutive w), E.
Qed.

Lemma basename_join v l :
  l <> [] -> Forall goodSeg l -> basename (join sep (v :: l)) = last l [].
Proof.
  intros Hne Hg.
  rewrite (app_removelast_last [] Hne) at 1.
  change (v :: removelast l ++ [last l []]) with ((v :: removelast l) ++ [last l []]).
  rewrite (join_snoc (v :: removelast l) (last l [])) by discriminate.
  apply basename_seg.
  apply (proj1 (Forall_forall goodSeg l) Hg).
  destruct l as [|x t]; [congruence|]. apply (@exists_last _ (x :: t)) in Hne.
  destruct Hne as (l' & y & E). rewrite E, last_last. apply in_or_app. right. now left.
Qed.

(** The pattern of the read routes removes the prefix that [toApiPath]
    adds. *)
Lemma stripRootPrefix_prefix cfg t :
  stripRootPrefix cfg ((sep ++ ROOT_NAME cfg) ++ t) = dropLeadingSlash t.
Proof.
  unfold stripRootPrefix. cbv zeta. rewrite startsWith_prefix.
  unfold sliceFrom. now rewrite skipn_prefix.
Qed.

Lemma stripRootPrefix_api cfg l :
  stripRootPrefix cfg (sep ++ join sep (ROOT_NAME cfg :: l)) = join sep l.
Proof.
  destruct l as [|w l'].
  - change (sep ++ join sep [ROOT_NAME cfg]) with (sep ++ ROOT_NAME cfg).
    rewrite <- (app_nil_r (sep ++ ROOT_NAME cfg)).
    now rewrite stripRootPrefix_prefix.
  - rewrite (join_cons (ROOT_NAME cfg) (w :: l')) by discriminate.
    now rewrite app_assoc, stripRootPrefix_prefix.
Qed.

(** X12: the content route, asked for the API path of clean names of a
    file, answers that same API path, the last name, and what [stat] and
    [readFile] give for the file of those names under the volume. *)
Theorem content_route_answers_api_path
  (FS : Type) (fsops : FileSystem FS) (cfg : Config) (l : list str)
  (w : World FS) (st : Stats) (content : str) :
  isAbsolute (cwd cfg) = true ->
  volResolved cfg <> sep ->
  cleanSeg (ROOT_NAME cfg) -> hasWindowsDrive (ROOT_NAME cfg) = false ->
  literalName (ROOT_NAME cfg) ->
  l <> [] -> Forall cleanSeg l ->
  trim (toApiPath cfg (join sep l)) = toApiPath cfg (join sep l) ->
  fs_stat (disk w) (join sep (volResolved cfg :: l)) = Normal st ->
  isDirectory st = false ->
  fs_readFile (disk w) (join sep (volResolved cfg :: l)) = Normal content ->
  run (getContent cfg (readReq (toApiPath cfg (join sep l)))) w
  = (json 200
       [("path"%string, JString (toApiPath cfg (join sep l)));
        ("name"%string, JString (last l []));
        ("content"%string, JString content);
        ("size"%string, JNumber (size st));
        ("modifiedAt"%string, JString (mtime st));
        ("createdAt"%string, JString (ctime st))],
     logCall (CallReadFile (join sep (volResolved cfg :: l)))
       (logCall (CallStat (join sep (volResolved cfg :: l))) w)).
Proof.
  intros Hcwd Hv Hroot Hdrive _ Hne Hl Ht Hs Hd Hc.
  pose proof (api_resolves cfg l Hcwd Hv Hroot Hdrive Hl Ht) as Hr.
  rewrite (content_of_file cfg w (readReq (toApiPath cfg (join sep l))) _ st content
             Hr Hs Hd Hc).
  cbn [prepared fsPath apiPathOf normalizedPath].
  rewrite (toApiPath_join cfg l (cleanSeg_good l Hl)) at 1.
  rewrite (stripRootPrefix_api cfg l).
  now rewrite (basename_join _ l Hne (cleanSeg_good l Hl)).
Qed.

(** X13: the tree route, asked for a directory, answers the tree that
    the walk builds with an empty relative directory, after one [stat], one
    [readdir] of the directory and one [readdir] for each folder of the
    tree: the paths of the items are formed from [ROOT_NAME] and the names
    below the listed directory, whatever directory is listed. *)
Theorem tree_route_paths_start_at_root_name
  (FS : Type) (fsops : FileSystem FS) (cfg : Config)
  (localeCompare : str -> str -> Z) (fuel : nat) (req : Request) (w : World FS)
  (rs : Resolved) (st : Stats) (items : list TreeItem) :
  NamesOk (disk w) ->
  resolveFsPathFromApiPath cfg (firstOfQuery (queryPath req)) = Normal (Some rs) ->
  fs_stat (disk w) (fsPath rs) = Normal st ->
  isDirectory st = true ->
  buildFileTree cfg localeCompare fuel (disk w) (fsPath rs) [] = Some (Normal items) ->
  getMarkdown cfg localeCompare fuel req w
  = (Normal (Some (mkResponse 200 (BTree items))),
     afterCalls w (disk w)
       (CallStat (fsPath rs) :: CallReaddir (fsPath rs)
        :: readdirsBelow (fsPath rs) items)) /\
  Forall (PathsUnder (sep ++ ROOT_NAME cfg)) items.
Proof.
  intros Hn Hr Hs Hd Hb. split.
  - pose proof (resolved_is_truthy cfg _ rs Hr) as Ht.
    pose proof (walk_calls cfg localeCompare fuel (fsPath rs) []
                  (logCall (CallStat (fsPath rs)) w) items Hb) as Hw.
    destruct rs as [p f]. unfold afterCalls in *. unfold_reader.
    rewrite Ht, Hr. simpl. rewrite Hs. simpl. rewrite Hd. simpl. rewrite Hw.
    now rewrite <- app_assoc.
  - exact (build_paths cfg localeCompare fuel (disk w) (fsPath rs) [] items Hn
             (Forall_nil _) Hb).
Qed.

(** ** Write routes *)

(** X14: the update route never creates: for a path that [stat] does
    not find it answers 404 after that one call, and for a path that
    [stat] finds it calls [writeFile] on it and nothing else; [mkdir] is
    never called. *)
Theorem put_never_creates
  (FS : Type) (fsops : FileSystem FS) (cfg : Config) (req : Request)
  (w : World FS) (rs : Resolved) :
  isJson req = true ->
  resolveFsPathFromApiPath cfg (bodyPath req) = Normal (Some rs) ->
  let out := run (putMarkdown cfg req) w in
  match fs_stat (disk w) (fsPath rs) with
  | Throws e =>
      out = (if hasCode e ENOENT then json 404 (errorBody "File not found")
             else failure "Failed to update markdown file" e,
             logCall (CallStat (fsPath rs)) w)
  | Normal _ =>
      calls (snd out)
      = calls w ++ [CallStat (fsPath rs); CallWriteFile (fsPath rs) (bodyMarkdown req)] /\
      disk (snd out) = snd (fs_writeFile (disk w) (fsPath rs) (bodyMarkdown req)) /\
      status (fst out)
      = match fst (fs_writeFile (disk w) (fsPath rs) (bodyMarkdown req)) with
        | Normal _ => 200
        | Throws _ => 500
        end
  end.
Proof.
  intros Hj Hr out. subst out.
  pose proof (resolved_is_truthy cfg _ rs Hr) as Ht.
  destruct rs as [p f]. unfold_handler. rewrite Hj, Ht, Hr. simpl.
  destruct (fs_stat (disk w) f) as [st|e]; simpl.
  - destruct (fs_writeFile (disk w) f (bodyMarkdown req)) as [[[]|e] d'];
      simpl; rewrite <- ?app_assoc; repeat split.
  - destruct (hasCode e ENOENT); reflexivity.
Qed.

(** X15: the save route creates the directories of the file before it
    writes, and does not undo them: when [mkdir] returns, the disk it
    leaves is handed to [writeFile], and the disk after that write stays,
    whether the write returns (200 or 201) or throws (500). *)
Theorem post_creates_parents_first
  (FS : Type) (fsops : FileSystem FS) (cfg : Config) (req : Request)
  (w : World FS) (rs : Resolved) :
  isJson req = true ->
  resolveFsPathFromApiPath cfg (bodyPath req) = Normal (Some rs) ->
  (forall e, fs_stat (disk w) (fsPath rs) = Throws e -> hasCode e ENOENT = true) ->
  let out := run (postMarkdown cfg req) w in
  let made := fs_mkdir_recursive (disk w) (dirname (fsPath rs)) in
  let written := fs_writeFile (snd made) (fsPath rs) (bodyMarkdown req) in
  match fst made with
  | Throws e =>
      out = (failure "Failed to save markdown file" e,
             afterCalls w (snd made)
               [CallStat (fsPath rs); CallMkdir (dirname (fsPath rs))])
  | Normal _ =>
      calls (snd out)
      = calls w ++ [CallStat (fsPath rs); CallMkdir (dirname (fsPath rs));
                    CallWriteFile (fsPath rs) (bodyMarkdown req)] /\
      disk (snd out) = snd written /\
      status (fst out)
      = match fst written with
        | Normal _ => if existsOnDisk w (fsPath rs) then 200 else 201
        | Throws _ => 500
        end
  end.
Proof.
  intros Hj Hr Hstat out made written. subst out made written.
  pose proof (resolved_is_truthy cfg _ rs Hr) as Ht.
  destruct rs as [p f]. unfold existsOnDisk, afterCalls. unfold_handler.
  rewrite Hj, Ht, Hr. simpl.
  destruct (fs_stat (disk w) f) as [st|e] eqn:Hs; simpl.
  - destruct (fs_mkdir_recursive (disk w) (dirname f)) as [[[]|e] d1]; simpl.
    + destruct (fs_writeFile d1 f (bodyMarkdown req)) as [[[]|e] d2];
        simpl; rewrite <- ?app_assoc; repeat split.
    + now rewrite <- app_assoc.
  - rewrite (Hstat e eq_refl). simpl.
    destruct (fs_mkdir_recursive (disk w) (dirname f)) as [[[]|e'] d1]; simpl.
    + destruct (fs_writeFile d1 f (bodyMarkdown req)) as [[[]|e'] d2];
        simpl; rewrite <- ?app_assoc; repeat split.
    + now rewrite <- app_assoc.
Qed.

(** X16: how the delete route removes what [stat] finds below the root.
    A file is removed by [unlink], whatever [recursive] says.  A
    directory with [recursive=true] is removed by a recursive [rmdir]
    without being listed; otherwise it is listed first, and removed by a
    plain [rmdir] only when the listing is empty (400 when it is not). *)
Theorem delete_dispatches_on_kind
  (FS : Type) (fsops : FileSystem FS) (cfg : Config) (req : Request)
  (w : World FS) (rs : Resolved) (st : Stats) :
  resolveFsPathFromApiPath cfg (firstOfQuery (queryPath req)) = Normal (Some rs) ->
  fsPath rs <> volResolved cfg ->
  fs_stat (disk w) (fsPath rs) = Normal st ->
  let out := run (deleteMarkdown cfg req) w in
  let f := fsPath rs in
  if negb (isDirectory st) then
    calls (snd out) = calls w ++ [CallStat f; CallUnlink f] /\
    disk (snd out) = snd (fs_unlink (disk w) f) /\
    status (fst out) = match fst (fs_unlink (disk w) f) with
                       | Normal _ => 200
                       | Throws _ => 500
                       end
  else if wantsRecursive req then
    calls (snd out) = calls w ++ [CallStat f; CallRmdir f true] /\
    disk (snd out) = snd (fs_rmdir (disk w) f true) /\
    status (fst out) = match fst (fs_rmdir (disk w) f true) with
                       | Normal _ => 200
                       | Throws _ => 500
                       end
  else
    match fs_readdir (disk w) f with
    | Normal [] =>
        calls (snd out) = calls w ++ [CallStat f; CallReaddir f; CallRmdir f false] /\
        disk (snd out) = snd (fs_rmdir (disk w) f false) /\
        status (fst out) = match fst (fs_rmdir (disk w) f false) with
                           | Normal _ => 200
                           | Throws _ => 500
                           end
    | Normal (_ :: _) =>
        status (fst out) = 400 /\
        snd out = afterCalls w (disk w) [CallStat f; CallReaddir f]
    | Throws e =>
        out = (failure "Failed to delete item" e,
               afterCalls w (disk w) [CallStat f; CallReaddir f])
    end.
Proof.
  intros Hr Hroot Hs out f. subst out f.
  pose proof (resolved_is_truthy cfg _ rs Hr) as Ht.
  apply str_eqb_neq in Hroot.
  destruct rs as [p f]. unfold wantsRecursive, afterCalls. unfold_handler.
  rewrite Ht, Hr. simpl. rewrite Hs. simpl. rewrite Hroot.
  destruct (isDirectory st); simpl.
  - match goal with |- (if ?b then _ else _) => destruct b end; simpl.
    + destruct (fs_rmdir (disk w) f true) as [[[]|e] d']; simpl;
        rewrite <- ?app_assoc; repeat split.
    + destruct (fs_readdir (disk w) f) as [[|entry entries]|e]; simpl.
      * destruct (fs_rmdir (disk w) f false) as [[[]|e] d']; simpl;
          rewrite <- ?app_assoc; repeat split.
      * rewrite <- ?app_assoc. repeat split.
      * now rewrite <- ?app_assoc.
  - destruct (fs_unlink (disk w) f) as [[[]|e] d']; simpl;
      rewrite <- ?app_assoc; repeat split.
Qed.

(** ** A document saved is read back *)

Section SaveAndRead.

Context {FS : Type} {fsops : FileSystem FS}.
Variable cfg : Config.

(** A save that succeeds ends with a [writeFile] that returned. *)
Lemma post_success_writes req (w : World FS) :
  succeeded (fst (run (postMarkdown cfg req) w)) = true ->
  exists rs d,
    resolveFsPathFromApiPath cfg (bodyPath req) = Normal (Some rs) /\
    fs_writeFile d (fsPath rs) (bodyMarkdown req)
    = (Normal tt, disk (snd (run (postMarkdown cfg req) w))).
Proof.
  unfold_handler. split_handler; try discriminate; intros _;
    match goal with
    | Hr : resolveFsPathFromApiPath _ _ = Normal (Some ?rs),
      Hw : fs_writeFile ?d _ _ = (Normal _, _) |- _ =>
        exists rs, d; split; [reflexivity|];
        simpl; rewrite Hw;
        repeat match goal with u : unit |- _ => destruct u end; reflexivity
    end.
Qed.

Lemma put_success_writes req (w : World FS) :
  succeeded (fst (run (putMarkdown cfg req) w)) = true ->
  exists rs d,
    resolveFsPathFromApiPath cfg (bodyPath req) = Normal (Some rs) /\
    fs_writeFile d (fsPath rs) (bodyMarkdown req)
    = (Normal tt, disk (snd (run (putMarkdown cfg req) w))).
Proof.
  unfold_handler. split_handler; try discriminate; intros _;
    match goal with
    | Hr : resolveFsPathFromApiPath _ _ = Normal (Some ?rs),
      Hw : fs_writeFile ?d _ _ = (Normal _, _) |- _ =>
        exists rs, d; split; [reflexivity|];
        simpl; rewrite Hw;
        repeat match goal with u : unit |- _ => destruct u end; reflexivity
    end.
Qed.

End SaveAndRead.

(** X17: on a disk that keeps what is written, a document that the save
    route or the update route has saved (answer 2xx) is read back by the
    content route under the same path: the answer is 200 and holds the
    text that was sent. *)
Theorem saved_document_is_read_back
  (FS : Type) (fsops : FileSystem FS) (cfg : Config) (save read : Request)
  (w : World FS) (content : str) :
  KeepsWrites FS ->
  literalName (ROOT_NAME cfg) ->
  bodyMarkdown save = JString content ->
  firstOfQuery (queryPath read) = bodyPath save ->
  forall route,
    route = postMarkdown cfg \/ route = putMarkdown cfg ->
    succeeded (fst (run (route save) w)) = true ->
    let answer := fst (run (getContent cfg read) (snd (run (route save) w))) in
    status answer = 200 /\
    In ("content"%string, JString content) (fieldsOf answer).
Proof.
  intros Hkeeps _ Hmd Hq route Hroute Hok answer. subst answer.
  assert (Hw : exists rs d,
             resolveFsPathFromApiPath cfg (bodyPath save) = Normal (Some rs) /\
             fs_writeFile d (fsPath rs) (bodyMarkdown save)
             = (Normal tt, disk (snd (run (route save) w)))).
  { destruct Hroute; subst route;
      [now apply post_success_writes | now apply put_success_writes]. }
  destruct Hw as (rs & d & Hr & Hw). rewrite Hmd in Hw.
  destruct (Hkeeps _ _ _ _ Hw) as (Hread & st & Hs & Hd).
  rewrite <- Hq in Hr.
  rewrite (content_of_file cfg _ read rs st content Hr Hs Hd Hread).
  split; [reflexivity|]. cbn. auto.
Qed.

(** The in-memory disk keeps what is written. *)
Lemma memfs_lookup_updated p e d old :
  MemFs.lookup p d = Some old ->
  MemFs.lookup p (map (fun qe => if str_eqb (fst qe) p then (p, e) else qe) d)
  = Some e.
Proof.
  induction d as [|[q x] rest IH]; cbn [MemFs.lookup map fst]; [discriminate|].
  destruct (str_eqb q p) eqn:E.
  - intros _. cbn [MemFs.lookup]. now rewrite str_eqb_refl.
  - intros H. cbn [MemFs.lookup]. rewrite E. now apply IH.
Qed.

Lemma memfs_lookup_added p e d :
  MemFs.lookup p d = None -> MemFs.lookup p (d ++ [(p, e)]) = Some e.
Proof.
  induction d as [|[q x] rest IH]; cbn [MemFs.lookup app].
  - now rewrite str_eqb_refl.
  - destruct (str_eqb q p); [discriminate | exact IH].
Qed.

Lemma memfs_keeps_writes : KeepsWrites MemFs.t.
Proof.
  intros d d' p content. cbn [fs_writeFile fs_readFile fs_stat MemFs.ops].
  unfold MemFs.writeFile, MemFs.readFile, MemFs.stat, MemFs.find.
  destruct (str_eqb p sep) eqn:Ep; [discriminate|].
  destruct (MemFs.lookup p d) as [[old|]|] eqn:El.
  - intros [= <-]. rewrite (memfs_lookup_updated p _ d _ El).
    split; [reflexivity|]. now eexists.
  - discriminate.
  - destruct (if str_eqb (dirname p) sep then Some MemFs.EDir
              else MemFs.lookup (dirname p) d) as [[?|]|]; try discriminate.
    intros [= <-]. rewrite (memfs_lookup_added p _ d El).
    split; [reflexivity|]. now eexists.
Qed.

(** ** The first server *)

Lemma endsWith_split p s : endsWith p s = true -> exists x, s = x ++ p.
Proof.
  unfold endsWith. intros H. apply startsWith_exists in H. destruct H as [t E].
  exists (rev t). now rewrite <- (rev_involutive s), E, rev_app_distr, rev_involutive.
Qed.

Lemma withExtension_ends s : exists x, FirstServer.withExtension s = x ++ FirstServer.mdSuffix.
Proof.
  unfold FirstServer.withExtension.
  destruct (endsWith FirstServer.mdSuffix s) eqn:E.
  - now apply endsWith_split.
  - now exists s.
Qed.

Lemma dropLeadingSeparators_ends x :
  exists y, FirstServer.dropLeadingSeparators (x ++ FirstServer.mdSuffix)
            = y ++ FirstServer.mdSuffix.
Proof.
  induction x as [|c t IH].
  - now exists [].
  - cbn [app FirstServer.dropLeadingSeparators].
    destruct (FirstServer.isSeparator c); [exact IH|]. now exists (c :: t).
Qed.

Lemma dropParentSteps_step a b c t :
  FirstServer.dropParentSteps (a :: b :: c :: t)
  = if Ascii.eqb a dot && Ascii.eqb b dot && FirstServer.isSeparator c
    then FirstServer.dropParentSteps t
    else a :: FirstServer.dropParentSteps (b :: c :: t).
Proof. reflexivity. Qed.

Lemma dropParentSteps_ends_bound n :
  forall x, List.length x <= n ->
  exists y, FirstServer.dropParentSteps (x ++ FirstServer.mdSuffix)
            = y ++ FirstServer.mdSuffix.
Proof.
  induction n as [|n IH]; intros x Hlen.
  - destruct x; [|cbn in Hlen; lia]. now exists [].
  - destruct x as [|a [|b [|c t]]].
    + now exists [].
    + exists [a]. cbn. now destruct (Ascii.eqb a dot).
    + exists [a; b]. cbn. rewrite andb_false_r.
      now destruct (Ascii.eqb b dot).
    + change ((a :: b :: c :: t) ++ FirstServer.mdSuffix)
        with (a :: b :: c :: (t ++ FirstServer.mdSuffix)).
      rewrite dropParentSteps_step.
      destruct (Ascii.eqb a dot && Ascii.eqb b dot && FirstServer.isSeparator c).
      * apply IH. cbn in Hlen. lia.
      * destruct (IH (b :: c :: t)) as [y E]; [cbn in *; lia|].
        exists (a :: y).
        change (b :: c :: t ++ FirstServer.mdSuffix)
          with ((b :: c :: t) ++ FirstServer.mdSuffix).
        now rewrite E.
Qed.

Lemma replaceInvalid_valid s :
  Forall (fun c => FirstServer.isInvalid c = false) (FirstServer.replaceInvalid s).
Proof.
  unfold FirstServer.replaceInvalid. apply Forall_map, Forall_forall. intros c _.
  destruct (FirstServer.isInvalid c) eqn:E; [reflexivity | exact E].
Qed.

(** X18: the name under which the first server saves has none of the
    seven characters of its third pattern, and ends with [.md], whatever
    the path sent. *)
Theorem first_server_names_are_markdown (s : str) :
  Forall (fun c => FirstServer.isInvalid c = false)
         (FirstServer.sanitize (FirstServer.withExtension s)) /\
  endsWith FirstServer.mdSuffix (FirstServer.sanitize (FirstServer.withExtension s))
  = true.
Proof.
  split; [apply replaceInvalid_valid|]. unfold FirstServer.sanitize.
  destruct (withExtension_ends s) as [x ->].
  destruct (dropLeadingSeparators_ends x) as [y ->].
  destruct (dropParentSteps_ends_bound (List.length y) y (le_n _)) as [z ->].
  unfold FirstServer.replaceInvalid. rewrite map_app. apply endsWith_suffix.
Qed.

Lemma dropParentSteps_plain r :
  Forall (fun c => FirstServer.isSeparator c = false) r ->
  FirstServer.dropParentSteps r = r.
Proof.
  induction r as [|a rest IH]; intros H; [reflexivity|].
  inversion H as [|? ? Ha Hrest]; subst. specialize (IH Hrest).
  destruct rest as [|b [|c t]]; try reflexivity.
  rewrite dropParentSteps_step.
  inversion Hrest as [|? ? _ Hrest']; subst.
  inversion Hrest' as [|? ? Hc _]; subst.
  rewrite Hc, andb_false_r. now rewrite IH.
Qed.

Lemma dropParentSteps_four r :
  FirstServer.dropParentSteps (lit "....//" ++ r)
  = lit "../" ++ FirstServer.dropParentSteps r.
Proof. destruct r as [|b [|c t]]; reflexivity. Qed.

Lemma replaceInvalid_id r :
  Forall (fun c => FirstServer.isInvalid c = false) r ->
  FirstServer.replaceInvalid r = r.
Proof.
  induction 1 as [|c t Hc _ IH]; [reflexivity|].
  cbn [FirstServer.replaceInvalid map]. rewrite Hc.
  unfold FirstServer.replaceInvalid in IH. now rewrite IH.
Qed.

(** What the three patterns leave of a path that begins with four dots
    and two slashes. *)
Lemma sanitize_four_dots r :
  Forall (fun c => FirstServer.isSeparator c = false) r ->
  Forall (fun c => FirstServer.isInvalid c = false) r ->
  FirstServer.sanitize (lit "....//" ++ r) = lit "../" ++ r.
Proof.
  intros Hs Hi. unfold FirstServer.sanitize.
  change (FirstServer.dropLeadingSeparators (lit "....//" ++ r))
    with (lit "....//" ++ r).
  rewrite dropParentSteps_four, (dropParentSteps_plain r Hs).
  unfold FirstServer.replaceInvalid. rewrite map_app.
  change (map (fun c => if FirstServer.isInvalid c then "_"%char else c) (lit "../"))
    with (lit "../").
  apply f_equal. exact (replaceInvalid_id r Hi).
Qed.

Lemma normalize_parent_step b segs A x r :
  normalizeSegments b segs = A ++ [x] -> plainSeg x -> plainSeg r ->
  normalizeSegments b (segs ++ [dotdotSeg; r]) = A ++ [r].
Proof.
  unfold normalizeSegments. intros H Hx Hr.
  apply (f_equal (@rev str)) in H. rewrite rev_involutive, rev_app_distr in H.
  cbn [rev app] in H. rewrite fold_left_app, H. cbn [fold_left].
  rewrite push_dotdot_cons.
  replace (str_eqb x dotdotSeg) with false
    by (symmetry; apply str_eqb_neq; apply Hx).
  rewrite (plainSeg_push b (rev A) r Hr). cbn [rev]. now rewrite rev_involutive.
Qed.

(** [path.join(v, '../' + r)]: [r] beside the last name of [v]. *)
Lemma pjoin_parent_step (v r : str) (A : list str) (x : str) :
  v <> [] -> goodSeg r -> plainSeg r ->
  normalizeSegments (negb (isAbsolute v)) (segmentsOf v) = A ++ [x] ->
  plainSeg x ->
  pjoin (@cons str v (@cons str (lit "../" ++ r) []))
  = if isAbsolute v then sep ++ join sep (A ++ [r]) else join sep (A ++ [r]).
Proof.
  intros Hv Hg Hr HA Hx. unfold pjoin. cbn [filter].
  rewrite (isEmpty_false_of v Hv). cbn [negb].
  change (isEmpty (lit "../" ++ r)) with false. cbn [negb].
  change (join sep [v; lit "../" ++ r]) with (v ++ sep ++ lit "../" ++ r).
  assert (Habs : isAbsolute (v ++ sep ++ lit "../" ++ r) = isAbsolute v)
    by (destruct v; [congruence | reflexivity]).
  assert (Htrail : trailingSeparator (v ++ sep ++ lit "../" ++ r) = false).
  { rewrite !app_assoc. rewrite trailingSeparator_app by apply Hg.
    now apply trailingSeparator_seg. }
  assert (Hsegs : segmentsOf (v ++ sep ++ lit "../" ++ r)
                  = segmentsOf v ++ [dotdotSeg; r]).
  { change (v ++ sep ++ lit "../" ++ r) with (v ++ slash :: (dotdotSeg ++ slash :: r)).
    rewrite !segmentsOf_app, (segmentsOf_seg r Hg). reflexivity. }
  destruct (isAbsolute v) eqn:Ev.
  - rewrite (normalize_absolute _ Habs Htrail), Hsegs.
    now rewrite (normalize_parent_step false _ A x r HA Hx Hr).
  - rewrite (normalize_relative _) by
      (try assumption; intros E; apply app_eq_nil in E; now destruct E).
    rewrite Hsegs, (normalize_parent_step true _ A x r HA Hx Hr).
    now destruct A.
Qed.

Lemma name_with_extension n :
  cleanSeg n -> Forall (fun c => FirstServer.isInvalid c = false) n ->
  goodSeg (n ++ FirstServer.mdSuffix) /\ plainSeg (n ++ FirstServer.mdSuffix) /\
  Forall (fun c => FirstServer.isSeparator c = false) (n ++ FirstServer.mdSuffix) /\
  Forall (fun c => FirstServer.isInvalid c = false) (n ++ FirstServer.mdSuffix).
Proof.
  intros ((Hne & Hns) & _ & Hb) Hi.
  assert (Hlen : 3 <= List.length (n ++ FirstServer.mdSuffix))
    by (rewrite length_app; cbn; lia).
  repeat split.
  - intros E. rewrite E in Hlen. cbn in Hlen. lia.
  - intros Hin. apply in_app_or in Hin. destruct Hin as [Hin | Hin]; [now apply Hns|].
    cbn in Hin. intuition discriminate.
  - intros E. rewrite E in Hlen. cbn in Hlen. lia.
  - intros E. rewrite E in Hlen. cbn in Hlen. lia.
  - intros E. rewrite E in Hlen. cbn in Hlen. lia.
  - apply Forall_app. split; [|repeat constructor].
    apply Forall_forall. intros c Hc. unfold FirstServer.isSeparator.
    apply orb_false_iff. split.
    + apply ascii_eqb_slash. intros ->. now apply Hns.
    + apply Ascii.eqb_neq. exact (proj1 (Forall_forall _ n) Hb c Hc).
  - apply Forall_app. split; [exact Hi | repeat constructor].
Qed.

(** X19: the patterns of the first server let a parent step through.  A
    path of four dots, two slashes and a clean name is cleaned to [../]
    and the name, and the file is written at [path.join(VOLUME_PATH,
    '../name.md')]: beside the volume directory, not inside it. *)
Theorem first_server_writes_beside_volume
  (FS : Type) (fsops : FileSystem FS) (cfg : Config) (req : Request)
  (w : World FS) (n : str) (A : list str) (x : str) :
  isJson req = true ->
  truthy (bodyMarkdown req) = true ->
  VOLUME_PATH cfg <> [] ->
  normalizeSegments (negb (isAbsolute (VOLUME_PATH cfg)))
                    (segmentsOf (VOLUME_PATH cfg)) = A ++ [x] ->
  plainSeg x ->
  cleanSeg n -> Forall (fun c => FirstServer.isInvalid c = false) n ->
  bodyPath req = JString (lit "....//" ++ n ++ FirstServer.mdSuffix) ->
  let file := n ++ FirstServer.mdSuffix in
  let f := if isAbsolute (VOLUME_PATH cfg) then sep ++ join sep (A ++ [file])
           else join sep (A ++ [file]) in
  let out := run (FirstServer.postMarkdown cfg req) w in
  let made := fs_mkdir_recursive (disk w) (dirname f) in
  let written := fs_writeFile (snd made) f (bodyMarkdown req) in
  match fst made with
  | Throws e =>
      out = (failure "Failed to save markdown file" e,
             afterCalls w (snd made) [CallMkdir (dirname f)])
  | Normal _ =>
      calls (snd out)
      = calls w ++ [CallMkdir (dirname f); CallWriteFile f (bodyMarkdown req)] /\
      disk (snd out) = snd written /\
      fst out
      = match fst written with
        | Normal _ =>
            json 201
              [("message"%string,
                JString (lit "Markdown file created successfully"));
               ("filename"%string, JString (lit "../" ++ file));
               ("fullPath"%string, JString f)]
        | Throws e => failure "Failed to save markdown file" e
        end
  end.
Proof.
  intros Hj Hmd Hv HA Hx Hn Hi Hpath file f out made written.
  destruct (name_with_extension n Hn Hi) as (Hg & Hp & Hsep & Hinv).
  assert (Hext : FirstServer.withExtension (lit "....//" ++ file) = lit "....//" ++ file).
  { unfold FirstServer.withExtension, file.
    now rewrite app_assoc, endsWith_suffix. }
  pose proof (sanitize_four_dots file Hsep Hinv) as Hsan.
  pose proof (pjoin_parent_step (VOLUME_PATH cfg) file A x Hv Hg Hp HA Hx) as Hjoin.
  match type of Hjoin with ?lhs = _ => change (lhs = f) in Hjoin end.
  subst out made written.
  unfold FirstServer.postMarkdown, run, afterCalls, tryCatch, bind, ret, throw,
    mkdirRecursive, writeFile, writing.
  rewrite Hj, Hmd, Hpath. cbn [negb].
  change (truthy (JString (lit "....//" ++ n ++ FirstServer.mdSuffix))) with true.
  cbn [negb]. fold file. rewrite Hext, Hsan. rewrite Hjoin.
  destruct (fs_mkdir_recursive (disk w) (dirname f)) as [[[]|e] d1]; cbn.
  - destruct (fs_writeFile d1 f (bodyMarkdown req)) as [[[]|e] d2]; cbn;
      rewrite <- ?app_assoc; repeat split.
  - reflexivity.
Qed.

(** ** The life of a socket *)

Lemma socketsOf_map id (f : Client -> Client) cs :
  (forall c, clientId (f c) = clientId c) ->
  socketsOf id (map f cs) = map f (socketsOf id cs).
Proof.
  intros Hf. unfold socketsOf. induction cs as [|c t IH]; [reflexivity|].
  cbn [map filter]. rewrite Hf. destruct (Nat.eqb (clientId c) id); cbn [map];
    now rewrite IH.
Qed.

Lemma socketsOf_id id cs c : socketsOf id cs = [c] -> clientId c = id.
Proof.
  intros H. assert (Hin : In c (socketsOf id cs)) by (rewrite H; now left).
  apply filter_In in Hin. now apply Nat.eqb_eq.
Qed.

(** One event that is neither the connection nor the close of the socket
    leaves it in the set, and hands it the message when it is a change and
    the socket is open. *)
Lemma socketStep_tracks id ev cs c :
  match ev with
  | Connects id' | Closes id' => id' <> id
  | _ => True
  end ->
  socketsOf id cs = [c] ->
  exists c',
    socketsOf id (socketStep cs ev) = [c'] /\
    forall rest,
      inbox c' ++ heardBy id (isOpen (readyState c')) rest
      = inbox c ++ heardBy id (isOpen (readyState c)) (ev :: rest).
Proof.
  intros Hev Hc. pose proof (socketsOf_id id cs c Hc) as Hid.
  destruct ev as [id' | id' parsed | id' | id' state | m]; cbn [socketStep].
  - exists c. split; [|reflexivity].
    unfold onConnection, socketsOf. rewrite filter_app. fold (socketsOf id cs).
    rewrite Hc. cbn. apply Nat.eqb_neq in Hev. now rewrite Hev.
  - unfold onMessage.
    destruct parsed as [[[| | | |ty| |] coll]|]; try (exists c; now split).
    destruct (str_eqb ty (lit "subscribe") && truthy coll);
      [|exists c; now split].
    rewrite socketsOf_map, Hc by (intros x; now destruct (Nat.eqb (clientId x) id')).
    cbn [map]. eexists. split; [reflexivity|].
    intros rest. now destruct (Nat.eqb (clientId c) id').
  - exists c. split; [|reflexivity].
    unfold onClose, socketsOf.
    assert (E : forall l,
               filter (fun x => Nat.eqb (clientId x) id)
                      (filter (fun x => negb (Nat.eqb (clientId x) id')) l)
               = filter (fun x => negb (Nat.eqb (clientId x) id'))
                        (filter (fun x => Nat.eqb (clientId x) id) l)).
    { induction l as [|x t IH]; [reflexivity|]. cbn [filter].
      destruct (Nat.eqb (clientId x) id') eqn:E1, (Nat.eqb (clientId x) id) eqn:E2;
        cbn [negb filter]; rewrite ?E1, ?E2; cbn [negb]; rewrite ?IH; reflexivity. }
    rewrite E. fold (socketsOf id cs). rewrite Hc. cbn [filter]. rewrite Hid.
    apply Nat.eqb_neq in Hev. rewrite Nat.eqb_sym, Hev. reflexivity.
  - unfold setReadyState.
    rewrite socketsOf_map, Hc by (intros x; now destruct (Nat.eqb (clientId x) id')).
    cbn [map]. eexists. split; [reflexivity|].
    intros rest. cbn [heardBy]. rewrite Hid, (Nat.eqb_sym id id').
    now destruct (Nat.eqb id' id).
  - unfold forEachSend.
    rewrite socketsOf_map, Hc by (intros x; now destruct (isOpen (readyState x))).
    cbn [map]. eexists. split; [reflexivity|].
    intros rest. cbn [heardBy].
    destruct (isOpen (readyState c)) eqn:Eo; [|now rewrite Eo].
    cbn [send inbox readyState]. rewrite Eo. now rewrite <- app_assoc.
Qed.

Lemma socketRun_tracks id trace :
  staysConnected id trace ->
  forall cs c,
    socketsOf id cs = [c] ->
    exists c',
      socketsOf id (socketRun cs trace) = [c'] /\
      inbox c' = inbox c ++ heardBy id (isOpen (readyState c)) trace.
Proof.
  induction 1 as [|ev rest Hev Hrest IH]; intros cs c Hc.
  - exists c. split; [exact Hc|]. cbn. now rewrite app_nil_r.
  - destruct (socketStep_tracks id ev cs c Hev Hc) as (c1 & H1 & Hheard).
    destruct (IH (socketStep cs ev) c1 H1) as (c' & H' & Hin).
    exists c'. split; [exact H'|]. now rewrite Hin, Hheard.
Qed.

(** X20: a socket that connects is handed the changes published from
    then on while its state is OPEN, in their order, each once, and none of
    those published before; it stays in the set until its [close] or
    [error], after which no socket of its identity is left there. *)
Theorem socket_hears_changes_while_connected
  (clients : list Client) (id : nat) (before after : list SocketEvent) :
  socketsOf id (socketRun clients before) = [] ->
  staysConnected id after ->
  (exists c,
      socketsOf id (socketRun clients (before ++ Connects id :: after)) = [c] /\
      inbox c = heardBy id true after) /\
  socketsOf id (socketRun clients (before ++ Connects id :: after ++ [Closes id])) = [].
Proof.
  intros Hfresh Hstays. unfold socketRun in *.
  rewrite !fold_left_app. cbn [fold_left socketStep].
  set (cs := fold_left socketStep before clients) in *.
  assert (Hnew : socketsOf id (onConnection id cs) = [mkClient id OPEN JUndefined []]).
  { unfold onConnection, socketsOf. rewrite filter_app. fold (socketsOf id cs).
    rewrite Hfresh. cbn. now rewrite Nat.eqb_refl. }
  split.
  - destruct (socketRun_tracks id after Hstays _ _ Hnew) as (c & Hc & Hin).
    exists c. split; [exact Hc | exact Hin].
  - rewrite fold_left_app. cbn [fold_left socketStep]. unfold onClose, socketsOf.
    apply filter_none. apply Forall_forall. intros x Hx.
    apply filter_In in Hx. destruct Hx as (_ & Hx).
    now apply negb_true_iff in Hx.
Qed.

(** ** The two read routes on a file *)

(** X21: the tree route and the content route agree on a file: when
    the content route answers 200, the tree route answers 200 for the same
    request with the same path and name, and its [markdown] is the
    [content], whatever the fuel of the walk. *)
Theorem read_routes_agree_on_files
  (FS : Type) (fsops : FileSystem FS) (cfg : Config)
  (localeCompare : str -> str -> Z) (fuel : nat) (req : Request) (w : World FS) :
  literalName (ROOT_NAME cfg) ->
  status (fst (run (getContent cfg req) w)) = 200 ->
  exists p n text rest,
    fieldsOf (fst (run (getContent cfg req) w))
    = ("path"%string, JString p) :: ("name"%string, JString n)
      :: ("content"%string, JString text) :: rest /\
    getMarkdown cfg localeCompare fuel req w
    = (Normal (Some (json 200 [("path"%string, JString p);
                               ("name"%string, JString n);
                               ("markdown"%string, JString text)])),
       snd (run (getContent cfg req) w)).
Proof.
  intros _ H200.
  destruct (content_success cfg w req H200) as (rs & st & text & Hr & Hs & Hd & Hc).
  rewrite (content_of_file cfg w req rs st text Hr Hs Hd Hc).
  exists (apiPathOf cfg (Some (prepared rs))), (basename (fsPath rs)), text.
  eexists. split; [reflexivity|].
  pose proof (resolved_is_truthy cfg _ rs Hr) as Ht.
  destruct rs as [p f]. unfold_reader. rewrite Ht, Hr. simpl. rewrite Hs. simpl.
  rewrite Hd. simpl. rewrite Hc. reflexivity.
Qed.

(** ** Names of the root *)

(** X22: whatever the configuration, the paths [/] and [.] name the root
    of the volume, as the API path [/ROOT_NAME] does. *)
Theorem slash_and_dot_name_the_root (cfg : Config) :
  isAbsolute (cwd cfg) = true ->
  showResolved (resolveFsPathFromApiPath cfg (JString sep))
  = Normal (Some (sep, volResolved cfg)) /\
  showResolved (resolveFsPathFromApiPath cfg (JString dotSeg))
  = Normal (Some (dotSeg, volResolved cfg)).
Proof.
  intros Hcwd. split.
  - unfold resolveFsPathFromApiPath.
    change (prepareOperationPath (JString sep)) with (Some (mkPrepared sep sep sep)).
    cbn [normalizedPath]. change (replaceBackslashes sep) with sep. cbv zeta.
    assert (Hroot : forall p, showResolved (placeUnderVolume cfg p [])
                              = Normal (Some (normalizedPath p, volResolved cfg))).
    { intros p.
      rewrite (placeUnder_plain cfg p [] Hcwd eq_refl) by (now constructor || now left).
      reflexivity. }
    destruct (str_eqb sep (sep ++ ROOT_NAME cfg)); [apply Hroot|].
    replace (startsWith ((sep ++ ROOT_NAME cfg) ++ sep) sep) with false
      by (now destruct (ROOT_NAME cfg)).
    change (isAbsolute sep) with true. cbv iota.
    change (dropLeadingSlash sep) with (@nil ascii).
    destruct (insideVolume cfg (resolve (cwd cfg) [sep])) eqn:Hin; [|apply Hroot].
    cbn [showResolved prepared fsPath normalizedPath].
    change (resolve (cwd cfg) [sep]) with sep in *.
    apply insideVolume_spec in Hin. destruct Hin as [E | [t E]].
    + now rewrite <- E.
    + destruct (volResolved_shape cfg Hcwd) as (Es & _). rewrite Es in E.
      apply (f_equal (@List.length ascii)) in E. rewrite !length_app in E.
      cbn in E. lia.
  - unfold resolveFsPathFromApiPath.
    change (prepareOperationPath (JString dotSeg))
      with (Some (mkPrepared dotSeg dotSeg dotSeg)).
    cbn [normalizedPath]. change (replaceBackslashes dotSeg) with dotSeg. cbv zeta.
    destruct (relative_not_api cfg dotSeg eq_refl) as (E1 & E2).
    rewrite E1, E2. change (isAbsolute dotSeg) with false. cbv iota.
    now rewrite (placeUnder_dot cfg _ Hcwd).
Qed.

(** ** Reconnection of the client *)

Lemma closes_from_zero n :
  n <= WebSocketService.maxReconnectAttempts ->
  forall ts,
    WebSocketService.closes n (WebSocketService.mkService 0 ts)
    = WebSocketService.mkService n
        (ts ++ map (fun k => WebSocketService.reconnectDelay * k) (seq 1 n)).
Proof.
  induction n as [|n IH]; intros Hn ts.
  - cbn. now rewrite app_nil_r.
  - unfold WebSocketService.closes in *. rewrite Nat.iter_succ, IH by lia.
    unfold WebSocketService.onclose, WebSocketService.handleReconnect.
    cbn [WebSocketService.reconnectAttempts WebSocketService.timers].
    replace (n <? WebSocketService.maxReconnectAttempts) with true
      by (symmetry; apply Nat.ltb_lt; lia).
    rewrite seq_S, map_app, <- app_assoc. cbn [map]. cbv zeta.
    now replace (n + 1) with (1 + n) by lia.
Qed.

Lemma closes_beyond n ts :
  WebSocketService.closes n
    (WebSocketService.mkService WebSocketService.maxReconnectAttempts ts)
  = WebSocketService.mkService WebSocketService.maxReconnectAttempts ts.
Proof.
  induction n as [|n IH]; [reflexivity|].
  unfold WebSocketService.closes in *. rewrite Nat.iter_succ. now rewrite IH.
Qed.

(** X23: after a successful open, the client sets at most five timers
    for a reconnection, one for each close, after 1000, 2000, 3000, 4000
    and 5000 milliseconds; further closes set none, until an open resets
    the counter. *)
Theorem client_gives_up_after_five_closes (s : WebSocketService.Service) (n : nat) :
  WebSocketService.closes n (WebSocketService.onopen s)
  = WebSocketService.mkService
      (Nat.min n 5)
      (WebSocketService.timers s
       ++ map (fun k => 1000 * k) (seq 1 (Nat.min n 5))).
Proof.
  unfold WebSocketService.onopen.
  destruct (Nat.le_gt_cases n 5) as [Hle | Hgt].
  - rewrite (Nat.min_l n 5 Hle). now apply closes_from_zero.
  - rewrite (Nat.min_r n 5) by lia.
    replace n with ((n - 5) + 5) by lia.
    unfold WebSocketService.closes. rewrite Nat.iter_add.
    fold (WebSocketService.closes 5 (WebSocketService.mkService 0 (WebSocketService.timers s))).
    rewrite (closes_from_zero 5 (le_n _)).
    apply closes_beyond.
Qed.

(** ** Requests without a path *)

(** X24: a request to the names route or to the tree route without a
    path (none, or an empty one) is answered as the request for
    [/ROOT_NAME]: both act on the root of the volume. *)
Theorem no_path_means_the_root
  (FS : Type) (fsops : FileSystem FS) (cfg : Config)
  (localeCompare : str -> str -> Z) (fuel : nat) (req req' : Request) (w : World FS) :
  isAbsolute (cwd cfg) = true ->
  cleanSeg (ROOT_NAME cfg) -> hasWindowsDrive (ROOT_NAME cfg) = false ->
  literalName (ROOT_NAME cfg) ->
  trim (sep ++ ROOT_NAME cfg) = sep ++ ROOT_NAME cfg ->
  truthy (firstOfQuery (queryPath req)) = false ->
  firstOfQuery (queryPath req') = JString (sep ++ ROOT_NAME cfg) ->
  run (getNames cfg localeCompare req) w = run (getNames cfg localeCompare req') w /\
  getMarkdown cfg localeCompare fuel req w = getMarkdown cfg localeCompare fuel req' w.
Proof.
  intros Hcwd Hroot Hdrive _ Ht Hnone Hpath.
  destruct (api_path_normal cfg [] Hroot Hdrive (Forall_nil _)) as (Hn & Hb & Hd).
  assert (Hr : resolveFsPathFromApiPath cfg (firstOfQuery (queryPath req'))
               = Normal (Some (mkResolved
                                 (mkPrepared (sep ++ ROOT_NAME cfg) (sep ++ ROOT_NAME cfg)
                                             (sep ++ ROOT_NAME cfg))
                                 (volResolved cfg)))).
  { rewrite Hpath.
    rewrite (resolve_of_normal cfg (sep ++ ROOT_NAME cfg) Hn Ht Hb Hd). cbv zeta.
    rewrite str_eqb_refl.
    now rewrite (placeUnder_plain cfg _ [] Hcwd eq_refl) by (now constructor || now left). }
  assert (Htrue : truthy (firstOfQuery (queryPath req')) = true) by now rewrite Hpath.
  assert (Hstrip : toApiPath cfg (stripRootPrefix cfg (sep ++ ROOT_NAME cfg))
                   = toApiPath cfg []).
  { change (sep ++ ROOT_NAME cfg) with (sep ++ join sep [ROOT_NAME cfg]).
    now rewrite (stripRootPrefix_api cfg []). }
  split.
  - unfold_handler. rewrite Hnone, Htrue, Hr. reflexivity.
  - unfold getMarkdown, apiPathOf, tryCatch, bind, ret, resolveM.
    rewrite Hnone, Htrue, Hr. cbn [normalizedPath]. rewrite Hstrip. reflexivity.
Qed.

(** ** Instances of the further properties *)

Lemma vault_is_not_slash : volResolved cfgVault <> sep.
Proof. intros E. vm_compute in E. discriminate. Defined.

Lemma api_path_resolves_under_volume_witness :
  volResolved cfgVault <> sep /\
  cleanSeg (lit "Vault") /\ Forall cleanSeg [lit "notes"; lit "a.md"] /\
  resolveFsPathFromApiPath cfgVault (JString (lit "/Vault/notes/a.md"))
  = Normal (Some (resolvedAt "/Vault/notes/a.md" "/vault/notes/a.md")).
Proof.
  assert (H1 : cleanSeg (lit "Vault")) by clean_names.
  assert (H2 : Forall cleanSeg [lit "notes"; lit "a.md"]) by clean_names.
  split; [exact vault_is_not_slash|]. split; [exact H1|]. split; [exact H2|].
  exact (api_path_resolves_under_volume cfgVault [lit "notes"; lit "a.md"]
           eq_refl vault_is_not_slash H1 eq_refl H2 eq_refl).
Defined.

Lemma relative_path_resolves_under_volume_witness :
  Forall cleanSeg [lit "notes"; lit "a b.md"] /\
  resolveFsPathFromApiPath cfgVault (JString (lit "notes/a b.md"))
  = Normal (Some (resolvedAt "notes/a b.md" "/vault/notes/a b.md")).
Proof.
  assert (H : Forall cleanSeg [lit "notes"; lit "a b.md"]) by clean_names.
  split; [exact H|].
  refine (relative_path_resolves_under_volume cfgVault [lit "notes"; lit "a b.md"]
            eq_refl vault_is_not_slash _ H eq_refl).
  discriminate.
Defined.

Lemma absolute_path_kept_or_placed_witness :
  Forall cleanSeg [lit "etc"; lit "passwd"] /\
  resolveFsPathFromApiPath cfgVault (JString (lit "/etc/passwd"))
  = Normal (Some (resolvedAt "/etc/passwd" "/vault/etc/passwd")).
Proof.
  assert (H : Forall cleanSeg [lit "etc"; lit "passwd"]) by clean_names.
  split; [exact H|].
  refine (absolute_path_kept_or_placed cfgVault [lit "etc"; lit "passwd"]
            eq_refl vault_is_not_slash _ _ H _ eq_refl eq_refl);
    clean_names.
Defined.

Lemma resolver_throws_only_above_witness :
  resolveFsPathFromApiPath cfgVault (JString (lit "notes/../../x")) = Throws escapesVolume /\
  exists p rest,
    prepareOperationPath (JString (lit "notes/../../x")) = Some p /\
    isAbsolute (normalizedPath p) = false /\
    segmentsOf (normalizedPath p) = dotdotSeg :: rest.
Proof.
  split; [reflexivity|].
  exact (proj2 (resolver_throws_only_above cfgVault (JString (lit "notes/../../x"))
                  escapesVolume eq_refl vault_is_not_slash eq_refl)).
Defined.

Lemma volume_at_filesystem_root_witness :
  volResolved cfgSlash = sep /\
  (forall raw rs,
      resolveFsPathFromApiPath cfgSlash raw = Normal (Some rs) -> fsPath rs = sep) /\
  (forall l,
      l <> [] -> Forall cleanSeg l -> trim (join sep l) = join sep l ->
      resolveFsPathFromApiPath cfgSlash (JString (join sep l)) = Throws escapesVolume).
Proof.
  split; [reflexivity|].
  exact (volume_at_filesystem_root cfgSlash eq_refl eq_refl).
Defined.

Lemma memfs_names_ok (d : MemFs.t) :
  Forall (fun qe => entryName (basename (fst qe))) d -> NamesOk d.
Proof.
  intros Hd dir entries. cbn [fs_readdir MemFs.ops]. unfold MemFs.readdir.
  destruct (MemFs.find dir d) as [[content|]|]; try discriminate.
  intros [= <-]. apply Forall_map. unfold MemFs.childrenOf.
  exact (incl_Forall (incl_filter _ d) Hd).
Qed.

Lemma vault_names_ok : NamesOk (disk worldWithHidden).
Proof.
  apply memfs_names_ok. cbn [disk worldWithHidden].
  repeat (apply Forall_cons; [split; clean_names|]). apply Forall_nil.
Qed.

Lemma vault_is_literal : literalName (ROOT_NAME cfgVault).
Proof. repeat constructor. Qed.

Lemma names_route_lists_top_level_of_tree_witness :
  fst (run (getNames cfgVault Collation.compareFolded (readReq (lit "/Vault")))
           worldWithHidden)
  = mkResponse 200 (BNames [lit "Archive"; lit "b.md"; lit "notes"]).
Proof.
  exact (names_route_lists_top_level_of_tree MemFs.t MemFs.ops cfgVault
           Collation.compareFolded (readReq (lit "/Vault")) worldWithHidden
           (resolvedAt "/Vault" "/vault") (MemFs.statOf MemFs.EDir) 2 [] _
           compareFolded_total compareFolded_trans eq_refl eq_refl eq_refl
           tree_of_vault).
Defined.

Lemma names_route_lists_visible_entries_witness :
  exists names,
    fst (run (getNames cfgVault Collation.compareFolded (readReq (lit "/Vault/Archive")))
             worldWithHidden)
    = mkResponse 200 (BNames names) /\
    Permutation names [lit "z.md"; lit "A.md"] /\
    StronglySorted (leBy Collation.compareFolded) names /\
    Forall (fun n => isHidden n = false) names.
Proof.
  exact (names_route_lists_visible_entries MemFs.t MemFs.ops cfgVault
           Collation.compareFolded (readReq (lit "/Vault/Archive")) worldWithHidden
           (resolvedAt "/Vault/Archive" "/vault/Archive") (MemFs.statOf MemFs.EDir)
           [mkDirent (lit "z.md") false; mkDirent (lit "A.md") false]
           compareFolded_total compareFolded_trans eq_refl eq_refl eq_refl eq_refl).
Defined.

Lemma tree_paths_follow_nesting_witness :
  Forall (PathsUnder (lit "/Vault"))
    [FolderItem (lit "/Vault/Archive") (lit "Archive")
       [FileItem (lit "/Vault/Archive/A.md") (lit "A.md");
        FileItem (lit "/Vault/Archive/z.md") (lit "z.md")];
     FileItem (lit "/Vault/b.md") (lit "b.md");
     FolderItem (lit "/Vault/notes") (lit "notes") []].
Proof.
  exact (tree_paths_follow_nesting MemFs.t MemFs.ops cfgVault
           Collation.compareFolded (disk worldWithHidden) 2 (lit "/vault") [] _
           vault_names_ok (Forall_nil _) tree_of_vault).
Defined.

Lemma content_route_answers_files_only_witness :
  exists rs st content,
    resolveFsPathFromApiPath cfgVault (JString (lit "a.md")) = Normal (Some rs) /\
    fs_stat (disk worldWithFile) (fsPath rs) = Normal st /\
    isDirectory st = false /\
    fs_readFile (disk worldWithFile) (fsPath rs) = Normal content /\
    run (getContent cfgVault (readReq (lit "a.md"))) worldWithFile
    = (json 200
         [("path"%string, JString (apiPathOf cfgVault (Some (prepared rs))));
          ("name"%string, JString (basename (fsPath rs)));
          ("content"%string, JString content);
          ("size"%string, JNumber (size st));
          ("modifiedAt"%string, JString (mtime st));
          ("createdAt"%string, JString (ctime st))],
       logCall (CallReadFile (fsPath rs)) (logCall (CallStat (fsPath rs)) worldWithFile)).
Proof.
  exact (content_route_answers_files_only MemFs.t MemFs.ops cfgVault
           (readReq (lit "a.md")) worldWithFile vault_is_literal eq_refl).
Defined.

Lemma content_route_answers_api_path_witness :
  run (getContent cfgVault (readReq (lit "/Vault/a.md"))) worldWithFile
  = (json 200
       [("path"%string, JString (lit "/Vault/a.md"));
        ("name"%string, JString (lit "a.md"));
        ("content"%string, JString (lit "hello"));
        ("size"%string, JNumber 5);
        ("modifiedAt"%string, JString []);
        ("createdAt"%string, JString [])],
     logCall (CallReadFile (lit "/vault/a.md"))
       (logCall (CallStat (lit "/vault/a.md")) worldWithFile)).
Proof.
  assert (H1 : cleanSeg (lit "Vault")) by clean_names.
  assert (H2 : Forall cleanSeg [lit "a.md"]) by clean_names.
  refine (content_route_answers_api_path MemFs.t MemFs.ops cfgVault [lit "a.md"]
            worldWithFile (MemFs.statOf (MemFs.EFile (lit "hello"))) (lit "hello")
            eq_refl vault_is_not_slash H1 eq_refl vault_is_literal _ H2 eq_refl
            eq_refl eq_refl eq_refl).
  discriminate.
Defined.

Lemma tree_route_paths_start_at_root_name_witness :
  getMarkdown cfgVault Collation.compareFolded 2 (readReq (lit "/Vault/Archive"))
    worldWithHidden
  = (Normal (Some (mkResponse 200
                     (BTree [FileItem (lit "/Vault/A.md") (lit "A.md");
                             FileItem (lit "/Vault/z.md") (lit "z.md")]))),
     afterCalls worldWithHidden (disk worldWithHidden)
       [CallStat (lit "/vault/Archive"); CallReaddir (lit "/vault/Archive")]) /\
  Forall (PathsUnder (lit "/Vault"))
    [FileItem (lit "/Vault/A.md") (lit "A.md");
     FileItem (lit "/Vault/z.md") (lit "z.md")].
Proof.
  exact (tree_route_paths_start_at_root_name MemFs.t MemFs.ops cfgVault
           Collation.compareFolded 2 (readReq (lit "/Vault/Archive")) worldWithHidden
           (resolvedAt "/Vault/Archive" "/vault/Archive") (MemFs.statOf MemFs.EDir)
           [FileItem (lit "/Vault/A.md") (lit "A.md");
            FileItem (lit "/Vault/z.md") (lit "z.md")]
           vault_names_ok eq_refl eq_refl eq_refl eq_refl).
Defined.

(** The tree route on the root of the example: [stat], and a [readdir]
    for the root and for each of its two visible folders. *)
Example tree_route_calls_of_vault :
  calls (snd (getMarkdown cfgVault Collation.compareFolded 2 (readReq (lit "/Vault"))
                worldWithHidden))
  = [CallStat (lit "/vault"); CallReaddir (lit "/vault");
     CallReaddir (lit "/vault/Archive"); CallReaddir (lit "/vault/notes")].
Proof. reflexivity. Qed.

Lemma put_never_creates_witness :
  run (putMarkdown cfgVault (writeReq "/Vault/new/b.md" "text")) worldWithFile
  = (json 404 (errorBody "File not found"),
     logCall (CallStat (lit "/vault/new/b.md")) worldWithFile).
Proof.
  exact (put_never_creates MemFs.t MemFs.ops cfgVault
           (writeReq "/Vault/new/b.md" "text") worldWithFile
           (resolvedAt "/Vault/new/b.md" "/vault/new/b.md") eq_refl eq_refl).
Defined.

(** A save without text: the directory is made, the write throws, the
    directory stays. *)
Lemma post_creates_parents_first_witness :
  let req := mkRequest true (JString (lit "/Vault/x/y.md")) JUndefined JUndefined
                       JUndefined in
  let out := run (postMarkdown cfgVault req) worldWithFile in
  calls (snd out)
  = [CallStat (lit "/vault/x/y.md"); CallMkdir (lit "/vault/x");
     CallWriteFile (lit "/vault/x/y.md") JUndefined] /\
  disk (snd out) = disk worldWithFile ++ [(lit "/vault/x", MemFs.EDir)] /\
  status (fst out) = 500.
Proof.
  refine (post_creates_parents_first MemFs.t MemFs.ops cfgVault
            (mkRequest true (JString (lit "/Vault/x/y.md")) JUndefined JUndefined
                       JUndefined)
            worldWithFile (resolvedAt "/Vault/x/y.md" "/vault/x/y.md")
            eq_refl eq_refl _).
  intros e [= <-]. reflexivity.
Defined.

Lemma delete_dispatches_on_kind_witness :
  let out := run (deleteMarkdown cfgVault (deleteReq "/Vault/a.md" "true"))
                 worldWithFile in
  calls (snd out) = [CallStat (lit "/vault/a.md"); CallUnlink (lit "/vault/a.md")] /\
  disk (snd out) = [(lit "/vault", MemFs.EDir)] /\
  status (fst out) = 200.
Proof.
  refine (delete_dispatches_on_kind MemFs.t MemFs.ops cfgVault
            (deleteReq "/Vault/a.md" "true") worldWithFile
            (resolvedAt "/Vault/a.md" "/vault/a.md")
            (MemFs.statOf (MemFs.EFile (lit "hello"))) eq_refl _ eq_refl).
  discriminate.
Defined.

Lemma saved_document_is_read_back_witness :
  let saved := snd (run (postMarkdown cfgVault (writeReq "/Vault/notes/a.md" "hello"))
                        worldVault) in
  let answer := fst (run (getContent cfgVault (readReq (lit "/Vault/notes/a.md")))
                         saved) in
  status answer = 200 /\
  In ("content"%string, JString (lit "hello")) (fieldsOf answer).
Proof.
  exact (saved_document_is_read_back MemFs.t MemFs.ops cfgVault
           (writeReq "/Vault/notes/a.md" "hello") (readReq (lit "/Vault/notes/a.md"))
           worldVault (lit "hello") memfs_keeps_writes vault_is_literal eq_refl eq_refl
           (postMarkdown cfgVault) (or_introl eq_refl) eq_refl).
Defined.

Lemma first_server_writes_beside_volume_witness :
  let out := run (FirstServer.postMarkdown cfgFirst (writeReq "....//evil.md" "text"))
                 worldFirst in
  calls (snd out)
  = [CallMkdir (lit "/srv"); CallWriteFile (lit "/srv/evil.md") (JString (lit "text"))] /\
  disk (snd out) = disk worldFirst ++ [(lit "/srv/evil.md", MemFs.EFile (lit "text"))] /\
  fst out
  = json 201
      [("message"%string, JString (lit "Markdown file created successfully"));
       ("filename"%string, JString (lit "../evil.md"));
       ("fullPath"%string, JString (lit "/srv/evil.md"))].
Proof.
  assert (Hn : cleanSeg (lit "evil")) by clean_names.
  refine (first_server_writes_beside_volume MemFs.t MemFs.ops cfgFirst
            (writeReq "....//evil.md" "text") worldFirst (lit "evil") [lit "srv"]
            (lit "data") eq_refl eq_refl _ eq_refl _ Hn _ eq_refl);
    [discriminate | clean_names | repeat constructor].
Defined.

Lemma socket_hears_changes_while_connected_witness :
  let after := [Publishes (changeOf "b"); Becomes 1 CLOSING; Publishes (changeOf "c");
                Sends 1 (Some (JString (lit "subscribe"), JString (lit "Other")));
                Becomes 1 OPEN; Connects 2; Publishes (changeOf "d"); Closes 2] in
  (exists c,
      socketsOf 1 (socketRun [] ([Publishes (changeOf "a")] ++ Connects 1 :: after))
      = [c] /\
      inbox c = [changeOf "b"; changeOf "d"]) /\
  socketsOf 1 (socketRun [] ([Publishes (changeOf "a")]
                             ++ Connects 1 :: after ++ [Closes 1]))
  = [].
Proof.
  intros after.
  refine (socket_hears_changes_while_connected [] 1 [Publishes (changeOf "a")] after
            eq_refl _).
  repeat constructor; discriminate.
Defined.

Lemma read_routes_agree_on_files_witness :
  exists p n text rest,
    fieldsOf (fst (run (getContent cfgVault (readReq (lit "/Vault/a.md"))) worldWithFile))
    = ("path"%string, JString p) :: ("name"%string, JString n)
      :: ("content"%string, JString text) :: rest /\
    getMarkdown cfgVault Collation.compareFolded 0 (readReq (lit "/Vault/a.md"))
      worldWithFile
    = (Normal (Some (json 200 [("path"%string, JString p);
                               ("name"%string, JString n);
                               ("markdown"%string, JString text)])),
       snd (run (getContent cfgVault (readReq (lit "/Vault/a.md"))) worldWithFile)).
Proof.
  exact (read_routes_agree_on_files MemFs.t MemFs.ops cfgVault Collation.compareFolded 0
           (readReq (lit "/Vault/a.md")) worldWithFile vault_is_literal eq_refl).
Defined.

Lemma slash_and_dot_name_the_root_witness :
  showResolved (resolveFsPathFromApiPath cfg0 (JString (lit "/")))
  = Normal (Some (lit "/", lit "/srv/app/Haptic")) /\
  showResolved (resolveFsPathFromApiPath cfg0 (JString (lit ".")))
  = Normal (Some (lit ".", lit "/srv/app/Haptic")).
Proof. exact (slash_and_dot_name_the_root cfg0 eq_refl). Defined.

Lemma no_path_means_the_root_witness :
  run (getNames cfgVault Collation.compareFolded (readReq [])) worldWithHidden
  = run (getNames cfgVault Collation.compareFolded (readReq (lit "/Vault")))
        worldWithHidden /\
  getMarkdown cfgVault Collation.compareFolded 2 (readReq []) worldWithHidden
  = getMarkdown cfgVault Collation.compareFolded 2 (readReq (lit "/Vault"))
      worldWithHidden.
Proof.
  assert (H1 : cleanSeg (lit "Vault")) by clean_names.
  exact (no_path_means_the_root MemFs.t MemFs.ops cfgVault Collation.compareFolded 2
           (readReq []) (readReq (lit "/Vault")) worldWithHidden
           eq_refl H1 eq_refl vault_is_literal eq_refl eq_refl eq_refl).
Defined.
